(** * CHFS 2017 siblings/debt analysis: the data reconciliation engine

    A shallow embedding of [src/chfs2017-siblings-debt-analysis.py]:
    the head-proxy extractor, the midpoint resolver [get_midpoint], the
    exact/interval coalescing loops, the household aggregator and the
    winsorisation of the debt ratio.

    Conventions of the embedding.
    - A pandas cell is [option Qc]: [None] is NaN (missing), [Some q] a
      number.  Numbers are exact rationals; float64 rounding and overflow
      are not modelled.
    - A Series is a list of cells, a DataFrame a row count together with a
      finite map from column names to Series.
    - Python exceptions and [exit()] are the [Raise] results of a small
      error monad. *)

From Stdlib Require Import Ascii String QArith Qcanon Lqa.
From stdpp Require Import base numbers gmap strings list sorting.

Local Open Scope string_scope.
Local Open Scope list_scope.

(** ** Cells, series, data frames *)

Abbreviation cell := (option Qc).
Abbreviation Series := (list (option Qc)).
Abbreviation NaN := (@None Qc).

Definition num (z : Z) : Qc := Qc_of_Z z.

Record DataFrame := mkDF {
  nrows : nat;
  columns : gmap string Series
}.

(** [col in hh_df] *)
Definition has_col (df : DataFrame) (c : string) : bool :=
  bool_decide (is_Some (columns df !! c)).

(** [hh_df[c] = series] (both share the frame's index) *)
Definition set_col (df : DataFrame) (c : string) (s : Series) : DataFrame :=
  mkDF (nrows df) (<[c := s]> (columns df)).

(** [hh_df[c] = scalar]: the scalar is broadcast along the index *)
Definition set_scalar (df : DataFrame) (c : string) (v : cell) : DataFrame :=
  set_col df c (replicate (nrows df) v).

(** Every column is as long as the index. *)
Definition df_wf (df : DataFrame) : Prop :=
  ∀ c s, columns df !! c = Some s → length s = nrows df.

(** ** Exceptions *)

Inductive exn := IndexError | KeyError | SystemExit.

Inductive result (A : Type) :=
  | Raise (e : exn)
  | Return (a : A).
Arguments Raise {A} e.
Arguments Return {A} a.

#[global] Instance result_ret : MRet result := λ A a, Return a.
#[global] Instance result_bind : MBind result := λ A B f m,
  match m with Raise e => Raise e | Return a => f a end.
#[global] Instance result_fmap : FMap result := λ A B f m,
  match m with Raise e => Raise e | Return a => Return (f a) end.

(** ** Strings, as Python indexes and splits them *)

Fixpoint str_contains (c : ascii) (s : string) : bool :=
  match s with
  | EmptyString => false
  | String d s' => if decide (c = d) then true else str_contains c s'
  end.

(** [s.split(c)[0]]: everything before the first [c] *)
Fixpoint split_head (c : ascii) (s : string) : string :=
  match s with
  | EmptyString => EmptyString
  | String d s' => if decide (c = d) then EmptyString else String d (split_head c s')
  end.

(** [s[i]], negative [i] counting from the end *)
Definition str_index (s : string) (i : Z) : result ascii :=
  let n := Z.of_nat (String.length s) in
  let j := if decide (i < 0)%Z then (i + n)%Z else i in
  if decide (0 ≤ j < n)%Z then
    match String.get (Z.to_nat j) s with
    | Some c => Return c
    | None => Raise IndexError
    end
  else Raise IndexError.

Definition underscore : ascii := "_"%char.

(** [var_name.split('_')[0] if '_' in var_name and var_name[-2]=='_' else var_name] *)
Definition base_var_name (var_name : string) : result string :=
  if str_contains underscore var_name then
    c ← str_index var_name (-2);
    mret (if decide (c = underscore) then split_head underscore var_name
          else var_name)
  else mret var_name.

(** ** The midpoint resolver *)

(** A bracket table is a Python dict literal with integer keys. *)
Abbreviation BracketTable := (list (Z * Qc)).

(** [m.get(code, np.nan)]: a float code finds the integer key equal to it *)
Fixpoint dict_get (m : BracketTable) (code : Qc) : cell :=
  match m with
  | [] => NaN
  | (k, v) :: m' => if decide (num k = code) then Some v else dict_get m' code
  end.

Definition brackets (l : list Z) : BracketTable :=
  imap (λ i v, (Z.of_nat (S i), num v)) l.

Definition map1 : BracketTable :=
  brackets [5000; 20000; 40000; 60000; 85000; 200000; 400000; 750000;
            3000000; 7500000; 15000000]%Z.
Definition vars_map1 : list string :=
  ["b2003ait"; "b2050it"; "b2059it"; "b2063it"; "b2080it"; "d3109it";
   "d3110it"; "d4103it"; "d5107it"; "d5108it"; "d6100ait"; "d8104it";
   "d9103it"; "d9110ait"; "k2102cit"; "c3019ait"].

Definition map2 : BracketTable := map1.
Definition vars_map2 : list string := ["b2003bit"; "b2052it"].

Definition map3 : BracketTable :=
  brackets [5000; 15000; 35000; 75000; 150000; 250000; 400000; 750000;
            1500000; 3500000; 7500000]%Z.
Definition vars_map3 : list string :=
  ["b2003eit"; "b2055it"; "a3136it"; "d3117it"; "b2046it"; "b3004bit";
   "b3005bit"; "b3005it"; "b3006ait"; "b3030dit"; "b3030eit"; "b3031ait";
   "b3045cit"; "b3056ait"; "c3017cait"; "c3019cit"; "c3019eit"; "c7052bit";
   "c7060it"; "c7061it"; "c7062it"; "c8007it"; "d1105it"; "d2104it";
   "d3103it"; "d7106hit"; "d7110ait"; "e1006it"; "e1022it"; "e3003cit";
   "e4003it"; "h2004it"; "c2035ait"].

Definition map4 : BracketTable :=
  brackets [2500; 7500; 15000; 35000; 75000; 125000; 175000; 250000;
            400000; 750000; 1500000]%Z.
Definition vars_map4 : list string :=
  ["b2093it"; "a3136ait"; "a3136bit"; "a3137it"; "b2110it"; "d5109it";
   "d7106jit"; "d7112it"; "d9105it"; "d9108it"; "d9110bit"; "k1101it";
   "k2208it"; "f1010it"; "f1031it"].

Definition map5 : BracketTable :=
  brackets [500; 1500; 3500; 7500; 15000; 35000; 75000; 150000]%Z.
Definition vars_map5 : list string := ["b3008fit"].

(** square metres; two of the midpoints are half-integers *)
Definition map6 : BracketTable :=
  [(1, num 25); (2, Q2Qc (121 # 2)); (3, Q2Qc (161 # 2));
   (4, Q2Qc (191 # 2)); (5, Q2Qc (221 # 2)); (6, num 132); (7, num 172);
   (8, num 300)]%Z.
Definition vars_map6 : list string := ["c1000bbit"].

Definition map7 : BracketTable :=
  brackets [50000; 200000; 400000; 600000; 850000; 1250000; 2250000;
            4000000; 6000000; 8500000; 12500000; 17500000; 30000000]%Z.
Definition vars_map7 : list string := ["c1000bdit"].

Definition map8 : BracketTable :=
  brackets [5000; 15000; 35000; 75000; 150000; 250000; 400000; 750000;
            1500000; 3500000; 6000000; 8500000; 12500000; 17500000;
            30000000]%Z.
Definition vars_map8 : list string := ["c2000fit"].

Definition map9 : BracketTable :=
  brackets [5000; 20000; 40000; 60000; 85000; 200000; 400000; 750000;
            3000000; 7500000; 12500000; 17500000; 30000000]%Z.
Definition vars_map9 : list string := ["c2013it"; "c2016it"].

Definition map10 : BracketTable :=
  brackets [50000; 150000; 350000; 650000; 900000; 1250000; 1750000;
            3500000; 6500000; 9000000; 15000000]%Z.
Definition vars_map10 : list string := ["c2027dit"; "c2032it"; "c2064it"].

Definition map11 : BracketTable :=
  brackets [500; 2000; 4000; 6500; 9000; 12500; 17500; 25000; 40000;
            75000]%Z.
Definition vars_map11 : list string := ["c2045it"].

Definition map12 : BracketTable :=
  brackets [25000; 75000; 150000; 250000; 400000; 650000; 900000; 1250000;
            1750000; 3500000; 7500000]%Z.
Definition vars_map12 : list string := ["c3002it"; "c3002ait"].

Definition map13 : BracketTable :=
  brackets [5000; 15000; 35000; 75000; 150000; 250000; 400000; 750000;
            1500000; 3500000; 7500000]%Z.
Definition vars_map13 : list string :=
  ["c3024it"; "c3025it"; "d4111it"; "d6116it"].

Definition map14 : BracketTable :=
  brackets [1000; 3500; 7500; 15000; 35000; 75000; 125000; 175000; 250000;
            400000; 750000]%Z.
Definition vars_map14 : list string :=
  ["c8002ait"; "g1017it"; "g1018it"; "g1019it"; "g1019ait"; "g1020it";
   "c8005ait"; "f2006it"; "f4011it"].

Definition map15 : BracketTable :=
  brackets [10000; 35000; 75000; 150000; 350000; 750000; 1500000; 3500000;
            7500000; 15000000; 30000000]%Z.
Definition vars_map15 : list string := ["d8106it"].

Definition map16 : BracketTable :=
  brackets [5000; 15000; 35000; 75000; 150000; 250000; 400000; 750000;
            1500000; 3500000; 7500000]%Z.
Definition vars_map16 : list string := ["e3005cit"].

Definition map17 : BracketTable :=
  brackets [25; 75; 125; 225; 400; 650; 1150; 2250; 4000; 7500; 15000;
            25000; 40000; 75000]%Z.
Definition vars_map17 : list string := ["f1005it"].

(** option 4 is not in the table *)
Definition map18 : BracketTable :=
  [(1, num 100); (2, num 250); (3, num 400);
   (5, num 750); (6, num 1500); (7, num 2500); (8, num 4000);
   (9, num 6500); (10, num 11500); (11, num 17500); (12, num 30000)]%Z.
Definition vars_map18 : list string := ["f4005it"].

(** option 4 is not in the table *)
Definition map19 : BracketTable :=
  [(1, num 500); (2, num 2000); (3, num 4000);
   (5, num 7500); (6, num 15000); (7, num 35000); (8, num 75000);
   (9, num 125000); (10, num 175000); (11, num 250000); (12, num 400000);
   (13, num 750000); (14, num 1500000)]%Z.
Definition vars_map19 : list string := ["f4008it"].

Definition map20 : BracketTable :=
  brackets [250; 750; 1500; 3500; 7500; 15000; 30000]%Z.
Definition vars_map20 : list string := ["h3351it"].

Definition map21 : BracketTable :=
  brackets [250; 750; 2000; 4000; 7500; 15000; 35000; 75000]%Z.
Definition vars_map21 : list string := ["h3354it"; "h3356it"].

Definition map22 : BracketTable :=
  brackets [50; 300; 750; 3000; 7500; 30000; 75000]%Z.
Definition vars_map22 : list string := ["h3367it"; "h3368it"; "h3369it"].

Definition map23 : BracketTable :=
  brackets [150; 450; 800; 1250; 2250; 4500; 8000; 15000; 35000; 75000;
            150000]%Z.
Definition vars_map23 : list string := ["g1024it"].

(** The chain of [if base_var_name in vars_mapN: return mapN.get(...)],
    in the order the source tests them. *)
Definition mapping_chain : list (list string * BracketTable) :=
  [(vars_map1, map1); (vars_map2, map2); (vars_map3, map3);
   (vars_map4, map4); (vars_map5, map5); (vars_map6, map6);
   (vars_map7, map7); (vars_map8, map8); (vars_map9, map9);
   (vars_map10, map10); (vars_map11, map11); (vars_map12, map12);
   (vars_map13, map13); (vars_map14, map14); (vars_map15, map15);
   (vars_map16, map16); (vars_map17, map17); (vars_map18, map18);
   (vars_map19, map19); (vars_map20, map20); (vars_map21, map21);
   (vars_map22, map22); (vars_map23, map23)].

(** The table the first successful membership test selects, if any. *)
Fixpoint bound_table (chain : list (list string * BracketTable))
    (base : string) : option BracketTable :=
  match chain with
  | [] => None
  | (vars, m) :: rest =>
      if bool_decide (base ∈ vars) then Some m else bound_table rest base
  end.

Definition get_midpoint (interval_code : cell) (var_name : string)
    : result cell :=
  match interval_code with
  | None => mret NaN
  | Some code =>
      base ← base_var_name var_name;
      mret (match bound_table mapping_chain base with
            | Some m => dict_get m code
            | None => NaN
            end)
  end.

(** ** The catalog of debt and asset fields *)

(** [f'{prefix}{i}'] for a one-digit [i] *)
Definition digit (i : nat) : string :=
  String (ascii_of_nat (48 + i)) EmptyString.

(** [[f'{prefix}{i}' for i in range(lo, hi)]] *)
Definition numbered (prefix : string) (lo hi : nat) : list string :=
  (λ i, prefix +:+ digit i) <$> seq lo (hi - lo).

Definition debt_bus_bank := ["b3005b_2"].
Definition debt_bus_private := ["b3031a_2"].
Definition debt_bus_private_it := ["b3031ait_2"].
Definition debt_house_bank := numbered "c2064_" 1 7.
Definition debt_house_bank_it := numbered "c2064it_" 1 7.
Definition debt_house_other := numbered "c3002a_" 1 7.
Definition debt_house_other_it := numbered "c3002ait_" 1 7.
Definition debt_house_agg_other := ["c2023e"].
Definition debt_house_agg_other_it := ["c2023eit"].
Definition debt_house_collateral := ["c3017ca"].
Definition debt_house_collateral_it := ["c3017cait"].
Definition debt_shop_bank := ["c3019c"].
Definition debt_shop_bank_it := ["c3019cit"].
Definition debt_shop_other := ["c3019e"].
Definition debt_shop_other_it := ["c3019eit"].
Definition debt_car := ["c7060"].
Definition debt_car_it := ["c7060it"].
Definition debt_vehicle_other := ["c7061"].
Definition debt_vehicle_other_it := ["c7061it"].
Definition debt_durable := ["c8007"].
Definition debt_durable_it := ["c8007it"].
Definition debt_stock := ["d3116b"].
Definition debt_finance_other := ["d9108"].
Definition debt_finance_other_it := ["d9108it"].
Definition debt_edu_bank := ["e1006"].
Definition debt_edu_bank_it := ["e1006it"].
Definition debt_edu_private := ["e1022"].
Definition debt_edu_private_it := ["e1022it"].
Definition debt_medical := ["e4003"].
Definition debt_medical_it := ["e4003it"].
Definition debt_other := ["e3003c"].
Definition debt_other_it := ["e3003cit"].

Definition all_debt_exact_vars : list string :=
  debt_bus_bank ++ debt_bus_private ++ debt_house_bank ++ debt_house_other
  ++ debt_house_agg_other ++ debt_house_collateral ++ debt_shop_bank
  ++ debt_shop_other ++ debt_car ++ debt_vehicle_other ++ debt_durable
  ++ debt_stock ++ debt_finance_other ++ debt_edu_bank ++ debt_edu_private
  ++ debt_medical ++ debt_other.

Definition all_debt_interval_vars : list string :=
  debt_bus_private_it ++ debt_house_bank_it ++ debt_house_other_it
  ++ debt_house_agg_other_it ++ debt_house_collateral_it
  ++ debt_shop_bank_it ++ debt_shop_other_it ++ debt_car_it
  ++ debt_vehicle_other_it ++ debt_durable_it ++ debt_finance_other_it
  ++ debt_edu_bank_it ++ debt_edu_private_it ++ debt_medical_it
  ++ debt_other_it.

Definition asset_bus := ["b2003d"].
Definition asset_bus_it := ["b2003dit"].
Definition asset_house := numbered "c2016_" 1 7.
Definition asset_house_it := numbered "c2016it_" 1 7.
Definition asset_house_agg_other := ["c2023d"].
Definition asset_house_agg_other_it := ["c2023dit"].
Definition asset_shop := ["c3019a"].
Definition asset_shop_it := ["c3019ait"].
Definition asset_car := ["c7052b"].
Definition asset_car_it := ["c7052bit"].
Definition asset_vehicle_comm := ["c7059"].
Definition asset_vehicle_other := ["c7058"].
Definition vehicle_in_business_col := "c7062".
Definition vehicle_in_business_col_it := "c7062it".
Definition asset_durable := ["c8002"].
Definition asset_other_nonfin := ["c8005"].
Definition asset_deposit_checking := ["d1105"].
Definition asset_deposit_checking_it := ["d1105it"].
Definition asset_deposit_savings := ["d2104"].
Definition asset_deposit_savings_it := ["d2104it"].
Definition asset_stock_cash := ["d3103"].
Definition asset_stock_cash_it := ["d3103it"].
Definition asset_stock_value := ["d3109"].
Definition asset_stock_value_it := ["d3109it"].
Definition asset_stock_nonpublic := ["d3116"].
Definition asset_stock_nonpublic_it := ["d3116it"].
Definition asset_fund := ["d5107"].
Definition asset_fund_it := ["d5107it"].
Definition asset_internet_finance := ["d7106h"].
Definition asset_internet_finance_it := ["d7106hit"].
Definition asset_other_finance_prod := ["d7110a"].
Definition asset_other_finance_prod_it := ["d7110ait"].
Definition asset_bond := numbered "d4103_" 1 6.
Definition asset_bond_it := numbered "d4103it_" 1 6.
Definition asset_derivative := ["d6100a"].
Definition asset_derivative_it := ["d6100ait"].
Definition asset_non_rmb := ["d8104"].
Definition asset_non_rmb_it := ["d8104it"].
Definition asset_gold := ["d9103"].
Definition asset_gold_it := ["d9103it"].
Definition asset_other_fin := ["d9110a"].
Definition asset_other_fin_it := ["d9110ait"].
Definition asset_cash := ["k1101"].
Definition asset_cash_it := ["k1101it"].
Definition asset_receivable := ["k2102c"].
Definition asset_receivable_it := ["k2102cit"].

Definition all_asset_exact_vars : list string :=
  asset_bus ++ asset_house ++ asset_house_agg_other ++ asset_shop
  ++ asset_car ++ asset_vehicle_comm ++ asset_vehicle_other ++ asset_durable
  ++ asset_other_nonfin ++ asset_deposit_checking ++ asset_deposit_savings
  ++ asset_stock_cash ++ asset_stock_value ++ asset_stock_nonpublic
  ++ asset_fund ++ asset_internet_finance ++ asset_other_finance_prod
  ++ asset_bond ++ asset_derivative ++ asset_non_rmb ++ asset_gold
  ++ asset_other_fin ++ asset_cash ++ asset_receivable.

Definition all_asset_interval_vars : list string :=
  asset_bus_it ++ asset_house_it ++ asset_house_agg_other_it ++ asset_shop_it
  ++ asset_car_it ++ asset_deposit_checking_it ++ asset_deposit_savings_it
  ++ asset_stock_cash_it ++ asset_stock_value_it ++ asset_stock_nonpublic_it
  ++ asset_fund_it ++ asset_internet_finance_it
  ++ asset_other_finance_prod_it ++ asset_bond_it ++ asset_derivative_it
  ++ asset_non_rmb_it ++ asset_gold_it ++ asset_other_fin_it
  ++ asset_cash_it ++ asset_receivable_it.

(** ** Diagnostics printed along the way *)

Inductive report :=
  | HeadsIdentified (n : nat)
  | AgeFilterExcluded (removed_count : nat)
  | MissingColumnsCreated (missing_cols_count : nat)
  | WinsorizeSkipped.

(** ** Synthesis of the columns the source table lacks *)

Definition all_vars_needed : list string :=
  elements (list_to_set
    (all_debt_exact_vars ++ all_debt_interval_vars
     ++ all_asset_exact_vars ++ all_asset_interval_vars
     ++ [vehicle_in_business_col; vehicle_in_business_col_it]) : gset string).

Definition ensure_column (st : DataFrame * nat) (col : string)
    : DataFrame * nat :=
  let '(hh_df, missing_cols_count) := st in
  if has_col hh_df col then (hh_df, missing_cols_count)
  else (set_scalar hh_df col NaN, S missing_cols_count).

Definition ensure_columns (hh_df : DataFrame) : DataFrame * nat :=
  foldl ensure_column (hh_df, 0) all_vars_needed.

(** ** Coalescing of exact values and interval midpoints *)

(** [a.combine_first(b)] on two series over the same index *)
Definition combine_first (a b : Series) : Series :=
  zip_with (λ x y, match x with Some _ => x | None => y end) a b.

(** [series.apply(lambda x: get_midpoint(x, var_name=interval))] *)
Definition midpoints (interval : string) (codes : Series) : result Series :=
  mapM (λ x, get_midpoint x interval) codes.

(** [interval and interval in hh_df]: a name, not empty, that is a column *)
Definition interval_column (hh_df : DataFrame) (interval : option string)
    : option (string * Series) :=
  it ← interval;
  if decide (it = "") then None
  else codes ← columns hh_df !! it; Some (it, codes).

Definition val_name (exact : string) : string := exact +:+ "_val".

(** One round of the loop body; the second component is the list
    [coalesced_*_vars] being appended to. *)
Definition coalesce_one (st : DataFrame * list string)
    (pair : string * option string) : result (DataFrame * list string) :=
  let '(hh_df, coalesced) := st in
  let '(exact, interval) := pair in
  let val_col := val_name exact in
  match columns hh_df !! exact with
  | None => mret (set_scalar hh_df val_col NaN, coalesced)
  | Some exact_series =>
      match interval_column hh_df interval with
      | Some (it, codes) =>
          midpoint_col ← midpoints it codes;
          mret (set_col hh_df val_col (combine_first exact_series midpoint_col),
                coalesced ++ [val_col])
      | None => mret (set_col hh_df val_col exact_series, coalesced ++ [val_col])
      end
  end.

(** [exact = exact_vars[i]] and
    [interval = interval_vars[i] if i < len(interval_vars) else None],
    for [i in range(len(exact_vars))] *)
Definition paired_by_index (exact_vars interval_vars : list string)
    : list (string * option string) :=
  imap (λ i exact, (exact, interval_vars !! i)) exact_vars.

Fixpoint foldlM {A B} (f : A → B → result A) (a : A) (l : list B) : result A :=
  match l with
  | [] => mret a
  | x :: l' => a' ← f a x; foldlM f a' l'
  end.

Definition coalesce_loop (exact_vars interval_vars : list string)
    (hh_df : DataFrame) : result (DataFrame * list string) :=
  foldlM coalesce_one (hh_df, []) (paired_by_index exact_vars interval_vars).

(** The vehicle-in-business adjustment column *)
Definition vehicle_adj_val_col : string := val_name vehicle_in_business_col.

Definition coalesce_vehicle (hh_df : DataFrame) : result DataFrame :=
  match columns hh_df !! vehicle_in_business_col,
        columns hh_df !! vehicle_in_business_col_it with
  | Some exact_series, Some codes =>
      midpoint_veh_adj ← midpoints vehicle_in_business_col_it codes;
      mret (set_col hh_df vehicle_adj_val_col
              (combine_first exact_series midpoint_veh_adj))
  | Some exact_series, None => mret (set_col hh_df vehicle_adj_val_col exact_series)
  | None, _ => mret (set_scalar hh_df vehicle_adj_val_col (Some (num 0)))
  end.

(** ** Arithmetic on cells: NaN propagates, comparisons with NaN are false *)

Definition cell_add (a b : cell) : cell := x ← a; y ← b; Some (x + y)%Qc.
Definition cell_sub (a b : cell) : cell := x ← a; y ← b; Some (x - y)%Qc.

(** Division of float series never raises.  A zero divisor gives an
    infinity or NaN in numpy; both are outside the numbers of this model
    and are rendered as missing (the aggregator never divides by zero, see
    [total_assets_eps_pos]). *)
Definition cell_div (a b : cell) : cell :=
  x ← a; y ← b; if decide (y = 0%Qc) then NaN else Some (x / y)%Qc.

Definition cell_is (P : Qc → Prop) `{∀ x, Decision (P x)} (c : cell) : bool :=
  match c with Some x => bool_decide (P x) | None => false end.

(** [series.fillna(v)] *)
Definition fillna (v : Qc) (s : Series) : Series :=
  (λ c, Some (default v c)) <$> s.

(** [hh_df[cols]] for names known to be columns *)
Definition select_columns (hh_df : DataFrame) (cols : list string)
    : list Series :=
  omap (λ c, columns hh_df !! c) cols.

(** [frame.sum(axis=1)]: one number per row of the index, NaN skipped *)
Definition sum_axis1 (n : nat) (cols : list Series) : Series :=
  (λ r, Some (foldr Qcplus 0%Qc ((λ s, default 0%Qc (mjoin (s !! r))) <$> cols)))
    <$> seq 0 n.

(** Python's [max(x, 0)]: [0] only if [0 > x] *)
Definition max_with_0 (c : cell) : cell :=
  match c with
  | Some x => if decide (x < 0)%Qc then Some 0%Qc else Some x
  | None => NaN
  end.

(** [series.loc[mask] = v] *)
Definition loc_assign (mask : list bool) (v : cell) (s : Series) : Series :=
  zip_with (λ (m : bool) x, if m then v else x) mask s.

Definition epsilon : Qc := Q2Qc (1 # 1000000000).

(** ** Winsorisation *)

(** [series.dropna()]: the surviving labels with their values *)
Fixpoint dropna_from (i : nat) (s : Series) : list (nat * Qc) :=
  match s with
  | [] => []
  | Some v :: s' => (i, v) :: dropna_from (S i) s'
  | None :: s' => dropna_from (S i) s'
  end.
Definition dropna (s : Series) : list (nat * Qc) := dropna_from 0 s.

(** Assigning a labelled series to a column of a frame with index
    [0 .. n-1]: labels without a value become NaN. *)
Definition reindex (n : nat) (labelled : list (nat * Qc)) : Series :=
  (λ r, (list_to_map labelled : gmap nat Qc) !! r) <$> seq 0 n.

Definition clip (lo hi x : Qc) : Qc :=
  if decide (x < lo)%Qc then lo else if decide (hi < x)%Qc then hi else x.

(** [scipy.stats.mstats.winsorize(a, limits=[0.01, 0.01])] on an array
    without masked entries: with [n] the number of entries, the
    [int(0.01 * n)] smallest are set to the next smallest entry and the
    [int(0.01 * n)] largest to the next largest one.  On values this clips
    every entry to these two order statistics.  [int(0.01 * n)] is
    [n / 100] rounded down. *)
Definition winsorize (a : list Qc) : list Qc :=
  let n := length a in
  let sorted := merge_sort Qcle a in
  let lowidx := (n / 100)%nat in
  let upidx := (n - n / 100)%nat in
  match sorted !! lowidx, sorted !! (upidx - 1)%nat with
  | Some lo, Some hi => clip lo hi <$> a
  | _, _ => a
  end.

(** Lines 370-377: the cleaned column, winsorised and put back by label.
    [replace([inf, -inf], nan)] changes nothing on cells of this model. *)
Definition winsorized_column (n : nat) (debt_ratio : Series)
    : Series * list report :=
  let debt_ratio_clean := dropna debt_ratio in
  match debt_ratio_clean with
  | [] => (replicate n NaN, [WinsorizeSkipped])
  | _ :: _ =>
      let winsorized_values := winsorize debt_ratio_clean.*2 in
      (reindex n (zip debt_ratio_clean.*1 winsorized_values), [])
  end.

(** ** The household aggregator (lines 349-377) *)

Definition debt_ratio_column (total_debt total_assets : Series) : Series :=
  let debt_ratio :=
    zip_with cell_div total_debt
      ((λ a, cell_add a (Some epsilon)) <$> total_assets) in
  let debt_ratio :=
    loc_assign
      (zip_with (λ d a, cell_is (λ x, x = 0%Qc) d && cell_is (λ x, x = 0%Qc) a)
         total_debt total_assets)
      (Some 0%Qc) debt_ratio in
  loc_assign
    (zip_with (λ d a, cell_is (λ x, 0 < x)%Qc d && cell_is (λ x, x = 0%Qc) a)
       total_debt total_assets)
    NaN debt_ratio.

Definition total_assets_column (hh_df : DataFrame) (total_assets_raw : Series)
    : Series :=
  let total_assets :=
    match columns hh_df !! vehicle_adj_val_col with
    | Some adj => zip_with cell_sub total_assets_raw (fillna 0%Qc adj)
    | None => (λ x, cell_sub x (Some 0%Qc)) <$> total_assets_raw
    end in
  max_with_0 <$> total_assets.

Definition aggregate (hh_df : DataFrame)
    (coalesced_debt_vars coalesced_asset_vars : list string)
    : DataFrame * list report :=
  let valid_coalesced_debt_vars := filter (λ c, has_col hh_df c) coalesced_debt_vars in
  let valid_coalesced_asset_vars := filter (λ c, has_col hh_df c) coalesced_asset_vars in
  let total_debt :=
    sum_axis1 (nrows hh_df)
      (fillna 0%Qc <$> select_columns hh_df valid_coalesced_debt_vars) in
  let hh_df := set_col hh_df "total_debt" total_debt in
  let total_assets_raw :=
    sum_axis1 (nrows hh_df)
      (fillna 0%Qc <$> select_columns hh_df valid_coalesced_asset_vars) in
  let hh_df := set_col hh_df "total_assets_raw" total_assets_raw in
  let total_assets := total_assets_column hh_df total_assets_raw in
  let hh_df := set_col hh_df "total_assets" total_assets in
  let debt_ratio := debt_ratio_column total_debt total_assets in
  let hh_df := set_col hh_df "debt_ratio" debt_ratio in
  match winsorized_column (nrows hh_df) debt_ratio
        return DataFrame * list report with
  | (winsorized, log) => (set_col hh_df "debt_ratio_winsorized" winsorized, log)
  end.

(** Lines 288-377, from the merged household table to the aggregated one *)
Definition process_household (hh_df : DataFrame)
    : result (DataFrame * list report) :=
  match ensure_columns hh_df return result (DataFrame * list report) with
  | (hh_df, missing_cols_count) =>
      let log :=
        if decide (0 < missing_cols_count)%nat
        then [MissingColumnsCreated missing_cols_count] else [] in
      '(hh_df, coalesced_debt_vars) ←
        coalesce_loop all_debt_exact_vars all_debt_interval_vars hh_df;
      '(hh_df, coalesced_asset_vars) ←
        coalesce_loop all_asset_exact_vars all_asset_interval_vars hh_df;
      hh_df ← coalesce_vehicle hh_df;
      match aggregate hh_df coalesced_debt_vars coalesced_asset_vars
            return result (DataFrame * list report) with
      | (hh_df, log') => mret (hh_df, log ++ log')
      end
  end.

(** ** The head-proxy extractor (lines 44-71) *)

(** [series[mask]] *)
Fixpoint boolean_index {A} (mask : list bool) (s : list A) : list A :=
  match mask, s with
  | m :: mask', x :: s' =>
      if m then x :: boolean_index mask' s' else boolean_index mask' s'
  | _, _ => []
  end.

(** [df[mask]]: the rows whose mask entry is true, in every column *)
Definition filter_rows (mask : list bool) (df : DataFrame) : DataFrame :=
  mkDF (length (boolean_index mask (seq 0 (nrows df))))
       (boolean_index mask <$> columns df).

Definition head_relation_var : string := "a2001".

(** [np.where(head_age <= 40, head_siblings_raw, np.nan)] *)
Definition siblings_if_asked (head_age head_siblings_raw : Series) : Series :=
  zip_with (λ age raw, if cell_is (λ a, a ≤ num 40)%Qc age then raw else NaN)
    head_age head_siblings_raw.

Definition default_zero_column (heads_df : DataFrame) (c : string) : DataFrame :=
  if has_col heads_df c then heads_df else set_scalar heads_df c (Some (num 0)).

Definition extract_heads (ind_df : DataFrame) : result (DataFrame * list report) :=
  match columns ind_df !! head_relation_var with
  | None => Raise SystemExit
  | Some relation =>
      let heads_df :=
        filter_rows (cell_is (λ x, x = num 1) <$> relation) ind_df in
      let log := [HeadsIdentified (nrows heads_df)] in
      match columns heads_df !! "a2005" with
      | None => Raise SystemExit
      | Some birth_year =>
          let head_age := (λ b, cell_sub (Some (num 2017)) b) <$> birth_year in
          let heads_df := set_col heads_df "head_age" head_age in
          let initial_head_count := nrows heads_df in
          let heads_df :=
            filter_rows (cell_is (λ a, num 16 ≤ a)%Qc <$> head_age) heads_df in
          let removed_count := (initial_head_count - nrows heads_df)%nat in
          let log :=
            log ++ (if decide (0 < removed_count)%nat
                    then [AgeFilterExcluded removed_count] else []) in
          let heads_df := default_zero_column heads_df "a2028" in
          let heads_df := default_zero_column heads_df "a2029" in
          match columns heads_df !! "a2028", columns heads_df !! "a2029",
                columns heads_df !! "head_age" with
          | Some brothers, Some sisters, Some head_age =>
              let head_siblings_raw :=
                zip_with cell_add (fillna (num 0) brothers) (fillna (num 0) sisters) in
              let heads_df := set_col heads_df "head_siblings_raw" head_siblings_raw in
              let head_siblings := siblings_if_asked head_age head_siblings_raw in
              mret (set_col heads_df "head_siblings" head_siblings, log)
          | _, _, _ => Raise KeyError
          end
      end
  end.

(** * Vocabulary of the statements, and example tables *)

(** The three situations in which a code cannot be resolved. *)
Inductive unresolvable : cell → string → Prop :=
  | code_missing var_name :
      unresolvable NaN var_name
  | field_unbound code var_name base :
      base_var_name var_name = Return base →
      bound_table mapping_chain base = None →
      unresolvable (Some code) var_name
  | code_not_in_table code var_name base table :
      base_var_name var_name = Return base →
      bound_table mapping_chain base = Some table →
      (∀ k v, (k, v) ∈ table → num k ≠ code) →
      unresolvable (Some code) var_name.

(** The ages (2017 minus birth year) of the individuals with relationship
    code 1, before the age filter. *)
Definition candidate_ages (relation birth_year : Series) : Series :=
  (λ b, cell_sub (Some (num 2017)) b)
    <$> boolean_index (cell_is (λ x, x = num 1) <$> relation) birth_year.

Definition old_enough (age : cell) : bool := cell_is (λ a, num 16 ≤ a)%Qc age.

Definition ind_example : DataFrame :=
  mkDF 4 (list_to_map
    [("a2001", [Some (num 1); Some (num 1); Some (num 2); Some (num 1)]);
     ("a2005", [Some (num 2010); Some (num 1985); Some (num 1960);
                Some (num 1950)]);
     ("a2028", [NaN; Some (num 2); Some (num 1); Some (num 3)])]).

(** A code looked up in the table bound to a normalised field name. *)
Definition lookup_midpoint (base : string) (c : cell) : cell :=
  code ← c; table ← bound_table mapping_chain base; dict_get table code.

(** The column one round of the loop writes. *)
Definition coalesced_column (hh_df : DataFrame) (pair : string * option string)
    : result Series :=
  match columns hh_df !! pair.1 with
  | None => mret (replicate (nrows hh_df) NaN)
  | Some exact_series =>
      match interval_column hh_df pair.2 with
      | Some (it, codes) =>
          midpoint_col ← midpoints it codes;
          mret (combine_first exact_series midpoint_col)
      | None => mret exact_series
      end
  end.

(** The names a round reads. *)
Definition reads (pair : string * option string) : list string :=
  pair.1 :: match pair.2 with Some it => [it] | None => [] end.

Definition absent (hh_df : DataFrame) (c : string) : Prop :=
  columns hh_df !! c = None.

#[global] Instance absent_dec hh_df c : Decision (absent hh_df c).
Proof. unfold absent. apply _. Defined.

(** The names of the catalog, before the conversion to a set *)
Definition catalog_names : list string :=
  all_debt_exact_vars ++ all_debt_interval_vars
  ++ all_asset_exact_vars ++ all_asset_interval_vars
  ++ [vehicle_in_business_col; vehicle_in_business_col_it].

Definition debt_pairs : list (string * option string) :=
  paired_by_index all_debt_exact_vars all_debt_interval_vars.
Definition asset_pairs : list (string * option string) :=
  paired_by_index all_asset_exact_vars all_asset_interval_vars.

Definition aggregate_names : list string :=
  ["total_debt"; "total_assets_raw"; "total_assets"; "debt_ratio";
   "debt_ratio_winsorized"].

(** Every column the household pipeline writes after the synthesis *)
Definition written_names : list string :=
  (val_name <$> debt_pairs.*1) ++ (val_name <$> asset_pairs.*1)
  ++ [vehicle_adj_val_col] ++ aggregate_names.

Definition well_named (it : string) : bool :=
  match base_var_name it with Return _ => true | Raise _ => false end.

(** The cell of column [c] at row [r]; NaN when there is none. *)
Definition cell_at (df : DataFrame) (c : string) (r : nat) : cell :=
  s ← columns df !! c; mjoin (s !! r).

(** The sum over the named columns at row [r], a missing cell counting 0 *)
Definition row_sum (df : DataFrame) (names : list string) (r : nat) : Qc :=
  foldr Qcplus 0%Qc ((λ c, default 0%Qc (cell_at df c r)) <$> names).

Definition floor_at_0 (x : Qc) : Qc := if decide (x < 0)%Qc then 0%Qc else x.

(** The three cases of the debt ratio, for a known debt [d] and known
    assets [a]. *)
Definition debt_ratio_of (d a : Qc) : cell :=
  if decide (d = 0 ∧ a = 0)%Qc then Some 0%Qc
  else if decide (0 < d ∧ a = 0)%Qc then NaN
  else Some (d / (a + epsilon))%Qc.

Definition coalesced_debt_names : list string := val_name <$> all_debt_exact_vars.
Definition coalesced_asset_names : list string := val_name <$> all_asset_exact_vars.

Definition hh_example : DataFrame :=
  mkDF 3 (list_to_map
    [("c7060", [Some (num 1000); Some (num 500); NaN]);
     ("c7060it", [Some (num 3); NaN; NaN]);
     ("c7061it", [Some (num 2); NaN; NaN]);
     ("c8007it", [Some (num 1); NaN; NaN]);
     ("c7052b", [Some (num 20000); NaN; NaN])]).

(** The statement that an absent exact field leaves its coalesced column
    entirely missing. *)
Definition absent_exact_gives_missing_column : Prop :=
  ∀ hh_df exact,
    df_wf hh_df →
    exact ∈ all_debt_exact_vars ++ all_asset_exact_vars →
    columns hh_df !! exact = None →
    ∃ out log (coalesced : Series),
      process_household hh_df = Return (out, log)
      ∧ columns out !! val_name exact = Some coalesced
      ∧ ∀ r c, coalesced !! r = Some c → c = NaN.

(** A table without the exact car-value field [c7052b] but with its
    interval field [c7052bit] *)
Definition hh_without_exact : DataFrame :=
  mkDF 1 (list_to_map [("c7052bit", [Some (num 1)])]).

(** A column of the pipeline's output, if the pipeline returns *)
Definition output_column (hh_df : DataFrame) (c : string) : option Series :=
  match process_household hh_df return option Series with
  | Return (out, _) => columns out !! c
  | Raise _ => None
  end.

Definition output_log (hh_df : DataFrame) : option (list report) :=
  match process_household hh_df return option (list report) with
  | Return (_, log) => Some log
  | Raise _ => None
  end.

(** A household whose business bank loan [b3005b_2], stock debt [d3116b]
    and commercial vehicle value [c7059] are missing; these have no
    interval fields.  It answered three unrelated bracket questions. *)
Definition hh_unpaired : DataFrame :=
  mkDF 1 (list_to_map
    [("b3005b_2", [NaN]); ("d3116b", [NaN]); ("c7059", [NaN]);
     ("b3031a_2", [NaN]);
     ("b3031ait_2", [Some (num 1)]); ("e1006it", [Some (num 1)]);
     ("d1105it", [Some (num 1)])]).

(** No exact debt field of the source holds a negative amount. *)
Definition no_negative_debt (hh_df : DataFrame) : Prop :=
  ∀ exact s, exact ∈ all_debt_exact_vars → columns hh_df !! exact = Some s →
    Forall (λ c : cell, from_option (λ v, (0 ≤ v)%Qc) True c) s.

(** The rows of a column of the individual table that belong to retained
    head proxies: relationship code 1, then age at least 16. *)
Definition retained_rows {A} (relation birth_year : Series) (s : list A) : list A :=
  boolean_index (old_enough <$> candidate_ages relation birth_year)
    (boolean_index (cell_is (λ x, x = num 1) <$> relation) s).

(** The columns the extractor computes itself *)
Definition head_computed_names : list string :=
  ["head_age"; "head_siblings_raw"; "head_siblings"].

(** * The rest of the preparation *)

(** ** Head attributes joined onto the household table (lines 73-94) *)

Definition head_control_cols_map : list (string * string) :=
  [("hhid", "hhid"); ("head_age", "head_age"); ("a2003", "head_sex");
   ("a2012", "head_educ"); ("a2024", "head_marital");
   ("a2025b", "head_health"); ("head_siblings", "head_siblings")].

(** [df[cols_to_select].rename(columns=cols_map)], with [cols_to_select]
    the keys of the map that are columns of [df] *)
Definition select_rename (cols_map : list (string * string)) (df : DataFrame)
    : DataFrame :=
  mkDF (nrows df)
    (list_to_map
       (omap (λ '(old, new), pair new <$> columns df !! old) cols_map)).

(** [~keys.duplicated(keep='first')]: a row is kept when its key was not
    seen in an earlier row; missing keys count as equal to each other *)
Fixpoint first_occurrence (seen : list cell) (keys : Series) : list bool :=
  match keys with
  | [] => []
  | k :: keys' => bool_decide (k ∉ seen) :: first_occurrence (k :: seen) keys'
  end.

(** [df.drop_duplicates(subset=[subset], keep='first')] *)
Definition drop_duplicates (subset : string) (df : DataFrame) : result DataFrame :=
  match columns df !! subset with
  | None => Raise KeyError
  | Some keys => mret (filter_rows (first_occurrence [] keys) df)
  end.

Definition head_info_to_merge (heads_df : DataFrame) : result DataFrame :=
  drop_duplicates "hhid" (select_rename head_control_cols_map heads_df).

(** The positions, from [j] on, of the right rows whose key is [k] *)
Fixpoint matching_rows (j : nat) (right_keys : Series) (k : cell) : list nat :=
  match right_keys with
  | [] => []
  | k' :: right_keys' =>
      if decide (k' = k) then j :: matching_rows (S j) right_keys' k
      else matching_rows (S j) right_keys' k
  end.

(** The rows of [pd.merge(left, right, on=key, how='left')]: every left
    row in order, once for each right row with the same key (missing keys
    match each other), or once with no right row. *)
Fixpoint left_join_rows (i : nat) (left_keys right_keys : Series)
    : list (nat * option nat) :=
  match left_keys with
  | [] => []
  | k :: left_keys' =>
      match matching_rows 0 right_keys k with
      | [] => [(i, None)]
      | js => (λ j, (i, Some j)) <$> js
      end ++ left_join_rows (S i) left_keys' right_keys
  end.

(** A column of the right frame in the merged frame *)
Definition take_right (rows : list (nat * option nat)) (s : Series) : Series :=
  (λ p, j ← p.2; mjoin (s !! j)) <$> rows.

(** A column of the left frame in the merged frame *)
Definition take_left (rows : list (nat * option nat)) (s : Series) : Series :=
  (λ p, mjoin (s !! p.1)) <$> rows.

(** [len(hh_df) != original_hh_rows] after the merge (lines 91-94) *)
Definition row_count_changed (hh_keys head_keys : Series) : bool :=
  bool_decide (length (left_join_rows 0 hh_keys head_keys) ≠ length hh_keys).

(** ** Control variables (lines 380-408) *)

Inductive control_warning :=
  | HeadSexMissing
  | HeadMaritalMissing
  | BusinessFlagMissing
  | HouseCountMissing
  | WinsorizedMissing.

(** [np.where(cond, 1, 0)], then [.loc[src.isna()] = np.nan] *)
Definition indicator (cond : cell → bool) (src : Series) : Series :=
  loc_assign ((λ c : cell, bool_decide (c = NaN)) <$> src) NaN
    ((λ c, Some (if cond c then num 1 else num 0)) <$> src).

Definition prepare_controls (hh_df : DataFrame)
    : DataFrame * list control_warning :=
  let '(hh_df, log) :=
    match columns hh_df !! "head_sex" return DataFrame * list control_warning with
    | Some head_sex =>
        (set_col hh_df "head_is_male"
           (indicator (cell_is (λ x, x = num 1)) head_sex), [])
    | None => (set_scalar hh_df "head_is_male" NaN, [HeadSexMissing])
    end in
  let '(hh_df, log) :=
    match columns hh_df !! "head_marital" return DataFrame * list control_warning with
    | Some head_marital =>
        (set_col hh_df "head_is_married"
           (indicator (cell_is (λ x, x ∈ [num 2; num 3; num 7])) head_marital),
         log)
    | None => (set_scalar hh_df "head_is_married" NaN, log ++ [HeadMaritalMissing])
    end in
  let '(hh_df, log) :=
    match columns hh_df !! "b2000b" return DataFrame * list control_warning with
    | Some b2000b =>
        (set_col hh_df "has_business"
           (indicator (cell_is (λ x, x = num 1)) b2000b), log)
    | None => (set_scalar hh_df "has_business" NaN, log ++ [BusinessFlagMissing])
    end in
  match columns hh_df !! "c2002" return DataFrame * list control_warning with
  | Some c2002 => (set_col hh_df "num_houses" (fillna (num 0) c2002), log)
  | None => (set_scalar hh_df "num_houses" (Some (num 0)), log ++ [HouseCountMissing])
  end.

(** ** Log transforms (lines 410-423) *)

(** [np.log] on a cell.  The logarithm of a positive float is a float,
    hence a rational: [ln] stands for it.  Of 0 and of a negative number
    numpy gives -inf and NaN, which are outside the numbers of this model
    and are rendered as missing. *)
Definition np_log (ln : Qc → Qc) (c : cell) : cell :=
  x ← c; if decide (0 < x)%Qc then Some (ln x) else NaN.

Definition small_constant_dv : Qc := Q2Qc (1 # 1000).

(** [series.where(series > 0)] *)
Definition where_positive (c : cell) : cell :=
  if cell_is (λ x, 0 < x)%Qc c then c else NaN.

Definition log_transforms (ln : Qc → Qc) (hh_df : DataFrame)
    : result (DataFrame * list control_warning) :=
  match columns hh_df !! "total_assets" with
  | None => Raise KeyError
  | Some total_assets =>
      let hh_df :=
        set_col hh_df "log_total_assets"
          (np_log ln <$> ((λ a, cell_add a (Some 1%Qc)) <$> total_assets)) in
      match columns hh_df !! "debt_ratio_winsorized" with
      | Some winsorized =>
          let log_input :=
            (λ c, cell_add c (Some small_constant_dv)) <$> winsorized in
          mret (set_col hh_df "log_debt_ratio_winsorized"
                  (np_log ln <$> (where_positive <$> log_input)), [])
      | None =>
          mret (set_scalar hh_df "log_debt_ratio_winsorized" NaN,
                [WinsorizedMissing])
      end
  end.

(** ** The analysis table and the regression samples (lines 425-492) *)

Definition core_vars : list string :=
  ["hhid"; "head_siblings"; "debt_ratio_winsorized";
   "log_debt_ratio_winsorized"; "total_debt"; "total_assets"].
Definition head_controls : list string :=
  ["head_age"; "head_is_male"; "head_educ"; "head_is_married"; "head_health"].
Definition hh_controls : list string :=
  ["has_business"; "num_houses"; "log_total_assets"].
Definition final_analysis_cols : list string :=
  core_vars ++ head_controls ++ hh_controls.

(** [df[[col for col in cols if col in df.columns]]] *)
Definition select_existing (cols : list string) (df : DataFrame) : DataFrame :=
  mkDF (nrows df)
    (list_to_map (omap (λ c, pair c <$> columns df !! c) cols)).

Definition final_df (hh_df : DataFrame) : DataFrame :=
  select_existing final_analysis_cols hh_df.

(** [series.isnull().sum()] *)
Definition isnull_sum (s : Series) : nat :=
  length (filter (λ c : cell, c = NaN) s).

(** For each row of the index: is every one of the columns present there *)
Definition complete_rows (n : nat) (cols : list Series) : list bool :=
  (λ r, forallb (λ s : Series, bool_decide (mjoin (s !! r) ≠ NaN)) cols)
    <$> seq 0 n.

(** [df.dropna(subset=[col for col in subset if col in df.columns])] *)
Definition dropna_subset (subset : list string) (df : DataFrame) : DataFrame :=
  filter_rows
    (complete_rows (nrows df)
       (select_columns df (filter (λ c, has_col df c) subset)))
    df.

Definition reg_independent_vars (final : DataFrame) : list string :=
  filter (λ v, has_col final v) (["head_siblings"] ++ head_controls ++ hh_controls).

Definition key_reg_vars_model1 (final : DataFrame) : list string :=
  ["debt_ratio_winsorized"] ++ reg_independent_vars final.

Definition key_reg_vars_model2 (final : DataFrame) : list string :=
  ["log_debt_ratio_winsorized"] ++ reg_independent_vars final.

Definition final_df_model1 (final : DataFrame) : DataFrame :=
  dropna_subset (key_reg_vars_model1 final) final.

(** [np.isfinite] keeps the cells that are numbers *)
Definition final_df_model2 (final : DataFrame) : DataFrame :=
  let model2 := dropna_subset (key_reg_vars_model2 final) final in
  match columns model2 !! "log_debt_ratio_winsorized" with
  | Some log_dv =>
      filter_rows ((λ c : cell, bool_decide (c ≠ NaN)) <$> log_dv) model2
  | None => model2
  end.

(** Heads of three persons in two households, and the household keys of a
    household table that also holds a household without a head. *)
Definition heads_example : DataFrame :=
  mkDF 3 (list_to_map
    [("hhid", [Some (num 101); Some (num 101); Some (num 102)]);
     ("head_age", [Some (num 40); Some (num 35); Some (num 60)]);
     ("a2003", [Some (num 1); Some (num 2); Some (num 2)]);
     ("a2001", [Some (num 1); Some (num 1); Some (num 1)]);
     ("head_siblings", [Some (num 2); Some (num 1); NaN])]).

Definition hh_keys_example : Series :=
  [Some (num 102); Some (num 103); Some (num 101)].

(** The columns the control-variable step writes, and for each indicator
    the column it reads and the codes that count as 1. *)
Definition control_names : list string :=
  ["head_is_male"; "head_is_married"; "has_business"; "num_houses"].

Definition indicator_sources : list (string * string * list Qc) :=
  [("head_sex", "head_is_male", [num 1]);
   ("head_marital", "head_is_married", [num 2; num 3; num 7]);
   ("b2000b", "has_business", [num 1])].

Definition control_sources : list (string * control_warning) :=
  [("head_sex", HeadSexMissing); ("head_marital", HeadMaritalMissing);
   ("b2000b", BusinessFlagMissing); ("c2002", HouseCountMissing)].

(** An indicator column, or the all-missing column when its source is absent *)
Definition indicator_or_missing (hh_df : DataFrame) (src : string)
    (cond : cell → bool) : Series :=
  match columns hh_df !! src with
  | Some s => indicator cond s
  | None => replicate (nrows hh_df) NaN
  end.

Definition hh_controls_example : DataFrame :=
  mkDF 3 (list_to_map
    [("head_sex", [Some (num 1); Some (num 2); NaN]);
     ("head_marital", [Some (num 2); Some (num 1); Some (num 7)]);
     ("c2002", [Some (num 2); NaN; Some (num 1)])]).

(** Lines 288-438 in sequence: from the merged household table to the
    table the regressions are run on.  [ln] is the natural logarithm on
    positive numbers. *)
Definition analysis_table (ln : Qc → Qc) (hh_df : DataFrame) : result DataFrame :=
  '(hh_df, _) ← process_household hh_df;
  match prepare_controls hh_df return result DataFrame with
  | (hh_df, _) =>
      '(hh_df, _) ← log_transforms ln hh_df;
      mret (final_df hh_df)
  end.

(** * Properties *)

(** ** The midpoint resolver *)

Example get_midpoint_slot :
  get_midpoint (Some (num 2)) "c2016it_3" = Return (Some (num 20000)).
Proof. vm_compute. reflexivity. Qed.

Example get_midpoint_gap :
  get_midpoint (Some (num 4)) "f4005it" = Return NaN.
Proof. vm_compute. reflexivity. Qed.

Example get_midpoint_short_name :
  get_midpoint (Some (num 1)) "_" = Raise IndexError.
Proof. vm_compute. reflexivity. Qed.

Lemma dict_get_absent (m : BracketTable) (code : Qc) :
  (∀ k v, (k, v) ∈ m → num k ≠ code) → dict_get m code = NaN.
Proof.
  induction m as [|[k v] m IH]; intros Habs; simpl; [done|].
  destruct (decide (num k = code)) as [Heq|_].
  - exfalso. by apply (Habs k v (list_elem_of_here _ _)).
  - apply IH. intros k' v' Hin. apply (Habs k' v'). by apply list_elem_of_further.
Qed.

Lemma dict_get_Some (m : BracketTable) (code v : Qc) :
  dict_get m code = Some v → ∃ k, (k, v) ∈ m ∧ num k = code.
Proof.
  induction m as [|[k w] m IH]; simpl; [done|].
  destruct (decide (num k = code)) as [Heq|_].
  - intros [= <-]. exists k. split; [apply list_elem_of_here | done].
  - intros Hget. destruct (IH Hget) as (k' & Hin & Hk'). exists k'.
    split; [by apply list_elem_of_further | done].
Qed.

(** C2: a missing code, a field whose normalised name has no bracket
    table, and a code that is not a key of the bound table (code 0, codes
    out of range, codes in gaps) all resolve to missing: [get_midpoint]
    returns NaN, hence neither 0 nor any bracket's value. *)
Theorem get_midpoint_unresolvable_is_missing (code : cell) (var_name : string) :
  unresolvable code var_name →
  get_midpoint code var_name = Return NaN
  ∧ ∀ v : Qc, get_midpoint code var_name ≠ Return (Some v).
Proof.
  intros Hun.
  assert (get_midpoint code var_name = Return NaN) as Hnan.
  { destruct Hun as [v | c v base Hbase Hnone | c v base table Hbase Htab Habs];
      unfold get_midpoint; [done | |].
    - rewrite Hbase. unfold mbind, result_bind. by rewrite Hnone.
    - rewrite Hbase. unfold mbind, result_bind. rewrite Htab.
      unfold mret, result_ret. f_equal. by apply dict_get_absent. }
  split; [done|]. intros v. rewrite Hnan. discriminate.
Qed.

Lemma get_midpoint_unresolvable_witness :
  unresolvable (Some (num 4)) "f4005it"
  ∧ get_midpoint (Some (num 4)) "f4005it" = Return NaN.
Proof.
  assert (unresolvable (Some (num 4)) "f4005it") as H.
  { apply (code_not_in_table _ _ "f4005it" map18); [reflexivity | reflexivity |].
    intros k v Hin Hk.
    assert (k = 4%Z) as ->.
    { apply (f_equal (λ q : Qc, Qnum (this q))) in Hk. simpl in Hk. exact Hk. }
    revert Hin. unfold map18. rewrite !elem_of_cons, elem_of_nil.
    intros Hin. repeat destruct Hin as [[=]|Hin]. done. }
  split; [exact H|]. exact (proj1 (get_midpoint_unresolvable_is_missing _ _ H)).
Defined.

(** Conversely, a value is returned only as the entry of the code itself
    in the table bound to the field: never another bracket's value. *)
Lemma get_midpoint_value_sound code var_name v :
  get_midpoint code var_name = Return (Some v) →
  ∃ c base table k,
    code = Some c
    ∧ base_var_name var_name = Return base
    ∧ bound_table mapping_chain base = Some table
    ∧ (k, v) ∈ table
    ∧ num k = c.
Proof.
  unfold get_midpoint. destruct code as [c|]; [|done].
  destruct (base_var_name var_name) as [|base]; [done|].
  unfold mbind, result_bind, mret, result_ret.
  destruct (bound_table mapping_chain base) as [table|] eqn:Htab; [|done].
  intros [= Hget]. destruct (dict_get_Some _ _ _ Hget) as (k & Hin & Hk).
  by exists c, base, table, k.
Qed.

(** ** Frames *)

Lemma df_wf_decidable (df : DataFrame) :
  bool_decide (map_Forall (λ _ (s : Series), length s = nrows df) (columns df)) →
  df_wf df.
Proof. intros H%bool_decide_unpack c s Hc. exact (H c s Hc). Qed.

Lemma set_col_wf df c s :
  df_wf df → length s = nrows df → df_wf (set_col df c s).
Proof.
  intros Hwf Hlen c' s'. unfold set_col; simpl. rewrite lookup_insert.
  case_decide; [by intros [= <-] | apply Hwf].
Qed.

Lemma set_scalar_wf df c v : df_wf df → df_wf (set_scalar df c v).
Proof. intros Hwf. apply set_col_wf; [done | apply length_replicate]. Qed.

(** ** Boolean indexing *)

Lemma boolean_index_filter {A} (P : A → bool) (l : list A) :
  boolean_index (P <$> l) l = filter (λ x, P x) l.
Proof.
  induction l as [|x l IH]; [done|]. csimpl. rewrite IH.
  destruct (P x) eqn:HP.
  - rewrite filter_cons_True; [done | by apply Is_true_true].
  - rewrite filter_cons_False; [done | by apply Is_true_false].
Qed.

Lemma length_boolean_index {A B} (mask : list bool) (l : list A) (k : list B) :
  length l = length k →
  length (boolean_index mask l) = length (boolean_index mask k).
Proof.
  revert l k. induction mask as [|m mask IH]; intros [|x l] [|y k]; simpl;
    try done.
  intros [= Hlen]. destruct m; simpl; auto.
Qed.

Lemma filter_rows_wf mask df : df_wf df → df_wf (filter_rows mask df).
Proof.
  intros Hwf c s. unfold filter_rows; simpl. rewrite lookup_fmap.
  destruct (columns df !! c) as [s0|] eqn:Hc; [|done]. intros [= <-].
  apply length_boolean_index. rewrite (Hwf c s0 Hc). by rewrite length_seq.
Qed.

Lemma default_zero_column_wf df c : df_wf df → df_wf (default_zero_column df c).
Proof.
  intros Hwf. unfold default_zero_column. destruct (has_col df c); [done|].
  by apply set_scalar_wf.
Qed.

Lemma default_zero_column_nrows df c : nrows (default_zero_column df c) = nrows df.
Proof. unfold default_zero_column. by destruct (has_col df c). Qed.

Lemma default_zero_column_other df c c' :
  c ≠ c' → columns (default_zero_column df c) !! c' = columns df !! c'.
Proof.
  intros Hne. unfold default_zero_column. destruct (has_col df c); [done|].
  unfold set_scalar, set_col; simpl. by rewrite lookup_insert_ne.
Qed.

Lemma default_zero_column_is_Some df c :
  is_Some (columns (default_zero_column df c) !! c).
Proof.
  unfold default_zero_column, has_col. case_bool_decide as H; [done|].
  unfold set_scalar, set_col; simpl. rewrite lookup_insert_eq. by eexists.
Qed.

(** ** The head-proxy extractor *)

(** What [extract_heads] returns on a well-formed table that has the two
    required columns. *)
Lemma extract_heads_spec ind_df relation birth_year :
  df_wf ind_df →
  columns ind_df !! "a2001" = Some relation →
  columns ind_df !! "a2005" = Some birth_year →
  let ages := filter (λ c, old_enough c) (candidate_ages relation birth_year) in
  let excluded :=
    length (filter (λ c, ¬ old_enough c) (candidate_ages relation birth_year)) in
  ∃ heads_df brothers sisters,
    extract_heads ind_df =
      Return (heads_df,
              [HeadsIdentified (length (candidate_ages relation birth_year))]
              ++ (if decide (0 < excluded)%nat
                  then [AgeFilterExcluded excluded] else []))
    ∧ df_wf heads_df
    ∧ nrows heads_df = length ages
    ∧ columns heads_df !! "head_age" = Some ages
    ∧ columns heads_df !! "a2028" = Some brothers
    ∧ columns heads_df !! "a2029" = Some sisters
    ∧ columns heads_df !! "head_siblings" =
        Some (siblings_if_asked ages
                (zip_with cell_add (fillna (num 0) brothers)
                   (fillna (num 0) sisters))).
Proof.
  intros Hwf Hrel Hbirth ages excluded.
  unfold extract_heads, head_relation_var. rewrite Hrel. cbv zeta.
  unfold candidate_ages in *.
  set (mask1 := cell_is (λ x, x = num 1) <$> relation) in *.
  set (h1 := filter_rows mask1 ind_df).
  assert (df_wf h1) as Hwf1 by by apply filter_rows_wf.
  assert (columns h1 !! "a2005" = Some (boolean_index mask1 birth_year)) as Hb1.
  { unfold h1, filter_rows; simpl. by rewrite lookup_fmap, Hbirth. }
  rewrite Hb1.
  set (all_ages := (λ b, cell_sub (Some (num 2017)) b) <$> boolean_index mask1 birth_year) in *.
  assert (length all_ages = nrows h1) as Hlen_all.
  { unfold all_ages. rewrite length_fmap. exact (Hwf1 _ _ Hb1). }
  set (h2 := set_col h1 "head_age" all_ages).
  assert (df_wf h2) as Hwf2 by by apply set_col_wf.
  set (mask2 := cell_is (λ a, num 16 ≤ a)%Qc <$> all_ages).
  set (h3 := filter_rows mask2 h2).
  assert (df_wf h3) as Hwf3 by by apply filter_rows_wf.
  assert (columns h3 !! "head_age" = Some ages) as Hage3.
  { unfold h3, filter_rows, h2, set_col; simpl.
    rewrite lookup_fmap, lookup_insert_eq. simpl. f_equal.
    apply (boolean_index_filter old_enough). }
  assert (nrows h3 = length ages) as Hn3.
  { symmetry. exact (Hwf3 _ _ Hage3). }
  set (h4 := default_zero_column h3 "a2028").
  set (h5 := default_zero_column h4 "a2029").
  assert (df_wf h5) as Hwf5 by by do 2 apply default_zero_column_wf.
  destruct (default_zero_column_is_Some h3 "a2028") as [brothers Hbro4].
  destruct (default_zero_column_is_Some h4 "a2029") as [sisters Hsis].
  fold h4 in Hbro4. fold h5 in Hsis.
  assert (columns h5 !! "a2028" = Some brothers) as Hbro.
  { unfold h5. by rewrite default_zero_column_other. }
  assert (columns h5 !! "head_age" = Some ages) as Hage5.
  { unfold h5, h4. by rewrite !default_zero_column_other. }
  assert (nrows h5 = length ages) as Hn5.
  { unfold h5, h4. by rewrite !default_zero_column_nrows. }
  rewrite Hbro, Hsis, Hage5.
  set (raw := zip_with cell_add (fillna (num 0) brothers) (fillna (num 0) sisters)).
  assert (length raw = nrows h5) as Hlen_raw.
  { unfold raw, fillna. rewrite length_zip_with, !length_fmap.
    rewrite (Hwf5 _ _ Hbro), (Hwf5 _ _ Hsis). lia. }
  eexists _, brothers, sisters.
  split; [|split; [|split; [|split; [|split; [|split]]]]].
  - unfold mret, result_ret.
    assert (nrows h2 - nrows h3 = excluded)%nat as ->.
    { change (nrows h2) with (nrows h1). rewrite <-Hlen_all, Hn3.
      unfold excluded, ages. clear. induction all_ages as [|c l IH]; [done|].
      pose proof (length_filter (λ c, old_enough c) l).
      rewrite !filter_cons.
      destruct (decide (old_enough c)), (decide (¬ old_enough c)); simpl;
        try done; lia. }
    by rewrite Hlen_all.
  - apply set_col_wf; [by apply set_col_wf|].
    unfold siblings_if_asked. rewrite length_zip_with. simpl. lia.
  - done.
  - unfold set_col; simpl. by rewrite !lookup_insert_ne.
  - unfold set_col; simpl. by rewrite !lookup_insert_ne.
  - unfold set_col; simpl. by rewrite !lookup_insert_ne.
  - unfold set_col; simpl. by rewrite lookup_insert_eq.
Qed.

(** Equality of computed rationals, up to the proof of canonicity *)
Ltac qc_eq :=
  repeat first [ reflexivity | apply Qc_is_canon; reflexivity | f_equal ].

(** C9: no retained head proxy has an age below 16.  On a table with the
    relationship and birth-year columns the extractor does not fail; the
    ages it keeps are exactly the ages (2017 minus birth year) of the
    code-1 individuals that are at least 16, so every retained row has a
    known age of 16 or more; and the number of excluded candidates is
    reported in the log whenever it is positive. *)
Theorem head_age_filter ind_df relation birth_year :
  df_wf ind_df →
  columns ind_df !! "a2001" = Some relation →
  columns ind_df !! "a2005" = Some birth_year →
  ∃ heads_df log ages,
    extract_heads ind_df = Return (heads_df, log)
    ∧ columns heads_df !! "head_age" = Some ages
    ∧ ages = filter (λ c, old_enough c) (candidate_ages relation birth_year)
    ∧ (∀ r, (r < nrows heads_df)%nat →
         ∃ a, ages !! r = Some (Some a) ∧ (num 16 ≤ a)%Qc)
    ∧ (∀ r c, ages !! r = Some c → c ≠ NaN ∧ ∀ a, c = Some a → ¬ (a < num 16)%Qc)
    ∧ let excluded :=
        length (filter (λ c, ¬ old_enough c)
                  (candidate_ages relation birth_year)) in
      ((0 < excluded)%nat → AgeFilterExcluded excluded ∈ log).
Proof.
  intros Hwf Hrel Hbirth.
  destruct (extract_heads_spec ind_df relation birth_year Hwf Hrel Hbirth)
    as (heads_df & brothers & sisters & Hrun & Hwfh & Hn & Hage & _).
  assert (∀ r c,
    filter (λ c, old_enough c) (candidate_ages relation birth_year) !! r = Some c →
    ∃ a, c = Some a ∧ (num 16 ≤ a)%Qc) as Hkept.
  { intros r c Hr. apply list_elem_of_lookup_2, list_elem_of_filter in Hr.
    destruct Hr as [Hold _]. destruct c as [a|]; [|done].
    exists a. split; [done|]. by apply bool_decide_unpack in Hold. }
  eexists heads_df, _, _. split; [exact Hrun|].
  split; [exact Hage|]. split; [done|]. split; [|split].
  - intros r Hr. rewrite Hn in Hr.
    destruct (lookup_lt_is_Some_2 _ _ Hr) as [c Hc].
    destruct (Hkept r c Hc) as (a & -> & Ha). by exists a.
  - intros r c Hc. destruct (Hkept r c Hc) as (a & -> & Ha).
    split; [done|]. intros a' [= <-]. by apply Qcle_not_lt.
  - intros excluded Hpos. apply elem_of_app. right.
    fold excluded. destruct (decide (0 < excluded)%nat); [|done].
    apply list_elem_of_here.
Qed.

Lemma head_age_filter_witness :
  ∃ heads_df log ages,
    extract_heads ind_example = Return (heads_df, log)
    ∧ columns heads_df !! "head_age" = Some ages
    ∧ ages = [Some (num 32); Some (num 67)]
    ∧ AgeFilterExcluded 1 ∈ log.
Proof.
  destruct (head_age_filter ind_example
              [Some (num 1); Some (num 1); Some (num 2); Some (num 1)]
              [Some (num 2010); Some (num 1985); Some (num 1960); Some (num 1950)])
    as (heads_df & log & ages & Hrun & Hage & Hages & _ & _ & Hlog).
  - apply df_wf_decidable. vm_compute. exact I.
  - reflexivity.
  - reflexivity.
  - exists heads_df, log, ages. split; [exact Hrun|]. split; [exact Hage|].
    split.
    + rewrite Hages. vm_compute. qc_eq.
    + apply Hlog. vm_compute. lia.
Defined.

(** The extractor's result with the facts the sibling rule needs: the
    frame is well formed and every retained row has a known age. *)
Lemma head_age_lookup ind_df relation birth_year :
  df_wf ind_df →
  columns ind_df !! "a2001" = Some relation →
  columns ind_df !! "a2005" = Some birth_year →
  ∃ heads_df log ages brothers sisters,
    extract_heads ind_df = Return (heads_df, log)
    ∧ df_wf heads_df
    ∧ columns heads_df !! "head_age" = Some ages
    ∧ columns heads_df !! "a2028" = Some brothers
    ∧ columns heads_df !! "a2029" = Some sisters
    ∧ columns heads_df !! "head_siblings" =
        Some (siblings_if_asked ages
                (zip_with cell_add (fillna (num 0) brothers)
                   (fillna (num 0) sisters)))
    ∧ ∀ r, (r < nrows heads_df)%nat → ∃ age, ages !! r = Some (Some age).
Proof.
  intros Hwf Hrel Hbirth.
  destruct (extract_heads_spec ind_df relation birth_year Hwf Hrel Hbirth)
    as (heads_df & brothers & sisters & Hrun & Hwfh & Hn & Hage & Hbro & Hsis & Hsib).
  eexists heads_df, _, _, brothers, sisters.
  split; [exact Hrun|]. do 5 (split; [eassumption|]).
  intros r Hr. rewrite Hn in Hr.
  destruct (lookup_lt_is_Some_2 _ _ Hr) as [c Hc]. rewrite Hc.
  apply list_elem_of_lookup_2, list_elem_of_filter in Hc as [Hold _].
  destruct c as [a|]; [by exists a | done].
Qed.

(** C6: for every retained head proxy, [head_siblings] is missing when
    [head_age > 40] and is brothers + sisters, a missing component
    counting as 0, when [head_age <= 40]. *)
Theorem head_siblings_by_age ind_df relation birth_year :
  df_wf ind_df →
  columns ind_df !! "a2001" = Some relation →
  columns ind_df !! "a2005" = Some birth_year →
  ∃ heads_df log ages brothers sisters siblings,
    extract_heads ind_df = Return (heads_df, log)
    ∧ columns heads_df !! "head_age" = Some ages
    ∧ columns heads_df !! "a2028" = Some brothers
    ∧ columns heads_df !! "a2029" = Some sisters
    ∧ columns heads_df !! "head_siblings" = Some siblings
    ∧ ∀ r, (r < nrows heads_df)%nat →
        ∃ age b s,
          ages !! r = Some (Some age)
          ∧ brothers !! r = Some b
          ∧ sisters !! r = Some s
          ∧ ((num 40 < age)%Qc → siblings !! r = Some NaN)
          ∧ ((age ≤ num 40)%Qc →
               siblings !! r
               = Some (Some (default (num 0) b + default (num 0) s)%Qc)).
Proof.
  intros Hwf Hrel Hbirth.
  destruct (head_age_lookup ind_df relation birth_year Hwf Hrel Hbirth)
    as (heads_df & log & ages & brothers & sisters
        & Hrun & Hwfh & Hage & Hbro & Hsis & Hsib & Hknown).
  eexists heads_df, log, ages, brothers, sisters, _.
  split; [exact Hrun|]. do 4 (split; [eassumption|]).
  intros r Hr. destruct (Hknown r Hr) as [age Hager].
  pose proof (Hwfh _ _ Hbro) as Hlb. pose proof (Hwfh _ _ Hsis) as Hls.
  destruct (lookup_lt_is_Some_2 brothers r) as [b Hb]; [lia|].
  destruct (lookup_lt_is_Some_2 sisters r) as [s Hs]; [lia|].
  exists age, b, s. split; [done|]. split; [done|]. split; [done|].
  assert (siblings_if_asked ages
            (zip_with cell_add (fillna (num 0) brothers) (fillna (num 0) sisters))
          !! r
          = Some (if bool_decide (age ≤ num 40)%Qc
                  then Some (default (num 0) b + default (num 0) s)%Qc
                  else NaN)) as Hcell.
  { unfold siblings_if_asked, fillna.
    rewrite lookup_zip_with, Hager. simpl.
    rewrite lookup_zip_with, !list_lookup_fmap, Hb, Hs. done. }
  rewrite Hcell. split.
  - intros Hold. rewrite bool_decide_false; [done|]. by apply Qclt_not_le.
  - intros Hyoung. by rewrite bool_decide_true.
Qed.

Lemma head_siblings_by_age_witness :
  ∃ heads_df log siblings,
    extract_heads ind_example = Return (heads_df, log)
    ∧ columns heads_df !! "head_siblings" = Some siblings
    ∧ siblings !! 0%nat = Some (Some (num 2))
    ∧ siblings !! 1%nat = Some NaN.
Proof.
  destruct (head_siblings_by_age ind_example
              [Some (num 1); Some (num 1); Some (num 2); Some (num 1)]
              [Some (num 2010); Some (num 1985); Some (num 1960); Some (num 1950)])
    as (heads_df & log & ages & brothers & sisters & siblings
        & Hrun & Hage & Hbro & Hsis & Hsib & Hrows).
  - apply df_wf_decidable. vm_compute. exact I.
  - reflexivity.
  - reflexivity.
  - exists heads_df, log, siblings. split; [exact Hrun|]. split; [exact Hsib|].
    assert (Return (heads_df, log) = extract_heads ind_example) as Hrun' by done.
    vm_compute in Hrun'. injection Hrun' as -> _.
    vm_compute in Hsib. injection Hsib as <-.
    split; vm_compute; qc_eq.
Defined.

(** ** Winsorisation *)

Ltac qc_order := unfold Qcle, Qclt in *; lra.

Lemma clip_mono lo hi x y :
  (lo ≤ hi)%Qc → (x ≤ y)%Qc → (clip lo hi x ≤ clip lo hi y)%Qc.
Proof. intros Hlh Hxy. unfold clip. repeat case_decide; qc_order. Qed.

Lemma clip_lo lo hi : (lo ≤ hi)%Qc → clip lo hi lo = lo.
Proof. intros Hlh. unfold clip. repeat case_decide; try done; qc_order. Qed.

Lemma clip_hi lo hi : (lo ≤ hi)%Qc → clip lo hi hi = hi.
Proof. intros Hlh. unfold clip. repeat case_decide; try done; qc_order. Qed.

Lemma clip_clip lo hi x :
  (lo ≤ hi)%Qc → clip lo hi (clip lo hi x) = clip lo hi x.
Proof. intros Hlh. unfold clip. repeat case_decide; try done; qc_order. Qed.

Lemma StronglySorted_lookup_le (l : list Qc) i j x y :
  StronglySorted Qcle l → (i ≤ j)%nat →
  l !! i = Some x → l !! j = Some y → (x ≤ y)%Qc.
Proof.
  intros Hs. revert i j. induction Hs as [|z l Hs IH Hall]; intros i j Hij Hi Hj.
  { by rewrite lookup_nil in Hi. }
  destruct i as [|i], j as [|j]; simpl in *.
  - injection Hi as <-. injection Hj as <-. apply Qcle_refl.
  - injection Hi as <-. rewrite Forall_forall in Hall.
    apply Hall. by eapply list_elem_of_lookup_2.
  - lia.
  - apply (IH i j); [lia | done | done].
Qed.

(** Sorting commutes with clipping. *)
Lemma merge_sort_clip lo hi (a : list Qc) :
  (lo ≤ hi)%Qc →
  merge_sort Qcle (clip lo hi <$> a) = clip lo hi <$> merge_sort Qcle a.
Proof.
  intros Hlh. apply (Sorted_unique Qcle).
  - apply Sorted_merge_sort; apply _.
  - apply (Sorted_fmap _ Qcle Qcle).
    + intros x y. by apply clip_mono.
    + apply Sorted_merge_sort; apply _.
  - rewrite merge_sort_Permutation. by rewrite (merge_sort_Permutation Qcle a).
Qed.

(** On a non-empty array, [winsorize] clips to two order statistics
    [lo ≤ hi], and the clipped array has the same two order statistics. *)
Lemma winsorize_clip (a : list Qc) :
  a ≠ [] →
  ∃ lo hi, (lo ≤ hi)%Qc
    ∧ winsorize a = clip lo hi <$> a
    ∧ winsorize (clip lo hi <$> a) = clip lo hi <$> a.
Proof.
  intros Hne.
  assert (0 < length a)%nat as Hpos by (destruct a; [done | simpl; lia]).
  assert (length (merge_sort Qcle a) = length a) as Hlen
    by by rewrite merge_sort_Permutation.
  set (n := length a) in *.
  destruct (lookup_lt_is_Some_2 (merge_sort Qcle a) (n / 100)) as [lo Hlo].
  { rewrite Hlen. apply Nat.div_lt; lia. }
  destruct (lookup_lt_is_Some_2 (merge_sort Qcle a) (n - n / 100 - 1)) as [hi Hhi].
  { rewrite Hlen. lia. }
  assert (lo ≤ hi)%Qc as Hlh.
  { apply (StronglySorted_lookup_le (merge_sort Qcle a) (n / 100) (n - n / 100 - 1));
      [apply StronglySorted_merge_sort; apply _ | | done | done].
    pose proof (Nat.div_mod_eq n 100). pose proof (Nat.mod_upper_bound n 100).
    lia. }
  exists lo, hi. split; [done|].
  assert (winsorize a = clip lo hi <$> a) as Hw.
  { unfold winsorize. fold n. by rewrite Hlo, Hhi. }
  split; [done|].
  unfold winsorize. rewrite length_fmap. fold n.
  rewrite merge_sort_clip by done. rewrite !list_lookup_fmap, Hlo, Hhi. simpl.
  rewrite clip_lo, clip_hi by done.
  rewrite <-list_fmap_compose. apply list_fmap_ext. intros i x _. simpl.
  by apply clip_clip.
Qed.

Lemma dropna_from_fmap (f : Qc → Qc) i (s : Series) :
  dropna_from i (fmap (M:=option) f <$> s) = prod_map (@id nat) f <$> dropna_from i s.
Proof.
  revert i. induction s as [|[v|] s IH]; intros i; csimpl; [done | |];
    by rewrite IH.
Qed.

Lemma zip_fst_fmap_snd (f : Qc → Qc) (l : list (nat * Qc)) :
  zip l.*1 (f <$> l.*2) = prod_map (@id nat) f <$> l.
Proof. induction l as [|[i v] l IH]; csimpl; [done|]. by rewrite IH. Qed.

Lemma lookup_dropna_from (f : Qc → Qc) i (s : Series) (r : nat) :
  (list_to_map (prod_map (@id nat) f <$> dropna_from i s) : gmap nat Qc) !! r
  = if decide (r < i)%nat then None else f <$> mjoin (s !! (r - i)%nat).
Proof.
  revert i. induction s as [|c s IH]; intros i.
  { simpl. rewrite lookup_empty. by case_decide. }
  assert ((list_to_map (prod_map (@id nat) f <$> dropna_from (S i) s) : gmap nat Qc) !! r
          = if decide (r = i) then None
            else if decide (r < i)%nat then None
                 else f <$> mjoin ((c :: s) !! (r - i)%nat)) as Hrest.
  { rewrite IH. destruct (decide (r = i)) as [->|Hne].
    - rewrite decide_True by lia. done.
    - destruct (decide (r < i)%nat).
      + by rewrite decide_True by lia.
      + rewrite decide_False by lia.
        replace (r - i)%nat with (S (r - S i)) by lia. done. }
  destruct c as [v|]; csimpl.
  - rewrite lookup_insert. destruct (decide (i = r)) as [->|Hne].
    + rewrite decide_False by lia. by rewrite Nat.sub_diag.
    + rewrite Hrest. by rewrite decide_False by done.
  - rewrite Hrest. destruct (decide (r = i)) as [->|Hne]; [|done].
    rewrite decide_False by lia. by rewrite Nat.sub_diag.
Qed.

(** Putting the transformed values back by label transforms the column
    cell by cell. *)
Lemma reindex_dropna (f : Qc → Qc) (s : Series) :
  reindex (length s) (zip (dropna s).*1 (f <$> (dropna s).*2)) = fmap (M:=option) f <$> s.
Proof.
  rewrite zip_fst_fmap_snd. unfold reindex, dropna.
  apply list_eq. intros r. rewrite !list_lookup_fmap.
  destruct (decide (r < length s)%nat) as [Hr|Hr].
  - rewrite lookup_seq_lt by done. simpl. rewrite lookup_dropna_from.
    rewrite decide_False by lia. rewrite Nat.sub_0_r.
    destruct (lookup_lt_is_Some_2 s r Hr) as [c ->]. done.
  - rewrite lookup_seq_ge by lia. by rewrite lookup_ge_None_2 by lia.
Qed.

Lemma dropna_nil_all_missing (s : Series) :
  dropna s = [] → s = replicate (length s) NaN.
Proof.
  unfold dropna. generalize 0%nat. induction s as [|[v|] s IH]; intros i;
    simpl; [done | done |].
  intros Hs. f_equal. by apply (IH (S i)).
Qed.

Lemma winsorized_column_nonempty n (s : Series) :
  dropna s ≠ [] →
  (winsorized_column n s).1
  = reindex n (zip (dropna s).*1 (winsorize (dropna s).*2)).
Proof. unfold winsorized_column. by destruct (dropna s). Qed.

(** The winsorised column is the column transformed cell by cell: missing
    cells stay missing, the others are clipped to two bounds [lo ≤ hi]
    that are fixed points of a second winsorisation. *)
Lemma winsorized_column_cells (s : Series) :
  ∃ lo hi, (lo ≤ hi)%Qc
    ∧ (winsorized_column (length s) s).1 = fmap (M:=option) (clip lo hi) <$> s
    ∧ (winsorized_column (length s) (fmap (M:=option) (clip lo hi) <$> s)).1
      = fmap (M:=option) (clip lo hi) <$> s.
Proof.
  destruct (dropna s) as [|p l] eqn:Hd.
  - exists 0%Qc, 0%Qc. split; [done|].
    assert ((winsorized_column (length s) s).1 = fmap (M:=option) (clip 0 0) <$> s) as Hw.
    { unfold winsorized_column. rewrite Hd. simpl.
      rewrite (dropna_nil_all_missing s Hd) at 2.
      rewrite fmap_replicate. done. }
    split; [done|].
    unfold winsorized_column.
    unfold dropna in *. rewrite dropna_from_fmap, Hd. simpl.
    rewrite (dropna_nil_all_missing s Hd) at 2. by rewrite fmap_replicate.
  - assert (dropna s ≠ []) as Hne by by rewrite Hd.
    destruct (winsorize_clip (dropna s).*2) as (lo & hi & Hlh & Hw & Hww).
    { by rewrite Hd. }
    exists lo, hi. split; [done|]. split.
    + rewrite winsorized_column_nonempty by done.
      rewrite Hw. apply reindex_dropna.
    + assert (dropna (fmap (M:=option) (clip lo hi) <$> s)
              = prod_map (@id nat) (clip lo hi) <$> dropna s)
        as Hd' by apply dropna_from_fmap.
      rewrite winsorized_column_nonempty by (rewrite Hd', Hd; done).
      rewrite Hd'.
      assert ((prod_map (@id nat) (clip lo hi) <$> dropna s).*1 = (dropna s).*1) as ->.
      { rewrite <-list_fmap_compose. apply list_fmap_ext. by intros ? []. }
      assert ((prod_map (@id nat) (clip lo hi) <$> dropna s).*2
              = clip lo hi <$> (dropna s).*2) as ->.
      { rewrite <-!list_fmap_compose. apply list_fmap_ext. by intros ? []. }
      rewrite Hww. apply reindex_dropna.
Qed.

(** C8: winsorising the already winsorised debt-ratio column again (same
    limits, order statistics recomputed on its non-missing cells) changes
    no value. *)
Theorem winsorization_idempotent (debt_ratio : Series) :
  let winsorized := (winsorized_column (length debt_ratio) debt_ratio).1 in
  (winsorized_column (length debt_ratio) winsorized).1 = winsorized.
Proof.
  intros winsorized. unfold winsorized.
  destruct (winsorized_column_cells debt_ratio) as (lo & hi & _ & -> & ->).
  done.
Qed.

Example winsorize_tail :
  winsorize (num <$> (Z.of_nat <$> seq 0 200))
  = clip (num 2) (num 197) <$> (num <$> (Z.of_nat <$> seq 0 200)).
Proof. vm_compute. reflexivity. Qed.

(** ** The coalescing loops *)

Lemma get_midpoint_base var_name base c :
  base_var_name var_name = Return base →
  get_midpoint c var_name = Return (lookup_midpoint base c).
Proof.
  intros Hbase. destruct c as [code|]; [|done].
  unfold get_midpoint. rewrite Hbase. unfold mbind, result_bind. simpl.
  by destruct (bound_table mapping_chain base).
Qed.

Lemma midpoints_base var_name base (codes : Series) :
  base_var_name var_name = Return base →
  midpoints var_name codes = Return (lookup_midpoint base <$> codes).
Proof.
  intros Hbase. unfold midpoints.
  induction codes as [|c codes IH]; [done|].
  simpl. rewrite (get_midpoint_base _ _ _ Hbase). simpl. by rewrite IH.
Qed.

Lemma coalesce_one_column hh_df coalesced pair :
  coalesce_one (hh_df, coalesced) pair =
  s ← coalesced_column hh_df pair;
  mret (set_col hh_df (val_name pair.1) s,
        if has_col hh_df pair.1 then coalesced ++ [val_name pair.1]
        else coalesced).
Proof.
  destruct pair as [exact interval]. unfold coalesce_one, coalesced_column, has_col.
  simpl. destruct (columns hh_df !! exact) as [ex|] eqn:Hex; simpl; [|done].
  destruct (interval_column hh_df interval) as [[it codes]|]; [|done].
  by destruct (midpoints it codes).
Qed.

Lemma coalesced_column_congr hh1 hh2 pair :
  nrows hh1 = nrows hh2 →
  columns hh1 !! pair.1 = columns hh2 !! pair.1 →
  (∀ it, pair.2 = Some it → columns hh1 !! it = columns hh2 !! it) →
  coalesced_column hh1 pair = coalesced_column hh2 pair.
Proof.
  intros Hn He Hit. unfold coalesced_column. rewrite He, Hn.
  destruct (columns hh2 !! pair.1); [|done].
  assert (interval_column hh1 pair.2 = interval_column hh2 pair.2) as ->; [|done].
  unfold interval_column. destruct pair.2 as [it|]; simpl; [|done].
  by rewrite (Hit it).
Qed.

Lemma foldlM_cons {A B} (f : A → B → result A) a x l :
  foldlM f a (x :: l) = a' ← f a x; foldlM f a' l.
Proof. done. Qed.

Lemma coalesce_loop_frame l hh_df coalesced hh_df' coalesced' :
  foldlM coalesce_one (hh_df, coalesced) l = Return (hh_df', coalesced') →
  nrows hh_df' = nrows hh_df
  ∧ ∀ c, c ∉ val_name <$> l.*1 → columns hh_df' !! c = columns hh_df !! c.
Proof.
  revert hh_df coalesced. induction l as [|p l IH]; intros hh acc Hrun.
  { by injection Hrun as <- <-. }
  rewrite foldlM_cons, coalesce_one_column in Hrun.
  destruct (coalesced_column hh p) as [|s]; [done|]. simpl in Hrun.
  apply IH in Hrun as [Hn Hframe]. split; [done|].
  intros c Hc. rewrite !fmap_cons, not_elem_of_cons in Hc. destruct Hc as [Hne Hc].
  rewrite (Hframe c Hc). unfold set_col; simpl. by rewrite lookup_insert_ne.
Qed.

Lemma coalesce_loop_columns l hh_df coalesced hh_df' coalesced' :
  foldlM coalesce_one (hh_df, coalesced) l = Return (hh_df', coalesced') →
  NoDup (val_name <$> l.*1) →
  (∀ p c, p ∈ l → c ∈ reads p → c ∉ val_name <$> l.*1) →
  ∀ p, p ∈ l →
    ∃ s, coalesced_column hh_df p = Return s
         ∧ columns hh_df' !! val_name p.1 = Some s.
Proof.
  revert hh_df coalesced. induction l as [|p0 l IH]; intros hh acc Hrun Hnd Hreads p Hp.
  { by apply elem_of_nil in Hp. }
  rewrite foldlM_cons, coalesce_one_column in Hrun.
  destruct (coalesced_column hh p0) as [|s0] eqn:Hcol0; [done|]. simpl in Hrun.
  rewrite !fmap_cons in Hnd. apply NoDup_cons in Hnd as [Hfresh Hnd].
  apply elem_of_cons in Hp as [->|Hp].
  - exists s0. split; [done|].
    destruct (coalesce_loop_frame _ _ _ _ _ Hrun) as [_ Hframe].
    rewrite (Hframe _ Hfresh). unfold set_col; simpl. by rewrite lookup_insert_eq.
  - destruct (IH _ _ Hrun Hnd) with (p := p) as (s & Hs & Hlook); [|done|].
    { intros q c Hq Hc Hin. apply (Hreads q c); [by right | done |].
      rewrite !fmap_cons. by right. }
    exists s. split; [|done]. rewrite <-Hs. symmetry.
    assert (∀ c, c ∈ reads p → c ≠ val_name p0.1) as Hne.
    { intros c Hc ->. apply (Hreads p (val_name p0.1)); [by right | done |].
      rewrite !fmap_cons. by left. }
    apply coalesced_column_congr; [done | |].
    + unfold set_col; simpl. rewrite lookup_insert_ne; [done|].
      intros Heq. apply (Hne p.1); [by left | done].
    + intros it Hit. unfold set_col; simpl. rewrite lookup_insert_ne; [done|].
      intros Heq. apply (Hne it); [|done]. unfold reads. rewrite Hit.
      right. by left.
Qed.

Lemma length_midpoints it (codes mids : Series) :
  midpoints it codes = Return mids → length mids = length codes.
Proof.
  unfold midpoints. revert mids. induction codes as [|c codes IH]; intros mids.
  { by intros [= <-]. }
  simpl. destruct (get_midpoint c it) as [|m]; [done|]. simpl.
  destruct (mapM (λ x, get_midpoint x it) codes) as [|ms]; [done|]. simpl.
  intros [= <-]. simpl. f_equal. by apply IH.
Qed.

Lemma coalesced_column_length hh_df pair s :
  df_wf hh_df → coalesced_column hh_df pair = Return s →
  length s = nrows hh_df.
Proof.
  intros Hwf. unfold coalesced_column.
  destruct (columns hh_df !! pair.1) as [ex|] eqn:Hex.
  - destruct (interval_column hh_df pair.2) as [[it codes]|] eqn:Hit.
    + destruct (midpoints it codes) as [|mids] eqn:Hm; [done|]. intros [= <-].
      unfold interval_column in Hit. destruct pair.2 as [it'|]; [|done].
      simpl in Hit. case_decide; [done|].
      destruct (columns hh_df !! it') as [codes'|] eqn:Hc; [|done].
      injection Hit as <- <-.
      unfold combine_first. rewrite length_zip_with.
      rewrite (length_midpoints _ _ _ Hm), (Hwf _ _ Hex), (Hwf _ _ Hc). lia.
    + intros [= <-]. by apply (Hwf _ _ Hex).
  - intros [= <-]. apply length_replicate.
Qed.

Lemma coalesced_column_returns hh_df pair :
  (∀ it, pair.2 = Some it → ∃ base, base_var_name it = Return base) →
  ∃ s, coalesced_column hh_df pair = Return s.
Proof.
  intros Hnamed. unfold coalesced_column.
  destruct (columns hh_df !! pair.1) as [ex|]; [|by eexists].
  destruct (interval_column hh_df pair.2) as [[it codes]|] eqn:Hit; [|by eexists].
  unfold interval_column in Hit. destruct pair.2 as [it'|]; [|done].
  simpl in Hit. case_decide; [done|].
  destruct (columns hh_df !! it'); [|done]. injection Hit as <- <-.
  destruct (Hnamed it' eq_refl) as [base Hbase].
  rewrite (midpoints_base _ _ _ Hbase). by eexists.
Qed.

Lemma coalesce_loop_returns l hh_df coalesced :
  (∀ p it, p ∈ l → p.2 = Some it → ∃ base, base_var_name it = Return base) →
  ∃ hh_df' coalesced',
    foldlM coalesce_one (hh_df, coalesced) l = Return (hh_df', coalesced').
Proof.
  revert hh_df coalesced. induction l as [|p l IH]; intros hh acc Hnamed.
  { by eexists _, _. }
  rewrite foldlM_cons, coalesce_one_column.
  destruct (coalesced_column_returns hh p) as [s ->].
  { intros it. apply Hnamed. by left. }
  simpl. apply IH. intros q it Hq. apply Hnamed. by right.
Qed.

Lemma coalesce_loop_wf l hh_df coalesced hh_df' coalesced' :
  df_wf hh_df →
  foldlM coalesce_one (hh_df, coalesced) l = Return (hh_df', coalesced') →
  df_wf hh_df'.
Proof.
  revert hh_df coalesced. induction l as [|p l IH]; intros hh acc Hwf Hrun.
  { by injection Hrun as <- <-. }
  rewrite foldlM_cons, coalesce_one_column in Hrun.
  destruct (coalesced_column hh p) as [|s] eqn:Hs; [done|]. simpl in Hrun.
  apply IH in Hrun; [done|]. apply set_col_wf; [done|].
  by eapply coalesced_column_length.
Qed.

(** When every exact field is a column, every round appends its name. *)
Lemma coalesce_loop_vars l hh_df coalesced hh_df' coalesced' :
  (∀ p, p ∈ l → is_Some (columns hh_df !! p.1)) →
  foldlM coalesce_one (hh_df, coalesced) l = Return (hh_df', coalesced') →
  coalesced' = coalesced ++ (val_name <$> l.*1).
Proof.
  revert hh_df coalesced. induction l as [|p l IH]; intros hh acc Hex Hrun.
  { injection Hrun as <- <-. by rewrite app_nil_r. }
  rewrite foldlM_cons, coalesce_one_column in Hrun.
  destruct (coalesced_column hh p) as [|s] eqn:Hs; [done|]. simpl in Hrun.
  apply IH in Hrun.
  - rewrite Hrun. unfold has_col.
    rewrite bool_decide_true by (apply Hex; by left).
    by rewrite <-app_assoc.
  - intros q Hq. unfold set_col; simpl. rewrite lookup_insert.
    case_decide; [done|]. apply Hex. by right.
Qed.

(** ** Synthesis of missing columns *)

Lemma length_filter_agree {A} (P Q : A → Prop) `{∀ x, Decision (P x)}
    `{∀ x, Decision (Q x)} (l : list A) :
  (∀ x, x ∈ l → P x ↔ Q x) → length (filter P l) = length (filter Q l).
Proof.
  induction l as [|x l IH]; intros Hagree; [done|].
  rewrite !filter_cons.
  assert (P x ↔ Q x) as Hx by (apply Hagree; by left).
  assert (length (filter P l) = length (filter Q l)) as Hl.
  { apply IH. intros y Hy. apply Hagree. by right. }
  destruct (decide (P x)), (decide (Q x)); simpl; try tauto; by rewrite Hl.
Qed.

Lemma ensure_fold l hh_df n hh_df' n' :
  NoDup l →
  foldl ensure_column (hh_df, n) l = (hh_df', n') →
  nrows hh_df' = nrows hh_df
  ∧ (∀ c, columns hh_df' !! c =
          if decide (c ∈ l)
          then Some (default (replicate (nrows hh_df) NaN) (columns hh_df !! c))
          else columns hh_df !! c)
  ∧ n' = (n + length (filter (absent hh_df) l))%nat.
Proof.
  revert hh_df n. induction l as [|c0 l IH]; intros hh n Hnd Hrun.
  { injection Hrun as <- <-. split; [done|]. split; [|simpl; lia].
    intros c. rewrite decide_False; [done | apply not_elem_of_nil]. }
  apply NoDup_cons in Hnd as [Hfresh Hnd]. simpl in Hrun.
  unfold has_col in Hrun.
  destruct (columns hh !! c0) as [s0|] eqn:Hc0.
  - rewrite bool_decide_true in Hrun by by eexists.
    destruct (IH _ _ Hnd Hrun) as (Hn & Hcols & Hcount).
    split; [done|]. split.
    + intros c. rewrite Hcols. destruct (decide (c = c0)) as [->|Hne].
      * rewrite decide_False by done. rewrite decide_True by by left.
        by rewrite Hc0.
      * destruct (decide (c ∈ l)).
        -- rewrite decide_True by by right. done.
        -- rewrite decide_False; [done|]. rewrite elem_of_cons. tauto.
    + rewrite Hcount, filter_cons_False; [done|]. unfold absent. by rewrite Hc0.
  - rewrite bool_decide_false in Hrun by (intros [? ?]; done).
    destruct (IH _ _ Hnd Hrun) as (Hn & Hcols & Hcount).
    split; [done|]. split.
    + intros c. rewrite Hcols. simpl. destruct (decide (c = c0)) as [->|Hne].
      * rewrite decide_False by done. rewrite decide_True by by left.
        by rewrite lookup_insert_eq, Hc0.
      * rewrite lookup_insert_ne by done. destruct (decide (c ∈ l)).
        -- rewrite decide_True by by right. done.
        -- rewrite decide_False; [done|]. rewrite elem_of_cons. tauto.
    + rewrite Hcount, filter_cons_True by done. simpl.
      rewrite (length_filter_agree (absent (set_scalar hh c0 NaN)) (absent hh) l);
        [lia|].
      intros x Hx. unfold absent, set_scalar, set_col; simpl.
      rewrite lookup_insert_ne; [done|]. by intros ->.
Qed.

Lemma elem_of_all_vars_needed c : c ∈ all_vars_needed ↔ c ∈ catalog_names.
Proof.
  unfold all_vars_needed. rewrite elem_of_elements, elem_of_list_to_set. done.
Qed.

(** The frame after the synthesis: every catalog name is a column,
    all-missing if the source lacked it; [missing_cols_count] counts the
    names that were lacking. *)
Lemma ensure_columns_spec hh_df :
  ∃ hh0,
    ensure_columns hh_df
      = (hh0, length (filter (absent hh_df) all_vars_needed))
    ∧ nrows hh0 = nrows hh_df
    ∧ (∀ c, c ∈ catalog_names →
         columns hh0 !! c
         = Some (default (replicate (nrows hh_df) NaN) (columns hh_df !! c)))
    ∧ (∀ c, c ∉ catalog_names → columns hh0 !! c = columns hh_df !! c)
    ∧ (df_wf hh_df → df_wf hh0).
Proof.
  assert (NoDup all_vars_needed) as Hnd by apply NoDup_elements.
  pose proof elem_of_all_vars_needed as Hin.
  unfold ensure_columns. generalize dependent all_vars_needed. intros needed Hnd Hin.
  destruct (foldl ensure_column (hh_df, 0%nat) needed) as [hh0 n] eqn:Hrun.
  destruct (ensure_fold _ _ _ _ _ Hnd Hrun) as (Hn & Hcols & Hcount).
  exists hh0. split; [rewrite Hcount; reflexivity|]. split; [exact Hn|].
  split; [|split].
  - intros c Hc. rewrite Hcols, decide_True; [done|]. by apply Hin.
  - intros c Hc. rewrite Hcols, decide_False; [done|]. by rewrite Hin.
  - intros Hwf c s. rewrite Hcols, Hn. case_decide; [|apply Hwf].
    destruct (columns hh_df !! c) as [s'|] eqn:Hc; simpl; intros [= <-].
    + by apply (Hwf c).
    + apply length_replicate.
Qed.

(** ** Facts about the catalog, by evaluation *)

Lemma well_named_base it : well_named it → ∃ base, base_var_name it = Return base.
Proof. unfold well_named. destruct (base_var_name it); [done | by eexists]. Qed.

Lemma written_NoDup : NoDup written_names.
Proof. apply (bool_decide_unpack _). vm_compute. exact I. Qed.

Lemma catalog_not_written : Forall (λ c, c ∉ written_names) catalog_names.
Proof. apply (bool_decide_unpack _). vm_compute. exact I. Qed.

Lemma pairs_read_catalog :
  Forall (λ p, Forall (λ c, c ∈ catalog_names ∧ c ≠ "") (reads p))
    (debt_pairs ++ asset_pairs).
Proof. apply (bool_decide_unpack _). vm_compute. exact I. Qed.

Lemma intervals_well_named :
  Forall (λ it, well_named it = true) (omap snd (debt_pairs ++ asset_pairs)).
Proof. apply (bool_decide_unpack _). vm_compute. exact I. Qed.

Lemma pairs_well_named p it :
  p ∈ debt_pairs ++ asset_pairs → p.2 = Some it →
  ∃ base, base_var_name it = Return base.
Proof.
  intros Hp Hit. apply well_named_base, Is_true_true.
  pose proof intervals_well_named as Hall. rewrite Forall_forall in Hall.
  apply Hall. apply list_elem_of_omap. by exists p.
Qed.

Lemma vehicle_in_catalog :
  vehicle_in_business_col ∈ catalog_names
  ∧ vehicle_in_business_col_it ∈ catalog_names.
Proof. split; apply (bool_decide_unpack _); vm_compute; exact I. Qed.

(** ** The household pipeline up to the aggregator *)

Lemma written_parts :
  NoDup (val_name <$> debt_pairs.*1)
  ∧ NoDup (val_name <$> asset_pairs.*1)
  ∧ (∀ x, x ∈ val_name <$> debt_pairs.*1 → x ∉ val_name <$> asset_pairs.*1)
  ∧ (∀ x, x ∈ (val_name <$> debt_pairs.*1) ++ (val_name <$> asset_pairs.*1) →
       x ≠ vehicle_adj_val_col ∧ x ∉ aggregate_names)
  ∧ vehicle_adj_val_col ∉ aggregate_names.
Proof.
  pose proof written_NoDup as Hnd. unfold written_names in Hnd.
  apply NoDup_app in Hnd as (Hd & Hd_other & Hnd).
  apply NoDup_app in Hnd as (Ha & Ha_other & Hnd).
  apply NoDup_app in Hnd as (_ & Hv_other & _).
  split; [done|]. split; [done|]. split; [|split].
  - intros x Hx Hx'. apply (Hd_other x Hx). apply elem_of_app. by left.
  - intros x [Hx|Hx]%elem_of_app.
    + split.
      * intros ->. apply (Hd_other _ Hx). rewrite !elem_of_app. right. left.
        by left.
      * intros Hagg. apply (Hd_other _ Hx). rewrite !elem_of_app. by do 2 right.
    + split.
      * intros ->. apply (Ha_other _ Hx). rewrite !elem_of_app. left. by left.
      * intros Hagg. apply (Ha_other _ Hx). rewrite !elem_of_app. by right.
  - apply Hv_other. by left.
Qed.

Lemma reads_not_written p c :
  p ∈ debt_pairs ++ asset_pairs → c ∈ reads p →
  c ∈ catalog_names ∧ c ≠ "" ∧ c ∉ written_names.
Proof.
  intros Hp Hc. pose proof pairs_read_catalog as Hall.
  rewrite Forall_forall in Hall. specialize (Hall p Hp).
  rewrite Forall_forall in Hall. destruct (Hall c Hc) as [Hcat Hne].
  split; [done|]. split; [done|].
  pose proof catalog_not_written as Hnw. rewrite Forall_forall in Hnw. by apply Hnw.
Qed.

Lemma debt_vals_written x :
  x ∈ val_name <$> debt_pairs.*1 → x ∈ written_names.
Proof. intros Hx. unfold written_names. rewrite !elem_of_app. by left. Qed.

Lemma asset_vals_written x :
  x ∈ val_name <$> asset_pairs.*1 → x ∈ written_names.
Proof. intros Hx. unfold written_names. rewrite !elem_of_app. right. by left. Qed.

Lemma val_of_pair_in (l : list (string * option string)) p :
  p ∈ l → val_name p.1 ∈ val_name <$> l.*1.
Proof. intros Hp. by do 2 apply list_elem_of_fmap_2. Qed.

(** The state in which the aggregator starts, for any well-formed source
    table: the synthesised frame [hh0], and the frame [hh3] after the two
    loops and the vehicle adjustment, in which every [*_val] column holds
    what one round computes from [hh0]. *)
Lemma coalescing_spec hh_df :
  df_wf hh_df →
  ∃ hh0 hh3,
    ensure_columns hh_df = (hh0, length (filter (absent hh_df) all_vars_needed))
    ∧ nrows hh0 = nrows hh_df
    ∧ df_wf hh0
    ∧ (∀ c, c ∈ catalog_names →
         columns hh0 !! c
         = Some (default (replicate (nrows hh_df) NaN) (columns hh_df !! c)))
    ∧ df_wf hh3
    ∧ nrows hh3 = nrows hh_df
    ∧ (∀ p, p ∈ debt_pairs ++ asset_pairs →
         ∃ s, coalesced_column hh0 p = Return s
              ∧ columns hh3 !! val_name p.1 = Some s)
    ∧ (∀ c, c ∉ written_names → columns hh3 !! c = columns hh0 !! c)
    ∧ is_Some (columns hh3 !! vehicle_adj_val_col)
    ∧ (coalesce_loop all_debt_exact_vars all_debt_interval_vars hh0 ≫=
         λ '(hh1, coalesced_debt_vars),
           coalesce_loop all_asset_exact_vars all_asset_interval_vars hh1 ≫=
             λ '(hh2, coalesced_asset_vars),
               coalesce_vehicle hh2 ≫=
                 λ hh3', mret (hh3', coalesced_debt_vars, coalesced_asset_vars))
      = Return (hh3, val_name <$> debt_pairs.*1, val_name <$> asset_pairs.*1).
Proof.
  intros Hwf.
  destruct (ensure_columns_spec hh_df) as (hh0 & Hens & Hn0 & Hcat & _ & Hwf0).
  specialize (Hwf0 Hwf).
  destruct written_parts as (Hnd_d & Hnd_a & Hda & Hother & _).
  (* the debt loop *)
  destruct (coalesce_loop_returns debt_pairs hh0 []) as (hh1 & dv & Hrun1).
  { intros p it Hp. apply pairs_well_named. apply elem_of_app. by left. }
  destruct (coalesce_loop_frame _ _ _ _ _ Hrun1) as [Hn1 Hframe1].
  pose proof (coalesce_loop_wf _ _ _ _ _ Hwf0 Hrun1) as Hwf1.
  assert (dv = val_name <$> debt_pairs.*1) as ->.
  { apply (coalesce_loop_vars _ _ _ _ _) in Hrun1; [done|].
    intros p Hp. destruct (reads_not_written p p.1) as (Hc & _); [|by left|].
    { apply elem_of_app. by left. }
    rewrite (Hcat _ Hc). by eexists. }
  pose proof (coalesce_loop_columns _ _ _ _ _ Hrun1 Hnd_d) as Hcols1.
  (* the asset loop *)
  destruct (coalesce_loop_returns asset_pairs hh1 []) as (hh2 & av & Hrun2).
  { intros p it Hp. apply pairs_well_named. apply elem_of_app. by right. }
  destruct (coalesce_loop_frame _ _ _ _ _ Hrun2) as [Hn2 Hframe2].
  pose proof (coalesce_loop_wf _ _ _ _ _ Hwf1 Hrun2) as Hwf2.
  assert (∀ c, c ∉ written_names → columns hh1 !! c = columns hh0 !! c) as Hkeep1.
  { intros c Hc. apply Hframe1. intros Hin. by apply Hc, debt_vals_written. }
  assert (∀ c, c ∉ written_names → columns hh2 !! c = columns hh0 !! c) as Hkeep2.
  { intros c Hc. rewrite Hframe2; [by apply Hkeep1|].
    intros Hin. by apply Hc, asset_vals_written. }
  assert (av = val_name <$> asset_pairs.*1) as ->.
  { apply (coalesce_loop_vars _ _ _ _ _) in Hrun2; [done|].
    intros p Hp. destruct (reads_not_written p p.1) as (Hc & _ & Hnw); [|by left|].
    { apply elem_of_app. by right. }
    rewrite (Hkeep1 _ Hnw), (Hcat _ Hc). by eexists. }
  pose proof (coalesce_loop_columns _ _ _ _ _ Hrun2 Hnd_a) as Hcols2.
  (* the vehicle adjustment *)
  destruct vehicle_in_catalog as [Hveh Hveh_it].
  pose proof catalog_not_written as Hnw. rewrite Forall_forall in Hnw.
  pose proof (Hkeep2 _ (Hnw _ Hveh)) as Hv. rewrite (Hcat _ Hveh) in Hv.
  pose proof (Hkeep2 _ (Hnw _ Hveh_it)) as Hvit. rewrite (Hcat _ Hveh_it) in Hvit.
  set (adj_exact := default (replicate (nrows hh_df) NaN)
                      (columns hh_df !! vehicle_in_business_col)) in *.
  set (adj_codes := default (replicate (nrows hh_df) NaN)
                      (columns hh_df !! vehicle_in_business_col_it)) in *.
  assert (midpoints vehicle_in_business_col_it adj_codes
          = Return (lookup_midpoint "c7062it" <$> adj_codes)) as Hmid.
  { by apply midpoints_base. }
  set (adj := combine_first adj_exact (lookup_midpoint "c7062it" <$> adj_codes)).
  assert (coalesce_vehicle hh2 = Return (set_col hh2 vehicle_adj_val_col adj)) as Hrun3.
  { unfold coalesce_vehicle. by rewrite Hv, Hvit, Hmid. }
  exists hh0, (set_col hh2 vehicle_adj_val_col adj).
  split; [exact Hens|]. split; [exact Hn0|]. split; [exact Hwf0|].
  split; [exact Hcat|].
  split; [|split; [|split; [|split; [|split]]]].
  - apply set_col_wf; [done|]. unfold adj, combine_first.
    rewrite length_zip_with, length_fmap.
    rewrite (Hwf2 _ _ Hv), (Hwf2 _ _ Hvit). lia.
  - simpl. by rewrite Hn2, Hn1.
  - intros p Hp. unfold set_col; simpl.
    assert (val_name p.1 ∈ (val_name <$> debt_pairs.*1) ++ (val_name <$> asset_pairs.*1))
      as Hval.
    { rewrite elem_of_app. apply elem_of_app in Hp as [Hp|Hp];
        [left | right]; by apply val_of_pair_in. }
    destruct (Hother _ Hval) as [Hne _]. rewrite lookup_insert_ne by done.
    apply elem_of_app in Hp as [Hp|Hp].
    + destruct (Hcols1) with (p := p) as (s & Hs & Hlook); [|done|].
      { intros q c Hq Hc Hin.
        destruct (reads_not_written q c) as (_ & _ & Hc'); [|done|].
        - apply elem_of_app. by left.
        - by apply Hc', debt_vals_written. }
      exists s. split; [done|]. rewrite Hframe2; [done|].
      apply Hda. by apply val_of_pair_in.
    + destruct (Hcols2) with (p := p) as (s & Hs & Hlook); [|done|].
      { intros q c Hq Hc Hin.
        destruct (reads_not_written q c) as (_ & _ & Hc'); [|done|].
        - apply elem_of_app. by right.
        - by apply Hc', asset_vals_written. }
      exists s. split; [|done]. rewrite <-Hs. symmetry.
      apply coalesced_column_congr; [done | |].
      * apply Hkeep1. eapply reads_not_written; [|by left].
        apply elem_of_app. by right.
      * intros it Hit. apply Hkeep1.
        eapply (reads_not_written p); [apply elem_of_app; by right|].
        unfold reads. rewrite Hit. right. by left.
  - intros c Hc. unfold set_col; simpl. rewrite lookup_insert_ne.
    + by apply Hkeep2.
    + intros <-. apply Hc. unfold written_names. rewrite !elem_of_app.
      right. right. left. by left.
  - unfold set_col; simpl. rewrite lookup_insert_eq. by eexists.
  - unfold coalesce_loop. fold debt_pairs asset_pairs.
    rewrite Hrun1. cbn [mbind result_bind]. rewrite Hrun2.
    cbn [mbind result_bind]. by rewrite Hrun3.
Qed.

(** ** The aggregator *)

Lemma floor_at_0_nonneg x : (0 ≤ floor_at_0 x)%Qc.
Proof. unfold floor_at_0. case_decide; [done|]. by apply Qcnot_lt_le. Qed.

Lemma sum_axis1_lookup n (cols : list Series) r :
  (r < n)%nat →
  sum_axis1 n cols !! r
  = Some (Some (foldr Qcplus 0%Qc ((λ s, default 0%Qc (mjoin (s !! r))) <$> cols))).
Proof.
  intros Hr. unfold sum_axis1. rewrite list_lookup_fmap, lookup_seq_lt by done.
  done.
Qed.

Lemma length_sum_axis1 n cols : length (sum_axis1 n cols) = n.
Proof. unfold sum_axis1. by rewrite length_fmap, length_seq. Qed.

Lemma fillna_cell (s : Series) r :
  default 0%Qc (mjoin (fillna 0%Qc s !! r)) = default 0%Qc (mjoin (s !! r)).
Proof.
  unfold fillna. rewrite list_lookup_fmap. by destruct (s !! r) as [[?|]|].
Qed.

(** Summing the valid coalesced columns, 0-filled, is summing the named
    cells with missing as 0. *)
Lemma total_lookup (hh_df df : DataFrame) names r :
  (r < nrows hh_df)%nat →
  (∀ c, c ∈ names → columns df !! c = columns hh_df !! c) →
  sum_axis1 (nrows hh_df)
    (fillna 0%Qc <$> select_columns df (filter (λ c, has_col hh_df c) names)) !! r
  = Some (Some (row_sum hh_df names r)).
Proof.
  intros Hr Hsame. rewrite sum_axis1_lookup by done. do 2 f_equal.
  unfold row_sum, select_columns.
  induction names as [|c names IH]; [done|].
  assert (∀ c, c ∈ names → columns df !! c = columns hh_df !! c) as Hsame'.
  { intros c' Hc'. apply Hsame. by right. }
  specialize (IH Hsame').
  csimpl. unfold cell_at at 1.
  destruct (has_col hh_df c) eqn:Hhas.
  - rewrite filter_cons_True by by apply Is_true_true.
    apply bool_decide_eq_true in Hhas as [s Hc].
    csimpl. rewrite (Hsame c) by by left. rewrite Hc. csimpl.
    by rewrite fillna_cell, IH.
  - rewrite filter_cons_False by by apply Is_true_false.
    apply bool_decide_eq_false in Hhas.
    destruct (columns hh_df !! c) as [s|] eqn:Hc; [by destruct Hhas|].
    simpl. by rewrite IH, Qcplus_0_l.
Qed.

Lemma total_assets_lookup (df : DataFrame) (raw adj : Series) r x :
  columns df !! vehicle_adj_val_col = Some adj →
  (r < length adj)%nat →
  raw !! r = Some (Some x) →
  total_assets_column df raw !! r
  = Some (Some (floor_at_0 (x - default 0%Qc (mjoin (adj !! r))))).
Proof.
  intros Hadj Hr Hraw. unfold total_assets_column. rewrite Hadj.
  destruct (lookup_lt_is_Some_2 adj r Hr) as [a Ha].
  rewrite list_lookup_fmap, lookup_zip_with, Hraw. unfold fillna.
  rewrite list_lookup_fmap, Ha. simpl. unfold floor_at_0.
  by case_decide.
Qed.

Lemma epsilon_pos : (0 < epsilon)%Qc.
Proof. done. Qed.

Lemma debt_ratio_lookup (total_debt total_assets : Series) r d a :
  total_debt !! r = Some (Some d) →
  total_assets !! r = Some (Some a) →
  (0 ≤ a)%Qc →
  debt_ratio_column total_debt total_assets !! r = Some (debt_ratio_of d a).
Proof.
  intros Hd Ha Hnonneg. unfold debt_ratio_column, loc_assign.
  cbv zeta.
  repeat (rewrite lookup_zip_with; rewrite ?list_lookup_fmap, ?Hd, ?Ha; simpl).
  assert (a + epsilon ≠ 0)%Qc as Hne.
  { intros Heq. pose proof (Qcplus_nonneg_pos a epsilon Hnonneg epsilon_pos) as Hpos.
    rewrite Heq in Hpos. by apply Qclt_not_eq in Hpos. }
  rewrite decide_False by done. unfold debt_ratio_of. f_equal.
  destruct (decide (a = 0%Qc)) as [Ha0|Ha0].
  - rewrite (bool_decide_true (a = _)) by done. rewrite !andb_true_r.
    destruct (decide (0 < d)%Qc) as [Hpos|Hnpos].
    + rewrite bool_decide_true by done.
      rewrite decide_False, decide_True; [done | done |].
      intros [-> _]. by apply Qclt_not_eq in Hpos.
    + rewrite bool_decide_false by done.
      rewrite (decide_False (P := (0 < d)%Qc ∧ _)) by tauto.
      destruct (decide (d = 0%Qc)) as [Hd0|Hd0].
      * rewrite bool_decide_true by done. by rewrite decide_True.
      * rewrite bool_decide_false by done. rewrite decide_False; [done|]. tauto.
  - rewrite (bool_decide_false (a = _)) by done. rewrite !andb_false_r.
    rewrite !decide_False; [done | tauto | tauto].
Qed.

Lemma vehicle_adj_val_col_eq : vehicle_adj_val_col = "c7062_val".
Proof. reflexivity. Qed.

(** What the aggregator adds to a well-formed frame that has the vehicle
    adjustment column. *)
Lemma aggregate_spec hh_df dv av :
  df_wf hh_df →
  is_Some (columns hh_df !! vehicle_adj_val_col) →
  "total_debt" ∉ av →
  ∃ out log total_debt total_assets_raw total_assets,
    aggregate hh_df dv av = (out, log)
    ∧ nrows out = nrows hh_df
    ∧ (∀ c, c ∉ aggregate_names → columns out !! c = columns hh_df !! c)
    ∧ columns out !! "total_debt" = Some total_debt
    ∧ columns out !! "total_assets_raw" = Some total_assets_raw
    ∧ columns out !! "total_assets" = Some total_assets
    ∧ columns out !! "debt_ratio"
      = Some (debt_ratio_column total_debt total_assets)
    ∧ columns out !! "debt_ratio_winsorized"
      = Some (winsorized_column (nrows hh_df)
                (debt_ratio_column total_debt total_assets)).1
    ∧ ∀ r, (r < nrows hh_df)%nat →
        total_debt !! r = Some (Some (row_sum hh_df dv r))
        ∧ total_assets_raw !! r = Some (Some (row_sum hh_df av r))
        ∧ total_assets !! r
          = Some (Some (floor_at_0
                          (row_sum hh_df av r
                           - default 0%Qc (cell_at hh_df vehicle_adj_val_col r)))).
Proof.
  intros Hwf [adj Hadj] Hav. unfold aggregate.
  set (td := sum_axis1 (nrows hh_df)
               (fillna 0%Qc <$> select_columns hh_df
                  (filter (λ c, has_col hh_df c) dv))).
  set (h1 := set_col hh_df "total_debt" td).
  set (raw := sum_axis1 (nrows h1)
                (fillna 0%Qc <$> select_columns h1
                   (filter (λ c, has_col hh_df c) av))).
  set (h2 := set_col h1 "total_assets_raw" raw).
  set (ta := total_assets_column h2 raw).
  set (h3 := set_col h2 "total_assets" ta).
  set (ratio := debt_ratio_column td ta).
  set (h4 := set_col h3 "debt_ratio" ratio).
  destruct (winsorized_column (nrows h4) ratio) as [w log] eqn:Hw.
  exists (set_col h4 "debt_ratio_winsorized" w), log, td, raw, ta.
  split; [done|]. split; [done|].
  split; [|split; [|split; [|split; [|split; [|split]]]]].
  - intros c Hc. unfold aggregate_names in Hc.
    rewrite !not_elem_of_cons in Hc. destruct Hc as (? & ? & ? & ? & ? & _).
    unfold h4, h3, h2, h1, set_col; simpl. by rewrite !lookup_insert_ne.
  - unfold h4, h3, h2, h1, set_col; simpl.
    rewrite !lookup_insert_ne by done. by rewrite lookup_insert_eq.
  - unfold h4, h3, h2, set_col; simpl.
    rewrite !lookup_insert_ne by done. by rewrite lookup_insert_eq.
  - unfold h4, h3, set_col; simpl.
    rewrite !lookup_insert_ne by done. by rewrite lookup_insert_eq.
  - unfold h4, set_col; simpl.
    rewrite !lookup_insert_ne by done. by rewrite lookup_insert_eq.
  - unfold set_col; simpl. rewrite lookup_insert_eq.
    change (winsorized_column (nrows h4) ratio)
      with (winsorized_column (nrows hh_df) (debt_ratio_column td ta)) in Hw.
    by rewrite Hw.
  - intros r Hr.
    assert (td !! r = Some (Some (row_sum hh_df dv r))) as Htd.
    { by apply total_lookup. }
    assert (raw !! r = Some (Some (row_sum hh_df av r))) as Hraw.
    { apply (total_lookup hh_df h1); [done|].
      intros c Hc. unfold h1, set_col; simpl. rewrite lookup_insert_ne; [done|].
      by intros <-. }
    split; [done|]. split; [done|].
    assert (columns h2 !! vehicle_adj_val_col = Some adj) as Hadj2.
    { unfold h2, h1, set_col; simpl. rewrite vehicle_adj_val_col_eq in *.
      by rewrite !lookup_insert_ne. }
    unfold ta. rewrite (total_assets_lookup h2 raw adj r (row_sum hh_df av r) Hadj2);
      [|by rewrite (Hwf _ _ Hadj)|done].
    unfold cell_at. by rewrite Hadj.
Qed.

(** The whole household pipeline on a well-formed table: it returns, and
    its result is the aggregator applied to the coalesced frame. *)
Lemma process_household_spec hh_df :
  df_wf hh_df →
  ∃ hh0 hh3 out log',
    ensure_columns hh_df = (hh0, length (filter (absent hh_df) all_vars_needed))
    ∧ nrows hh0 = nrows hh_df
    ∧ df_wf hh0
    ∧ (∀ c, c ∈ catalog_names →
         columns hh0 !! c
         = Some (default (replicate (nrows hh_df) NaN) (columns hh_df !! c)))
    ∧ df_wf hh3
    ∧ nrows hh3 = nrows hh_df
    ∧ (∀ p, p ∈ debt_pairs ++ asset_pairs →
         ∃ s, coalesced_column hh0 p = Return s
              ∧ columns hh3 !! val_name p.1 = Some s)
    ∧ (∀ c, c ∉ written_names → columns hh3 !! c = columns hh0 !! c)
    ∧ is_Some (columns hh3 !! vehicle_adj_val_col)
    ∧ aggregate hh3 (val_name <$> debt_pairs.*1) (val_name <$> asset_pairs.*1)
      = (out, log')
    ∧ process_household hh_df
      = Return (out,
                (let n := length (filter (absent hh_df) all_vars_needed) in
                 if decide (0 < n)%nat then [MissingColumnsCreated n] else [])
                ++ log').
Proof.
  intros Hwf.
  destruct (coalescing_spec hh_df Hwf)
    as (hh0 & hh3 & Hens & Hn0 & Hwf0 & Hcat & Hwf3 & Hn3 & Hvals & Hkeep & Hveh
        & Hrun).
  remember (val_name <$> debt_pairs.*1) as dvs eqn:Hdvs.
  remember (val_name <$> asset_pairs.*1) as avs eqn:Havs.
  destruct (aggregate hh3 dvs avs) as [out log'] eqn:Hagg.
  exists hh0, hh3, out, log'.
  do 9 (split; [assumption|]). split; [assumption|].
  unfold process_household. rewrite Hens.
  destruct (coalesce_loop all_debt_exact_vars all_debt_interval_vars hh0)
    as [|[hh1 dv]]; [done|].
  cbn [mbind result_bind] in Hrun |- *.
  destruct (coalesce_loop all_asset_exact_vars all_asset_interval_vars hh1)
    as [|[hh2 av]]; [done|].
  cbn [mbind result_bind] in Hrun |- *.
  destruct (coalesce_vehicle hh2) as [|hh3']; [done|].
  cbn [mbind result_bind] in Hrun |- *.
  injection Hrun as Heq1 Heq2 Heq3. subst hh3' dv av. by rewrite Hagg.
Qed.

Lemma paired_by_index_fst exact_vars interval_vars :
  (paired_by_index exact_vars interval_vars).*1 = exact_vars.
Proof.
  unfold paired_by_index. apply list_eq. intros i.
  rewrite list_lookup_fmap, list_lookup_imap. by destruct (exact_vars !! i).
Qed.

Lemma row_sum_ext df1 df2 names r :
  (∀ c, c ∈ names → columns df1 !! c = columns df2 !! c) →
  row_sum df1 names r = row_sum df2 names r.
Proof.
  intros Hsame. unfold row_sum. f_equal. apply list_fmap_ext.
  intros i c Hc. unfold cell_at. rewrite Hsame; [done|].
  by eapply list_elem_of_lookup_2.
Qed.

(** The totals of the household pipeline on a well-formed table. *)
Lemma household_totals hh_df :
  df_wf hh_df →
  ∃ out log total_debt total_assets_raw total_assets,
    process_household hh_df = Return (out, log)
    ∧ nrows out = nrows hh_df
    ∧ columns out !! "total_debt" = Some total_debt
    ∧ columns out !! "total_assets_raw" = Some total_assets_raw
    ∧ columns out !! "total_assets" = Some total_assets
    ∧ columns out !! "debt_ratio"
      = Some (debt_ratio_column total_debt total_assets)
    ∧ ∀ r, (r < nrows hh_df)%nat →
        total_debt !! r = Some (Some (row_sum out coalesced_debt_names r))
        ∧ total_assets_raw !! r
          = Some (Some (row_sum out coalesced_asset_names r))
        ∧ total_assets !! r
          = Some (Some (floor_at_0
                          (row_sum out coalesced_asset_names r
                           - default 0%Qc (cell_at out vehicle_adj_val_col r)))).
Proof.
  intros Hwf.
  destruct (process_household_spec hh_df Hwf)
    as (hh0 & hh3 & out & log' & _ & _ & _ & _ & Hwf3 & Hn3 & _ & _ & Hveh & Hagg
        & Hrun).
  destruct written_parts as (_ & _ & _ & Hother & Hveh_agg).
  destruct (aggregate_spec hh3 (val_name <$> debt_pairs.*1)
              (val_name <$> asset_pairs.*1) Hwf3 Hveh)
    as (out' & log'' & td & raw & ta & Hagg' & Hn & Hkeep & Htd & Hraw & Hta
        & Hratio & _ & Hrows).
  { intros Hin. destruct (Hother "total_debt") as [_ Hnot].
    - apply elem_of_app. by right.
    - apply Hnot. by left. }
  rewrite Hagg in Hagg'. injection Hagg' as <- <-.
  eexists out, _, td, raw, ta. split; [exact Hrun|].
  split; [by rewrite Hn|]. do 4 (split; [done|]).
  intros r Hr. rewrite <-Hn3 in Hr. destruct (Hrows r Hr) as (Hd & Hr' & Ha).
  unfold coalesced_debt_names, coalesced_asset_names.
  unfold debt_pairs, asset_pairs in *. rewrite !paired_by_index_fst in *.
  assert (row_sum out (val_name <$> all_debt_exact_vars) r
          = row_sum hh3 (val_name <$> all_debt_exact_vars) r) as ->.
  { apply row_sum_ext. intros c Hc. apply Hkeep.
    apply (Hother c). apply elem_of_app. by left. }
  assert (row_sum out (val_name <$> all_asset_exact_vars) r
          = row_sum hh3 (val_name <$> all_asset_exact_vars) r) as ->.
  { apply row_sum_ext. intros c Hc. apply Hkeep.
    apply (Hother c). apply elem_of_app. by right. }
  assert (cell_at out vehicle_adj_val_col r = cell_at hh3 vehicle_adj_val_col r) as ->.
  { unfold cell_at. by rewrite Hkeep. }
  split; [exact Hd|]. split; [exact Hr'|exact Ha].
Qed.

Lemma hh_example_wf : df_wf hh_example.
Proof. apply df_wf_decidable. vm_compute. exact I. Qed.

(** C10: in the output, [total_debt] and [total_assets] are defined
    numbers for every household: the first is the sum of the coalesced
    debt columns with missing as 0, the second the sum of the coalesced
    asset columns with missing as 0, less the vehicle adjustment, floored
    at 0. *)
Theorem totals_never_missing hh_df :
  df_wf hh_df →
  ∃ out log total_debt total_assets,
    process_household hh_df = Return (out, log)
    ∧ nrows out = nrows hh_df
    ∧ columns out !! "total_debt" = Some total_debt
    ∧ columns out !! "total_assets" = Some total_assets
    ∧ ∀ r, (r < nrows hh_df)%nat →
        total_debt !! r = Some (Some (row_sum out coalesced_debt_names r))
        ∧ total_assets !! r
          = Some (Some (floor_at_0
                          (row_sum out coalesced_asset_names r
                           - default 0%Qc (cell_at out vehicle_adj_val_col r)))).
Proof.
  intros Hwf.
  destruct (household_totals hh_df Hwf)
    as (out & log & td & raw & ta & Hrun & Hn & Htd & _ & Hta & _ & Hrows).
  exists out, log, td, ta. do 4 (split; [done|]).
  intros r Hr. destruct (Hrows r Hr) as (Hd & _ & Ha). exact (conj Hd Ha).
Qed.

Lemma totals_never_missing_witness :
  ∃ out log total_debt total_assets,
    process_household hh_example = Return (out, log)
    ∧ columns out !! "total_debt" = Some total_debt
    ∧ columns out !! "total_assets" = Some total_assets
    ∧ (∃ d, total_debt !! 1%nat = Some (Some d))
    ∧ (∃ a, total_assets !! 1%nat = Some (Some a)).
Proof.
  destruct (totals_never_missing hh_example hh_example_wf)
    as (out & log & td & ta & Hrun & _ & Htd & Hta & Hrows).
  exists out, log, td, ta. do 3 (split; [done|]).
  destruct (Hrows 1%nat) as [Hd Ha]; [simpl; lia|].
  split; eexists; [exact Hd | exact Ha].
Defined.

(** C5: [total_assets] is never negative: for every household it is
    [total_assets_raw] minus the vehicle-in-business adjustment (a missing
    adjustment counting 0), floored at 0. *)
Theorem total_assets_nonneg hh_df :
  df_wf hh_df →
  ∃ out log total_assets_raw total_assets,
    process_household hh_df = Return (out, log)
    ∧ columns out !! "total_assets_raw" = Some total_assets_raw
    ∧ columns out !! "total_assets" = Some total_assets
    ∧ ∀ r, (r < nrows hh_df)%nat →
        ∃ raw a,
          total_assets_raw !! r = Some (Some raw)
          ∧ total_assets !! r = Some (Some a)
          ∧ a = floor_at_0
                  (raw - default 0%Qc (cell_at out vehicle_adj_val_col r))
          ∧ (0 ≤ a)%Qc.
Proof.
  intros Hwf.
  destruct (household_totals hh_df Hwf)
    as (out & log & td & raw & ta & Hrun & Hn & _ & Hraw & Hta & _ & Hrows).
  exists out, log, raw, ta. do 3 (split; [assumption|]).
  intros r Hr. destruct (Hrows r Hr) as (_ & Hr' & Ha).
  eexists _, _. split; [exact Hr'|]. split; [exact Ha|].
  split; [reflexivity | apply floor_at_0_nonneg].
Qed.

Lemma total_assets_nonneg_witness :
  ∃ out log total_assets,
    process_household hh_example = Return (out, log)
    ∧ columns out !! "total_assets" = Some total_assets
    ∧ ∃ a, total_assets !! 0%nat = Some (Some a) ∧ (0 ≤ a)%Qc.
Proof.
  destruct (total_assets_nonneg hh_example hh_example_wf)
    as (out & log & raw & ta & Hrun & _ & Hta & Hrows).
  exists out, log, ta. do 2 (split; [assumption|]).
  destruct (Hrows 0%nat) as (x & a & _ & Ha & _ & Hpos); [simpl; lia|].
  exists a. exact (conj Ha Hpos).
Defined.

Lemma debt_ratio_of_nonneg d a :
  (0 ≤ d)%Qc → (0 ≤ a)%Qc → (0 ≤ d / (a + epsilon))%Qc.
Proof.
  intros Hd Ha. unfold Qcdiv. apply Qcmult_nonneg_nonneg; [done|].
  apply Qclt_le_weak, Qcinv_pos. by apply Qcplus_nonneg_pos.
Qed.

(** C3: for every household, [debt_ratio] is exactly 0 when [total_debt]
    and [total_assets] are both 0, is missing when [total_debt > 0] and
    [total_assets = 0], and otherwise is the number
    [total_debt / (total_assets + epsilon)], which is non-negative
    whenever [total_debt] is. *)
Theorem debt_ratio_cases hh_df :
  df_wf hh_df →
  ∃ out log total_debt total_assets debt_ratio,
    process_household hh_df = Return (out, log)
    ∧ columns out !! "total_debt" = Some total_debt
    ∧ columns out !! "total_assets" = Some total_assets
    ∧ columns out !! "debt_ratio" = Some debt_ratio
    ∧ ∀ r, (r < nrows hh_df)%nat →
        ∃ d a,
          total_debt !! r = Some (Some d)
          ∧ total_assets !! r = Some (Some a)
          ∧ (d = 0%Qc → a = 0%Qc → debt_ratio !! r = Some (Some 0%Qc))
          ∧ ((0 < d)%Qc → a = 0%Qc → debt_ratio !! r = Some NaN)
          ∧ (¬ (d = 0%Qc ∧ a = 0%Qc) → ¬ ((0 < d)%Qc ∧ a = 0%Qc) →
               debt_ratio !! r = Some (Some (d / (a + epsilon))%Qc)
               ∧ ((0 ≤ d)%Qc → (0 ≤ d / (a + epsilon))%Qc)).
Proof.
  intros Hwf.
  destruct (household_totals hh_df Hwf)
    as (out & log & td & raw & ta & Hrun & Hn & Htd & _ & Hta & Hratio & Hrows).
  exists out, log, td, ta, (debt_ratio_column td ta).
  do 4 (split; [assumption|]).
  intros r Hr. destruct (Hrows r Hr) as (Hd & _ & Ha).
  eexists _, _. split; [exact Hd|]. split; [exact Ha|].
  set (d := row_sum out coalesced_debt_names r) in *.
  set (a := floor_at_0
              (row_sum out coalesced_asset_names r
               - default 0%Qc (cell_at out vehicle_adj_val_col r))) in *.
  assert (0 ≤ a)%Qc as Hnonneg by apply floor_at_0_nonneg.
  rewrite (debt_ratio_lookup td ta r d a Hd Ha Hnonneg).
  clearbody d a. clear - Hnonneg. unfold debt_ratio_of.
  split; [|split].
  - intros Hd0 Ha0. by rewrite decide_True.
  - intros Hpos Ha0. rewrite decide_False; [by rewrite decide_True|].
    intros [-> _]. by apply Qclt_not_eq in Hpos.
  - intros H1 H2. rewrite !decide_False by done. split; [done|].
    intros Hd. by apply debt_ratio_of_nonneg.
Qed.

Lemma debt_ratio_cases_witness :
  ∃ out log (total_debt total_assets debt_ratio : Series),
    process_household hh_example = Return (out, log)
    ∧ columns out !! "debt_ratio" = Some debt_ratio
    ∧ ∃ d a,
        total_debt !! 1%nat = Some (Some d)
        ∧ total_assets !! 1%nat = Some (Some a)
        ∧ ((0 < d)%Qc → a = 0%Qc → debt_ratio !! 1%nat = Some NaN).
Proof.
  destruct (debt_ratio_cases hh_example hh_example_wf)
    as (out & log & td & ta & ratio & Hrun & Htd & Hta & Hratio & Hrows).
  exists out, log, td, ta, ratio. do 2 (split; [assumption|]).
  destruct (Hrows 1%nat) as (d & a & Hd & Ha & _ & Hmiss & _); [simpl; lia|].
  exists d, a. exact (conj Hd (conj Ha Hmiss)).
Defined.

(** ** Coalesced columns *)

Lemma combine_first_lookup (a b : Series) r x y :
  a !! r = Some x → b !! r = Some y →
  combine_first a b !! r = Some (match x with Some _ => x | None => y end).
Proof.
  intros Ha Hb. unfold combine_first. by rewrite lookup_zip_with, Ha, Hb.
Qed.

Lemma combine_first_all_missing n (b : Series) :
  length b = n → combine_first (replicate n NaN) b = b.
Proof.
  intros <-. unfold combine_first.
  induction b as [|y b IH]; [done|]. simpl. by rewrite IH.
Qed.

(** The round for [pair], run on a frame in which its fields are columns:
    the fallback codes are resolved and fill the gaps of the exact
    series; without a fallback field the exact series is kept. *)
Lemma coalesced_column_present hh_df pair s exact_series :
  df_wf hh_df →
  columns hh_df !! pair.1 = Some exact_series →
  (∀ it, pair.2 = Some it → it ≠ "" ∧ is_Some (columns hh_df !! it)) →
  coalesced_column hh_df pair = Return s →
  match pair.2 with
  | None => s = exact_series
  | Some it =>
      ∃ codes midpoint_col,
        columns hh_df !! it = Some codes
        ∧ midpoints it codes = Return midpoint_col
        ∧ length midpoint_col = nrows hh_df
        ∧ s = combine_first exact_series midpoint_col
  end.
Proof.
  intros Hwf Hex Hit. unfold coalesced_column, interval_column. rewrite Hex.
  destruct pair.2 as [it|]; simpl; [|by intros [= <-]].
  destruct (Hit it eq_refl) as [Hne [codes Hcodes]].
  rewrite decide_False by done. rewrite Hcodes. simpl.
  destruct (midpoints it codes) as [|mids] eqn:Hm; [done|]. intros [= <-].
  exists codes, mids. split; [done|]. split; [done|]. split; [|done].
  rewrite (length_midpoints _ _ _ Hm). by apply (Hwf it).
Qed.

(** What the pipeline leaves in the coalesced column of a catalog pair,
    in terms of the source table: [exact_series] and [codes] are the
    source columns, all-missing where the source lacks them. *)
Lemma coalesced_in_output hh_df pair :
  df_wf hh_df →
  pair ∈ debt_pairs ++ asset_pairs →
  let n := nrows hh_df in
  let exact_series := default (replicate n NaN) (columns hh_df !! pair.1) in
  ∃ out log coalesced,
    process_household hh_df
      = Return (out,
                (let k := length (filter (absent hh_df) all_vars_needed) in
                 if decide (0 < k)%nat then [MissingColumnsCreated k] else [])
                ++ log)
    ∧ columns out !! pair.1 = Some exact_series
    ∧ length exact_series = n
    ∧ columns out !! val_name pair.1 = Some coalesced
    ∧ match pair.2 with
      | None => coalesced = exact_series
      | Some it =>
          ∃ midpoint_col,
            midpoints it (default (replicate n NaN) (columns hh_df !! it))
              = Return midpoint_col
            ∧ length midpoint_col = n
            ∧ coalesced = combine_first exact_series midpoint_col
      end.
Proof.
  intros Hwf Hp n exact_series.
  destruct (process_household_spec hh_df Hwf)
    as (hh0 & hh3 & out & log' & _ & Hn0 & Hwf0 & Hcat & Hwf3 & Hn3 & Hvals
        & Hkeep3 & Hveh & Hagg & Hrun).
  destruct written_parts as (_ & _ & _ & Hother & _).
  destruct (aggregate_spec hh3 (val_name <$> debt_pairs.*1)
              (val_name <$> asset_pairs.*1) Hwf3 Hveh)
    as (out' & log'' & td & raw & ta & Hagg' & _ & Hkeep & _).
  { intros Hin. destruct (Hother "total_debt") as [_ Hnot].
    - apply elem_of_app. by right.
    - apply Hnot. by left. }
  rewrite Hagg in Hagg'. injection Hagg' as <- <-.
  destruct (Hvals pair Hp) as (s & Hs & Hlook).
  destruct (reads_not_written pair pair.1 Hp) as (Hcat1 & _ & Hnw1); [by left|].
  assert (val_name pair.1 ∉ aggregate_names) as Hval_agg.
  { apply (Hother (val_name pair.1)). rewrite elem_of_app.
    apply elem_of_app in Hp as [Hp|Hp]; [left | right]; by apply val_of_pair_in. }
  assert (pair.1 ∉ aggregate_names) as Hagg1.
  { intros Hin. apply Hnw1. unfold written_names. rewrite !elem_of_app. by do 3 right. }
  assert (columns hh0 !! pair.1 = Some exact_series) as Hex0 by by apply Hcat.
  exists out, log', s. split; [exact Hrun|].
  split; [by rewrite (Hkeep _ Hagg1), (Hkeep3 _ Hnw1)|].
  split; [unfold n; rewrite <-Hn0; by apply (Hwf0 pair.1)|].
  split; [by rewrite (Hkeep _ Hval_agg)|].
  pose proof (coalesced_column_present hh0 pair s exact_series Hwf0 Hex0) as Hpresent.
  destruct pair.2 as [it|] eqn:Hit.
  - destruct (reads_not_written pair it Hp) as (Hcat_it & Hne & _).
    { unfold reads. rewrite Hit. right. by left. }
    destruct Hpresent as (codes & mids & Hcodes & Hmids & Hlen & ->); [|done|].
    { intros it' [= <-]. split; [done|]. rewrite (Hcat _ Hcat_it). by eexists. }
    rewrite (Hcat _ Hcat_it) in Hcodes. injection Hcodes as <-.
    exists mids. split; [exact Hmids|]. split; [unfold n; by rewrite <-Hn0|done].
  - apply Hpresent; [|done]. by intros it [=].
Qed.

Lemma paired_by_index_elem exact_vars interval_vars exact :
  exact ∈ exact_vars →
  ∃ interval, (exact, interval) ∈ paired_by_index exact_vars interval_vars.
Proof.
  intros [i Hi]%list_elem_of_lookup_1. exists (interval_vars !! i).
  apply list_elem_of_lookup_2 with i. unfold paired_by_index.
  by rewrite list_lookup_imap, Hi.
Qed.

Lemma catalog_pair_of_exact exact :
  exact ∈ all_debt_exact_vars ++ all_asset_exact_vars →
  ∃ interval, (exact, interval) ∈ debt_pairs ++ asset_pairs.
Proof.
  intros [Hin|Hin]%elem_of_app.
  - destruct (paired_by_index_elem _ all_debt_interval_vars _ Hin) as [it Hit].
    exists it. apply elem_of_app. by left.
  - destruct (paired_by_index_elem _ all_asset_interval_vars _ Hin) as [it Hit].
    exists it. apply elem_of_app. by right.
Qed.

(** C4: wherever the exact value of a catalog concept is present, the
    coalesced value is that exact value, whatever the interval codes are;
    the coalesced value differs from the exact one only where the exact
    value is missing. *)
Theorem exact_value_wins hh_df exact (exact_series : Series) :
  df_wf hh_df →
  exact ∈ all_debt_exact_vars ++ all_asset_exact_vars →
  columns hh_df !! exact = Some exact_series →
  ∃ out log (coalesced : Series),
    process_household hh_df = Return (out, log)
    ∧ columns out !! val_name exact = Some coalesced
    ∧ ∀ r, (r < nrows hh_df)%nat →
        (∀ v, exact_series !! r = Some (Some v) → coalesced !! r = Some (Some v))
        ∧ (coalesced !! r ≠ exact_series !! r → exact_series !! r = Some NaN).
Proof.
  intros Hwf Hin Hex.
  destruct (catalog_pair_of_exact exact Hin) as [interval Hp].
  destruct (coalesced_in_output hh_df (exact, interval) Hwf Hp)
    as (out & log & s & Hrun & _ & Hlen & Hval & Hs).
  simpl in Hlen, Hval, Hs. rewrite Hex in Hlen, Hs. simpl in Hlen, Hs.
  eexists out, _, s. split; [exact Hrun|]. split; [exact Hval|].
  clear Hrun Hval Hp Hin. intros r Hr.
  destruct (lookup_lt_is_Some_2 exact_series r) as [x Hx]; [by rewrite Hlen|].
  destruct interval as [it|].
  - destruct Hs as (mids & _ & Hlen_m & ->).
    destruct (lookup_lt_is_Some_2 mids r) as [y Hy]; [by rewrite Hlen_m|].
    rewrite (combine_first_lookup _ _ _ _ _ Hx Hy), Hx. split.
    + by intros v [= ->].
    + intros Hne. destruct x as [v|]; [by destruct Hne | done].
  - subst s. split; [done|]. by intros [].
Qed.

Lemma exact_value_wins_witness :
  ∃ out log (coalesced : Series),
    process_household hh_example = Return (out, log)
    ∧ columns out !! val_name "c7060" = Some coalesced
    ∧ coalesced !! 0%nat = Some (Some (num 1000)).
Proof.
  destruct (exact_value_wins hh_example "c7060"
              [Some (num 1000); Some (num 500); NaN] hh_example_wf)
    as (out & log & s & Hrun & Hval & Hrows).
  - apply (bool_decide_unpack _). vm_compute. exact I.
  - reflexivity.
  - exists out, log, s. split; [exact Hrun|]. split; [exact Hval|].
    destruct (Hrows 0%nat) as [Hwins _]; [simpl; lia|]. by apply Hwins.
Defined.

(** ** Exact fields absent from the source table *)

Lemma output_column_run hh_df out log c :
  process_household hh_df = Return (out, log) →
  output_column hh_df c = columns out !! c.
Proof. intros Hrun. unfold output_column. by rewrite Hrun. Qed.

Lemma hh_without_exact_run :
  output_column hh_without_exact "c7052b_val" = Some [Some (num 5000)]
  ∧ output_column hh_without_exact "c7052b" = Some [NaN]
  ∧ output_log hh_without_exact
    = Some [MissingColumnsCreated 115].
Proof. split; [|split]; vm_compute; reflexivity. Qed.

Lemma elem_of_length_pos {A} (x : A) (l : list A) : x ∈ l → (0 < length l)%nat.
Proof. destruct l; [by intros ?%elem_of_nil | simpl; lia]. Qed.

Lemma exact_in_catalog exact :
  exact ∈ all_debt_exact_vars ++ all_asset_exact_vars → exact ∈ catalog_names.
Proof.
  unfold catalog_names. rewrite !elem_of_app. intros [?|?]; auto.
Qed.

(** After the synthesis pass every exact field of the catalog is a column,
    whatever the source table: the test [exact not in hh_df] of the loops
    is never true. *)
Lemma exact_column_after_synthesis hh_df exact :
  exact ∈ all_debt_exact_vars ++ all_asset_exact_vars →
  has_col (ensure_columns hh_df).1 exact = true.
Proof.
  intros Hin%exact_in_catalog.
  destruct (ensure_columns_spec hh_df) as (hh0 & Hens & _ & Hcat & _).
  rewrite Hens. cbn [fst]. unfold has_col. apply bool_decide_eq_true.
  rewrite (Hcat exact Hin). by eexists.
Qed.

(** With an exact field absent from the source the pipeline returns, the
    number of created columns is positive and reported, and the field is
    in the output as an all-missing column. *)
Lemma absent_exact_synthesised hh_df exact :
  df_wf hh_df →
  exact ∈ all_debt_exact_vars ++ all_asset_exact_vars →
  columns hh_df !! exact = None →
  ∃ out log,
    process_household hh_df = Return (out, log)
    ∧ (0 < length (filter (absent hh_df) all_vars_needed))%nat
    ∧ MissingColumnsCreated (length (filter (absent hh_df) all_vars_needed)) ∈ log
    ∧ columns out !! exact = Some (replicate (nrows hh_df) NaN).
Proof.
  intros Hwf Hin Habs.
  destruct (catalog_pair_of_exact exact Hin) as [interval Hp].
  destruct (coalesced_in_output hh_df (exact, interval) Hwf Hp)
    as (out & log & s & Hrun & Hexact & _).
  simpl in Hexact. rewrite Habs in Hexact. simpl in Hexact.
  assert (0 < length (filter (absent hh_df) all_vars_needed))%nat as Hpos.
  { assert (exact ∈ filter (absent hh_df) all_vars_needed) as Hin'.
    { apply list_elem_of_filter. split; [done|].
      by apply elem_of_all_vars_needed, exact_in_catalog. }
    exact (elem_of_length_pos _ _ Hin'). }
  eexists out, _. split; [exact Hrun|]. split; [exact Hpos|].
  split; [|exact Hexact].
  apply elem_of_app. left. cbv zeta. rewrite decide_True by exact Hpos.
  apply list_elem_of_here.
Qed.

(** C7 fails on the code.  The loops guard against an exact field that is
    not a column (lines 307-309 and 326-328) by setting its coalesced
    column to missing, which is what the claim says; run on the source
    table as given, the round for [c7052b] does just that.  But the
    synthesis pass (lines 293-296) runs first and has made every exact
    field of the catalog a column before the loops start, so the guard
    does not fire: the all-missing synthesised column goes through the
    ordinary fallback and is filled from the interval midpoints.  With
    [c7052b] absent and its own
    interval field [c7052bit] holding code 1, the coalesced column
    [c7052b_val] is 5000 instead of missing.  The rest of the claim holds:
    the pipeline returns, the absent field is synthesised as an
    all-missing column, and the count of created columns is reported. *)
Theorem absent_exact_guard_unreachable :
  columns hh_without_exact !! "c7052b" = None
  ∧ ("c7052b", Some "c7052bit") ∈ asset_pairs
  ∧ coalesce_one (hh_without_exact, []) ("c7052b", Some "c7052bit")
    = Return (set_scalar hh_without_exact "c7052b_val" NaN, [])
  ∧ (∀ hh_df exact,
       exact ∈ all_debt_exact_vars ++ all_asset_exact_vars →
       has_col (ensure_columns hh_df).1 exact = true)
  ∧ output_column hh_without_exact "c7052b" = Some [NaN]
  ∧ output_log hh_without_exact = Some [MissingColumnsCreated 115]
  ∧ output_column hh_without_exact "c7052b_val" = Some [Some (num 5000)]
  ∧ ¬ absent_exact_gives_missing_column
  ∧ ∀ hh_df exact,
      df_wf hh_df →
      exact ∈ all_debt_exact_vars ++ all_asset_exact_vars →
      columns hh_df !! exact = None →
      ∃ out log,
        process_household hh_df = Return (out, log)
        ∧ (0 < length (filter (absent hh_df) all_vars_needed))%nat
        ∧ MissingColumnsCreated (length (filter (absent hh_df) all_vars_needed))
          ∈ log
        ∧ columns out !! exact = Some (replicate (nrows hh_df) NaN).
Proof.
  destruct hh_without_exact_run as (Hval & Hexact & Hlog).
  split; [reflexivity|].
  split; [apply (bool_decide_unpack _); vm_compute; exact I|].
  split; [reflexivity|].
  split; [exact exact_column_after_synthesis|].
  split; [exact Hexact|]. split; [exact Hlog|]. split; [exact Hval|].
  split; [|exact absent_exact_synthesised].
  intros Hclaim.
  destruct (Hclaim hh_without_exact "c7052b") as (out & log & s & Hrun & Hs & Hall).
  - apply df_wf_decidable. vm_compute. exact I.
  - apply (bool_decide_unpack _). vm_compute. exact I.
  - reflexivity.
  - rewrite (output_column_run _ _ _ _ Hrun) in Hval.
    change (val_name "c7052b") with "c7052b_val" in Hs.
    rewrite Hs in Hval. injection Hval as ->.
    by specialize (Hall 0%nat (Some (num 5000)) eq_refl).
Qed.

(** ** Pairing of exact and interval fields *)

(** C1 fails on the code: the loops pair [exact_vars[i]] with
    [interval_vars[i]], and the two lists are not aligned.  The three
    fields without an interval field get the midpoints of other concepts'
    codes instead of staying missing, and the private business loan
    [b3031a_2] does not get the midpoint of its own code [b3031ait_2]. *)
Theorem coalescing_pairs_by_position :
  debt_pairs !! 0%nat = Some ("b3005b_2", Some "b3031ait_2")
  ∧ debt_pairs !! 1%nat = Some ("b3031a_2", Some "c2064it_1")
  ∧ output_column hh_unpaired "b3005b_2_val" = Some [Some (num 5000)]
  ∧ output_column hh_unpaired "d3116b_val" = Some [Some (num 5000)]
  ∧ output_column hh_unpaired "c7059_val" = Some [Some (num 5000)]
  ∧ output_column hh_unpaired "b3031a_2_val" = Some [NaN]
  ∧ get_midpoint (Some (num 1)) "b3031ait_2" = Return (Some (num 5000)).
Proof. repeat split; vm_compute; reflexivity. Qed.

(** * Further properties of the resolver *)

Lemma bound_table_in chain base (table : BracketTable) :
  bound_table chain base = Some table →
  ∃ vars, (vars, table) ∈ chain ∧ base ∈ vars.
Proof.
  induction chain as [|[vars m] chain IH]; simpl; [done|].
  case_bool_decide as Hin.
  - intros [= <-]. exists vars. split; [apply list_elem_of_here | done].
  - intros Hrest. destruct (IH Hrest) as (vars' & Hin' & Hbase).
    exists vars'. split; [by apply list_elem_of_further | done].
Qed.

Lemma mapping_chain_positive :
  Forall (λ p : list string * BracketTable,
            Forall (λ kv : Z * Qc, (0 < kv.2)%Qc) p.2) mapping_chain.
Proof. apply (bool_decide_unpack _). vm_compute. exact I. Qed.

Lemma midpoint_positive code var_name v :
  get_midpoint code var_name = Return (Some v) → (0 < v)%Qc.
Proof.
  intros Hget.
  destruct (get_midpoint_value_sound _ _ _ Hget)
    as (c & base & table & k & Hc & Hbase & Htab & Hin & Hk).
  destruct (bound_table_in _ _ _ Htab) as (vars & Hchain & _).
  pose proof mapping_chain_positive as Hpos. rewrite Forall_forall in Hpos.
  specialize (Hpos _ Hchain). rewrite Forall_forall in Hpos.
  exact (Hpos _ Hin).
Qed.

(** X1: every number [get_midpoint] returns is the entry of the code
    itself in the table bound to the field, and is strictly positive. *)
Theorem get_midpoint_value_positive code var_name v :
  get_midpoint code var_name = Return (Some v) →
  (0 < v)%Qc
  ∧ ∃ c base table k,
      code = Some c
      ∧ base_var_name var_name = Return base
      ∧ bound_table mapping_chain base = Some table
      ∧ (k, v) ∈ table
      ∧ num k = c.
Proof.
  intros Hget. split.
  - exact (midpoint_positive _ _ _ Hget).
  - exact (get_midpoint_value_sound _ _ _ Hget).
Qed.

Lemma get_midpoint_value_positive_witness :
  get_midpoint (Some (num 2)) "c2016it_3" = Return (Some (num 20000))
  ∧ (0 < num 20000)%Qc.
Proof.
  assert (get_midpoint (Some (num 2)) "c2016it_3" = Return (Some (num 20000)))
    as H by (vm_compute; reflexivity).
  split; [exact H|]. exact (proj1 (get_midpoint_value_positive _ _ _ H)).
Defined.

(** ** Names and the IndexError *)

Lemma string_get_lt (s : string) (i : nat) :
  (i < String.length s)%nat → ∃ c, String.get i s = Some c.
Proof.
  revert i. induction s as [|d s IH]; intros i Hi; simpl in *; [lia|].
  destruct i as [|i]; [by eexists|]. apply IH. lia.
Qed.

Lemma str_index_neg2 (s : string) :
  (2 ≤ String.length s)%nat →
  ∃ c, str_index s (-2) = Return c
       ∧ String.get (String.length s - 2) s = Some c.
Proof.
  intros Hlen. unfold str_index. cbv zeta. rewrite (decide_True (P := (-2 < 0)%Z)) by lia.
  rewrite decide_True by lia.
  replace (Z.to_nat (-2 + Z.of_nat (String.length s))) with (String.length s - 2)%nat
    by lia.
  destruct (string_get_lt s (String.length s - 2)) as [c Hc]; [lia|].
  rewrite Hc. by exists c.
Qed.

Lemma str_contains_length c (s : string) :
  str_contains c s = true → (1 ≤ String.length s)%nat.
Proof. destruct s; [done | simpl; lia]. Qed.

Lemma base_var_name_raises var_name e :
  base_var_name var_name = Raise e ↔ e = IndexError ∧ var_name = "_".
Proof.
  split.
  - unfold base_var_name.
    destruct (str_contains underscore var_name) eqn:Hc; [|done].
    destruct (decide (2 ≤ String.length var_name)%nat) as [Hlen|Hlen].
    { destruct (str_index_neg2 var_name Hlen) as (c & -> & _). done. }
    pose proof (str_contains_length _ _ Hc) as Hpos.
    destruct var_name as [|d [|d' s]]; simpl in *; try lia.
    case_decide as Hd; [|done]. subst d. by intros [= <-].
  - intros [-> ->]. reflexivity.
Qed.

(** X2: [get_midpoint] raises only an IndexError, and exactly when the
    code is present and the field name is the single character "_"
    (where [var_name[-2]] is out of range); on every other input it
    returns. *)
Theorem get_midpoint_raises code var_name e :
  get_midpoint code var_name = Raise e
  ↔ e = IndexError ∧ var_name = "_" ∧ code ≠ NaN.
Proof.
  unfold get_midpoint. destruct code as [c|].
  - destruct (base_var_name var_name) as [e'|base] eqn:Hbase.
    + apply base_var_name_raises in Hbase as [-> ->]. simpl. split.
      * by intros [= <-].
      * by intros (-> & _ & _).
    + simpl. split; [done|]. intros (_ & -> & _). done.
  - split; [done|]. by intros (_ & _ & ?).
Qed.

(** ** Slot suffixes *)

Lemma str_contains_app_suffix (base : string) c rest :
  str_contains c (base +:+ String c rest) = true.
Proof.
  induction base as [|d base IH]; simpl.
  - by rewrite decide_True.
  - by case_decide.
Qed.

Lemma split_head_app (base : string) c rest :
  str_contains c base = false →
  split_head c (base +:+ String c rest) = base.
Proof.
  induction base as [|d base IH]; simpl.
  - intros _. by rewrite decide_True.
  - case_decide; [done|]. intros Hrest. by rewrite IH.
Qed.

Lemma string_length_app (s t : string) :
  String.length (s +:+ t) = (String.length s + String.length t)%nat.
Proof. induction s as [|d s IH]; simpl; [done|]. by rewrite IH. Qed.

Lemma string_get_app_r (s t : string) :
  String.get (String.length s) (s +:+ t) = String.get 0 t.
Proof. induction s as [|d s IH]; simpl; [done|]. exact IH. Qed.

Lemma base_var_name_slot (base : string) (slot : ascii) :
  str_contains underscore base = false →
  base_var_name (base +:+ String underscore (String slot EmptyString))
  = Return base.
Proof.
  intros Hno. unfold base_var_name. rewrite str_contains_app_suffix.
  set (name := base +:+ String underscore (String slot EmptyString)).
  assert (String.length name = String.length base + 2)%nat as Hlen.
  { unfold name. rewrite string_length_app. simpl. lia. }
  destruct (str_index_neg2 name) as (c & -> & Hget); [lia|].
  rewrite Hlen in Hget. replace (String.length base + 2 - 2)%nat
    with (String.length base) in Hget by lia.
  unfold name in Hget. rewrite string_get_app_r in Hget. simpl in Hget.
  injection Hget as <-. unfold mbind, result_bind.
  rewrite decide_True by done. unfold name. by rewrite split_head_app.
Qed.

(** X3: slot variants share one table: a field name without underscore
    followed by "_" and one more character resolves every code exactly as
    the bare name does. *)
Theorem get_midpoint_slot_variant code (base : string) (slot : ascii) :
  str_contains underscore base = false →
  get_midpoint code (base +:+ String underscore (String slot EmptyString))
  = get_midpoint code base.
Proof.
  intros Hno. destruct code as [c|]; [|done]. unfold get_midpoint.
  rewrite (base_var_name_slot base slot Hno).
  unfold base_var_name. by rewrite Hno.
Qed.

Lemma get_midpoint_slot_variant_witness :
  get_midpoint (Some (num 3)) "c2064it_5" = get_midpoint (Some (num 3)) "c2064it".
Proof.
  exact (get_midpoint_slot_variant (Some (num 3)) "c2064it" "5"%char eq_refl).
Defined.

(** * Further properties of the winsorisation *)

Lemma dropna_from_elem i (s : Series) j x :
  (j, x) ∈ dropna_from i s → Some x ∈ s.
Proof.
  revert i. induction s as [|[v|] s IH]; intros i; simpl.
  - by intros ?%elem_of_nil.
  - intros [[= _ ->]|Hin]%elem_of_cons; [apply list_elem_of_here|].
    apply list_elem_of_further. by eapply IH.
  - intros Hin. apply list_elem_of_further. by eapply IH.
Qed.

Lemma dropna_values_elem (s : Series) x : x ∈ (dropna s).*2 → Some x ∈ s.
Proof.
  intros ([j y] & -> & Hin)%list_elem_of_fmap. by eapply dropna_from_elem.
Qed.

(** The two clipping bounds are entries of the array. *)
Lemma winsorize_clip_mem (a : list Qc) :
  a ≠ [] →
  ∃ lo hi, lo ∈ a ∧ hi ∈ a ∧ (lo ≤ hi)%Qc ∧ winsorize a = clip lo hi <$> a.
Proof.
  intros Hne.
  assert (0 < length a)%nat as Hpos by (destruct a; [done | simpl; lia]).
  assert (length (merge_sort Qcle a) = length a) as Hlen
    by by rewrite merge_sort_Permutation.
  set (n := length a) in *.
  destruct (lookup_lt_is_Some_2 (merge_sort Qcle a) (n / 100)) as [lo Hlo].
  { rewrite Hlen. apply Nat.div_lt; lia. }
  destruct (lookup_lt_is_Some_2 (merge_sort Qcle a) (n - n / 100 - 1)) as [hi Hhi].
  { rewrite Hlen. lia. }
  exists lo, hi. split; [|split; [|split]].
  - rewrite <-(merge_sort_Permutation Qcle a). by eapply list_elem_of_lookup_2.
  - rewrite <-(merge_sort_Permutation Qcle a). by eapply list_elem_of_lookup_2.
  - apply (StronglySorted_lookup_le (merge_sort Qcle a) (n / 100) (n - n / 100 - 1));
      [apply StronglySorted_merge_sort; apply _ | | done | done].
    pose proof (Nat.div_mod_eq n 100). pose proof (Nat.mod_upper_bound n 100).
    lia.
  - unfold winsorize. fold n. by rewrite Hlo, Hhi.
Qed.

Lemma winsorized_column_bounds (s : Series) :
  dropna s ≠ [] →
  ∃ lo hi, Some lo ∈ s ∧ Some hi ∈ s ∧ (lo ≤ hi)%Qc
    ∧ (winsorized_column (length s) s).1 = fmap (M:=option) (clip lo hi) <$> s.
Proof.
  intros Hne.
  destruct (winsorize_clip_mem (dropna s).*2) as (lo & hi & Hlo & Hhi & Hlh & Hw).
  { intros Hnil. apply Hne. by apply fmap_nil_inv in Hnil. }
  exists lo, hi. split; [by apply dropna_values_elem|].
  split; [by apply dropna_values_elem|]. split; [done|].
  rewrite winsorized_column_nonempty by done. rewrite Hw. apply reindex_dropna.
Qed.

Lemma clip_cases lo hi x :
  (lo ≤ hi)%Qc →
  (lo ≤ clip lo hi x)%Qc ∧ (clip lo hi x ≤ hi)%Qc
  ∧ ((lo ≤ x)%Qc → (x ≤ hi)%Qc → clip lo hi x = x)
  ∧ ((x < lo)%Qc → clip lo hi x = lo)
  ∧ ((hi < x)%Qc → clip lo hi x = hi).
Proof.
  intros Hlh. unfold clip.
  repeat split; repeat case_decide; try done; try qc_order.
Qed.

(** X4: the winsorised column has the length of the debt-ratio column and
    is missing exactly where that column is missing.  When some cell is
    present there are two bounds [lo ≤ hi], both values of the column,
    such that every present value inside [lo, hi] is unchanged, every
    value below [lo] becomes [lo] and every value above [hi] becomes
    [hi]: no value outside the range of the data is ever produced. *)
Theorem winsorized_within_data_range (debt_ratio : Series) :
  let winsorized := (winsorized_column (length debt_ratio) debt_ratio).1 in
  length winsorized = length debt_ratio
  ∧ (∀ r, debt_ratio !! r = Some NaN ↔ winsorized !! r = Some NaN)
  ∧ ((∀ r c, debt_ratio !! r = Some c → c = NaN)
     ∨ ∃ lo hi,
         Some lo ∈ debt_ratio ∧ Some hi ∈ debt_ratio ∧ (lo ≤ hi)%Qc
         ∧ ∀ r x, debt_ratio !! r = Some (Some x) →
             ∃ y, winsorized !! r = Some (Some y)
                  ∧ (lo ≤ y)%Qc ∧ (y ≤ hi)%Qc
                  ∧ ((lo ≤ x)%Qc → (x ≤ hi)%Qc → y = x)
                  ∧ ((x < lo)%Qc → y = lo)
                  ∧ ((hi < x)%Qc → y = hi)).
Proof.
  intros winsorized.
  destruct (winsorized_column_cells debt_ratio) as (lo0 & hi0 & _ & Hw0 & _).
  fold winsorized in Hw0.
  split; [by rewrite Hw0, length_fmap|]. split.
  { intros r. rewrite Hw0, list_lookup_fmap.
    destruct (debt_ratio !! r) as [[x|]|]; simpl; split; done. }
  destruct (dropna debt_ratio) as [|p l] eqn:Hd.
  - left. intros r c Hc. rewrite (dropna_nil_all_missing _ Hd) in Hc.
    by apply lookup_replicate in Hc as [-> _].
  - right.
    destruct (winsorized_column_bounds debt_ratio) as (lo & hi & Hlo & Hhi & Hlh & Hw).
    { by rewrite Hd. }
    fold winsorized in Hw. exists lo, hi. do 3 (split; [done|]).
    intros r x Hx. exists (clip lo hi x).
    split; [by rewrite Hw, list_lookup_fmap, Hx|].
    destruct (clip_cases lo hi x Hlh) as (? & ? & ? & ? & ?). done.
Qed.

(** X5: winsorisation preserves the order of households: of two present
    debt ratios, the smaller one is not larger after winsorisation. *)
Theorem winsorization_monotone (debt_ratio : Series) r1 r2 x1 x2 :
  debt_ratio !! r1 = Some (Some x1) →
  debt_ratio !! r2 = Some (Some x2) →
  (x1 ≤ x2)%Qc →
  ∃ y1 y2,
    (winsorized_column (length debt_ratio) debt_ratio).1 !! r1 = Some (Some y1)
    ∧ (winsorized_column (length debt_ratio) debt_ratio).1 !! r2 = Some (Some y2)
    ∧ (y1 ≤ y2)%Qc.
Proof.
  intros H1 H2 Hle.
  destruct (winsorized_column_cells debt_ratio) as (lo & hi & Hlh & -> & _).
  exists (clip lo hi x1), (clip lo hi x2).
  rewrite !list_lookup_fmap, H1, H2. split; [done|]. split; [done|].
  by apply clip_mono.
Qed.

Lemma winsorization_monotone_witness :
  ∃ y1 y2,
    (winsorized_column 3 [Some (num 1); NaN; Some (num 7)]).1 !! 0%nat
      = Some (Some y1)
    ∧ (winsorized_column 3 [Some (num 1); NaN; Some (num 7)]).1 !! 2%nat
      = Some (Some y2)
    ∧ (y1 ≤ y2)%Qc.
Proof.
  apply (winsorization_monotone [Some (num 1); NaN; Some (num 7)] 0 2
           (num 1) (num 7)); [reflexivity | reflexivity | by vm_compute].
Defined.

(** * Further properties of the coalescing loops and the aggregator *)

Lemma midpoints_lookup it (codes mids : Series) r c :
  midpoints it codes = Return mids → codes !! r = Some c →
  ∃ m, mids !! r = Some m ∧ get_midpoint c it = Return m.
Proof.
  unfold midpoints. revert mids r. induction codes as [|c0 codes IH]; intros mids r.
  { intros _ Hr. by rewrite lookup_nil in Hr. }
  simpl. destruct (get_midpoint c0 it) as [|m0] eqn:Hm0; [done|]. simpl.
  destruct (mapM (λ x, get_midpoint x it) codes) as [|ms] eqn:Hms; [done|]. simpl.
  intros [= <-] Hr. destruct r as [|r]; simpl in *.
  - injection Hr as <-. by exists m0.
  - by apply (IH ms r).
Qed.

Lemma Return_pair_inj {A B} (a a' : A) (b b' : B) :
  Return (a, b) = Return (a', b') → a = a' ∧ b = b'.
Proof. by intros [= -> ->]. Qed.

(** The cell of a source column, all-missing where the source lacks it *)
Lemma source_cell hh_df c r :
  df_wf hh_df → (r < nrows hh_df)%nat →
  default (replicate (nrows hh_df) NaN) (columns hh_df !! c) !! r
  = Some (cell_at hh_df c r).
Proof.
  intros Hwf Hr. unfold cell_at. destruct (columns hh_df !! c) as [s|] eqn:Hc; simpl.
  - destruct (lookup_lt_is_Some_2 s r) as [x ->]; [by rewrite (Hwf _ _ Hc)|]. done.
  - by rewrite lookup_replicate_2.
Qed.

(** Every coalesced cell, in terms of the cells of the source table. *)
Lemma coalesced_cell hh_df pair out log (coalesced : Series) r :
  df_wf hh_df →
  pair ∈ debt_pairs ++ asset_pairs →
  process_household hh_df = Return (out, log) →
  columns out !! val_name pair.1 = Some coalesced →
  (r < nrows hh_df)%nat →
  ∃ m : cell,
    coalesced !! r
    = Some (match cell_at hh_df pair.1 r with Some v => Some v | None => m end)
    ∧ match pair.2 with
      | None => m = NaN
      | Some it => get_midpoint (cell_at hh_df it r) it = Return m
      end.
Proof.
  intros Hwf Hp Hrun Hval Hr.
  destruct (coalesced_in_output hh_df pair Hwf Hp)
    as (out' & log' & s & Hrun' & _ & Hlen & Hval' & Hs).
  rewrite Hrun in Hrun'. apply Return_pair_inj in Hrun' as [<- _]. clear Hrun.
  rewrite Hval in Hval'. injection Hval' as <-.
  pose proof (source_cell hh_df pair.1 r Hwf Hr) as Hex.
  destruct pair.2 as [it|].
  - destruct Hs as (mids & Hmids & Hlen_m & ->).
    pose proof (source_cell hh_df it r Hwf Hr) as Hcode.
    destruct (midpoints_lookup _ _ _ _ _ Hmids Hcode) as (m & Hm & Hget).
    exists m. split; [|exact Hget].
    rewrite (combine_first_lookup _ _ _ _ _ Hex Hm).
    by destruct (cell_at hh_df pair.1 r).
  - exists NaN. split; [|done]. rewrite Hs, Hex. by destruct (cell_at hh_df pair.1 r).
Qed.

(** X6: the coalescer never invents a value.  For every catalog field
    and household, the coalesced cell is the exact value if it is
    present; otherwise it is missing or a strictly positive bracket
    midpoint; and it is missing whenever the exact value is missing and
    the fallback field does not exist or holds no code for the
    household. *)
Theorem coalesced_never_invented hh_df pair :
  df_wf hh_df →
  pair ∈ debt_pairs ++ asset_pairs →
  ∃ out log (coalesced : Series),
    process_household hh_df = Return (out, log)
    ∧ columns out !! val_name pair.1 = Some coalesced
    ∧ ∀ r, (r < nrows hh_df)%nat →
        ∃ c, coalesced !! r = Some c
          ∧ (∀ v, cell_at hh_df pair.1 r = Some v → c = Some v)
          ∧ (cell_at hh_df pair.1 r = NaN → ∀ v, c = Some v → (0 < v)%Qc)
          ∧ (cell_at hh_df pair.1 r = NaN →
             match pair.2 with
             | None => True
             | Some it => cell_at hh_df it r = NaN
             end → c = NaN).
Proof.
  intros Hwf Hp.
  destruct (coalesced_in_output hh_df pair Hwf Hp)
    as (out & log & s & Hrun & _ & _ & Hval & _).
  eexists out, _, s. split; [exact Hrun|]. split; [exact Hval|].
  intros r Hr.
  destruct (coalesced_cell hh_df pair _ _ s r Hwf Hp Hrun Hval Hr) as (m & Hc & Hm).
  eexists. split; [exact Hc|]. clear Hrun Hval Hc.
  destruct (cell_at hh_df pair.1 r) as [x|].
  - split; [by intros v [= ->]|]. split; [done|done].
  - split; [done|]. split.
    + intros _ v ->. destruct pair.2 as [it|]; [|done].
      exact (midpoint_positive _ _ _ Hm).
    + intros _ Hcode. destruct pair.2 as [it|]; [|done].
      rewrite Hcode in Hm. by injection Hm as <-.
Qed.

Lemma coalesced_never_invented_witness :
  ∃ out log (coalesced : Series),
    process_household hh_example = Return (out, log)
    ∧ columns out !! val_name "c7060" = Some coalesced
    ∧ ∃ c, coalesced !! 2%nat = Some c.
Proof.
  destruct (coalesced_never_invented hh_example ("c7060", Some "c7061it")
              hh_example_wf)
    as (out & log & s & Hrun & Hval & Hrows).
  - apply (bool_decide_unpack _). vm_compute. exact I.
  - exists out, log, s. split; [exact Hrun|]. split; [exact Hval|].
    destruct (Hrows 2%nat) as (c & Hc & _); [simpl; lia|]. by exists c.
Defined.

(** X7: the pipeline derives new columns and leaves the source alone:
    every source column whose name is not one of the names the pipeline
    writes is in the output unchanged, and the number of rows is the
    same. *)
Theorem source_columns_preserved hh_df c (s : Series) :
  df_wf hh_df →
  columns hh_df !! c = Some s →
  c ∉ written_names →
  ∃ out log,
    process_household hh_df = Return (out, log)
    ∧ nrows out = nrows hh_df
    ∧ columns out !! c = Some s.
Proof.
  intros Hwf Hc Hnw.
  destruct (process_household_spec hh_df Hwf)
    as (hh0 & hh3 & out & log' & Hens & _ & _ & Hcat & Hwf3 & Hn3 & _ & Hkeep3
        & Hveh & Hagg & Hrun).
  destruct written_parts as (_ & _ & _ & Hother & _).
  destruct (aggregate_spec hh3 (val_name <$> debt_pairs.*1)
              (val_name <$> asset_pairs.*1) Hwf3 Hveh)
    as (out' & log'' & td & raw & ta & Hagg' & Hn & Hkeep & _).
  { intros Hin. destruct (Hother "total_debt") as [_ Hnot].
    - apply elem_of_app. by right.
    - apply Hnot. by left. }
  rewrite Hagg in Hagg'. injection Hagg' as <- <-.
  eexists out, _. split; [exact Hrun|]. split; [by rewrite Hn|].
  assert (c ∉ aggregate_names) as Hna.
  { intros Hin. apply Hnw. unfold written_names. rewrite !elem_of_app. by do 3 right. }
  rewrite (Hkeep _ Hna), (Hkeep3 _ Hnw).
  destruct (decide (c ∈ catalog_names)) as [Hin|Hout].
  - by rewrite (Hcat _ Hin), Hc.
  - destruct (ensure_columns_spec hh_df) as (hh0' & Hens' & _ & _ & Hnoncat & _).
    rewrite Hens in Hens'. apply (f_equal fst) in Hens'. cbn [fst] in Hens'.
    subst hh0'. rewrite (Hnoncat _ Hout). exact Hc.
Qed.

Lemma source_columns_preserved_witness :
  ∃ out log,
    process_household hh_example = Return (out, log)
    ∧ nrows out = 3%nat
    ∧ columns out !! "c7060" = Some [Some (num 1000); Some (num 500); NaN].
Proof.
  apply (source_columns_preserved hh_example "c7060"
           [Some (num 1000); Some (num 500); NaN] hh_example_wf).
  - reflexivity.
  - apply (bool_decide_unpack _). vm_compute. exact I.
Defined.

Lemma row_sum_nonneg df names r :
  (∀ c v, c ∈ names → cell_at df c r = Some v → (0 ≤ v)%Qc) →
  (0 ≤ row_sum df names r)%Qc.
Proof.
  unfold row_sum. induction names as [|c names IH]; intros Hall; [done|].
  csimpl. apply Qcplus_nonneg_nonneg.
  - destruct (cell_at df c r) as [v|] eqn:Hv; [|done]. simpl.
    apply (Hall c v); [by left | done].
  - apply IH. intros c' v Hc'. apply Hall. by right.
Qed.

Lemma no_negative_debt_decidable hh_df :
  forallb (λ exact,
             match columns hh_df !! exact with
             | Some s =>
                 forallb (λ c : cell,
                            match c with
                            | Some v => bool_decide (0 ≤ v)%Qc
                            | None => true
                            end) s
             | None => true
             end) all_debt_exact_vars = true →
  no_negative_debt hh_df.
Proof.
  intros Hall exact s Hin Hs. rewrite forallb_forall in Hall.
  specialize (Hall exact (proj1 (list_elem_of_In _ _) Hin)). rewrite Hs in Hall.
  rewrite forallb_forall in Hall. apply Forall_forall. intros c Hc.
  specialize (Hall c (proj1 (list_elem_of_In _ _) Hc)).
  destruct c as [v|]; simpl; [|done]. by apply bool_decide_eq_true in Hall.
Qed.

Lemma household_debt_nonneg hh_df :
  df_wf hh_df →
  no_negative_debt hh_df →
  ∃ out log (total_debt debt_ratio : Series),
    process_household hh_df = Return (out, log)
    ∧ columns out !! "total_debt" = Some total_debt
    ∧ columns out !! "debt_ratio" = Some debt_ratio
    ∧ ∀ r, (r < nrows hh_df)%nat →
        (∃ d, total_debt !! r = Some (Some d) ∧ (0 ≤ d)%Qc)
        ∧ ∃ c, debt_ratio !! r = Some c ∧ ∀ q, c = Some q → (0 ≤ q)%Qc.
Proof.
  intros Hwf Hnonneg.
  destruct (household_totals hh_df Hwf)
    as (out & log & td & raw & ta & Hrun & Hn & Htd & _ & Hta & Hratio & Hrows).
  exists out, log, td, (debt_ratio_column td ta).
  split; [exact Hrun|]. split; [exact Htd|]. split; [exact Hratio|].
  intros r Hr. destruct (Hrows r Hr) as (Hd & _ & Ha).
  assert (0 ≤ row_sum out coalesced_debt_names r)%Qc as Hdpos.
  { apply row_sum_nonneg. intros c v Hc Hv.
    apply list_elem_of_fmap in Hc as (exact & -> & Hexact).
    destruct (paired_by_index_elem _ all_debt_interval_vars _ Hexact) as [it Hp].
    assert ((exact, it) ∈ debt_pairs ++ asset_pairs) as Hp'.
    { apply elem_of_app. by left. }
    unfold cell_at in Hv.
    destruct (columns out !! val_name exact) as [s|] eqn:Hs; [|done]. simpl in Hv.
    destruct (coalesced_cell hh_df (exact, it) out log s r Hwf Hp' Hrun Hs Hr)
      as (m & Hcell & Hm).
    clear Hrun Hrows Hd Ha. simpl in Hcell, Hm. rewrite Hcell in Hv. simpl in Hv.
    unfold cell_at in Hv at 1.
    destruct (columns hh_df !! exact) as [ex|] eqn:Hex; simpl in Hv.
    - pose proof (Hnonneg exact ex Hexact Hex) as Hall.
      destruct (ex !! r) as [x|] eqn:Hx; simpl in Hv.
      + rewrite Forall_forall in Hall.
        pose proof (Hall x (list_elem_of_lookup_2 _ _ _ Hx)) as Hx0.
        destruct x as [x|]; simpl in *.
        * by injection Hv as <-.
        * subst m. destruct it as [it|]; [|done].
          apply Qclt_le_weak. exact (midpoint_positive _ _ _ Hm).
      + subst m. destruct it as [it|]; [|done].
        apply Qclt_le_weak. exact (midpoint_positive _ _ _ Hm).
    - subst m. destruct it as [it|]; [|done].
      apply Qclt_le_weak. exact (midpoint_positive _ _ _ Hm). }
  clear Hrun Hrows.
  split; [eexists; split; [exact Hd | exact Hdpos]|].
  set (d := row_sum out coalesced_debt_names r) in *.
  set (a := floor_at_0
              (row_sum out coalesced_asset_names r
               - default 0%Qc (cell_at out vehicle_adj_val_col r))) in *.
  assert (0 ≤ a)%Qc as Hapos by apply floor_at_0_nonneg.
  exists (debt_ratio_of d a).
  split; [exact (debt_ratio_lookup td ta r d a Hd Ha Hapos)|].
  clearbody d a. clear - Hdpos Hapos. unfold debt_ratio_of.
  intros q. repeat case_decide; intros [= <-]; [done|].
  by apply debt_ratio_of_nonneg.
Qed.

(** X8: if no exact debt field of the source holds a negative amount,
    then for every household [total_debt] is non-negative and
    [debt_ratio] is either missing or non-negative. *)
Theorem debt_never_negative hh_df :
  df_wf hh_df →
  no_negative_debt hh_df →
  ∃ out log (total_debt debt_ratio : Series),
    process_household hh_df = Return (out, log)
    ∧ columns out !! "total_debt" = Some total_debt
    ∧ columns out !! "debt_ratio" = Some debt_ratio
    ∧ ∀ r, (r < nrows hh_df)%nat →
        (∃ d, total_debt !! r = Some (Some d) ∧ (0 ≤ d)%Qc)
        ∧ ∃ c, debt_ratio !! r = Some c ∧ ∀ q, c = Some q → (0 ≤ q)%Qc.
Proof. exact (household_debt_nonneg hh_df). Qed.

Lemma debt_never_negative_witness :
  ∃ out log (total_debt : Series),
    process_household hh_example = Return (out, log)
    ∧ columns out !! "total_debt" = Some total_debt
    ∧ ∃ d, total_debt !! 0%nat = Some (Some d) ∧ (0 ≤ d)%Qc.
Proof.
  destruct (debt_never_negative hh_example hh_example_wf)
    as (out & log & td & ratio & Hrun & Htd & _ & Hrows).
  - apply no_negative_debt_decidable. vm_compute. reflexivity.
  - exists out, log, td. split; [exact Hrun|]. split; [exact Htd|].
    destruct (Hrows 0%nat) as [Hd _]; [simpl; lia|]. exact Hd.
Defined.

(** * Further properties of the head-proxy extractor *)

Lemma boolean_index_elem {A} (mask : list bool) (l : list A) x :
  x ∈ boolean_index mask l → x ∈ l.
Proof.
  revert l. induction mask as [|m mask IH]; intros [|y l]; simpl;
    try by intros ?%elem_of_nil.
  destruct m.
  - intros [->|Hin]%elem_of_cons; [apply list_elem_of_here|].
    apply list_elem_of_further. by apply IH.
  - intros Hin. apply list_elem_of_further. by apply IH.
Qed.

Lemma default_zero_column_keeps df c c' (s : Series) :
  columns df !! c' = Some s → columns (default_zero_column df c) !! c' = Some s.
Proof.
  intros Hs. unfold default_zero_column, has_col.
  case_bool_decide as Hhas; [done|]. unfold set_scalar, set_col; simpl.
  rewrite lookup_insert_ne; [done|]. intros ->. apply Hhas. by eexists.
Qed.

(** The extractor on a table with the two required columns, whatever the
    lengths of its columns. *)
Lemma extract_heads_columns ind_df relation birth_year :
  columns ind_df !! "a2001" = Some relation →
  columns ind_df !! "a2005" = Some birth_year →
  ∃ heads_df log,
    extract_heads ind_df = Return (heads_df, log)
    ∧ ∀ c s, c ∉ head_computed_names →
        columns ind_df !! c = Some s →
        columns heads_df !! c = Some (retained_rows relation birth_year s).
Proof.
  intros Hrel Hbirth.
  unfold extract_heads, head_relation_var. rewrite Hrel. cbv zeta.
  set (mask1 := cell_is (λ x, x = num 1) <$> relation) in *.
  set (h1 := filter_rows mask1 ind_df).
  assert (columns h1 !! "a2005" = Some (boolean_index mask1 birth_year)) as Hb1.
  { unfold h1, filter_rows; simpl. by rewrite lookup_fmap, Hbirth. }
  rewrite Hb1.
  set (all_ages := (λ b, cell_sub (Some (num 2017)) b) <$> boolean_index mask1 birth_year)
    in *.
  set (h2 := set_col h1 "head_age" all_ages).
  set (mask2 := cell_is (λ a, num 16 ≤ a)%Qc <$> all_ages).
  set (h3 := filter_rows mask2 h2).
  assert (is_Some (columns h3 !! "head_age")) as [ages Hage3].
  { unfold h3, filter_rows, h2, set_col; simpl.
    rewrite lookup_fmap, lookup_insert_eq. by eexists. }
  set (h4 := default_zero_column h3 "a2028").
  set (h5 := default_zero_column h4 "a2029").
  destruct (default_zero_column_is_Some h3 "a2028") as [brothers Hbro4].
  destruct (default_zero_column_is_Some h4 "a2029") as [sisters Hsis].
  fold h4 in Hbro4. fold h5 in Hsis.
  assert (columns h5 !! "a2028" = Some brothers) as Hbro.
  { unfold h5. by rewrite default_zero_column_other. }
  assert (columns h5 !! "head_age" = Some ages) as Hage5.
  { unfold h5, h4. by rewrite !default_zero_column_other. }
  rewrite Hbro, Hsis, Hage5.
  eexists _, _. split; [reflexivity|].
  intros c s Hc Hs. unfold head_computed_names in Hc.
  rewrite !not_elem_of_cons in Hc. destruct Hc as (Hc1 & Hc2 & Hc3 & _).
  unfold set_col; simpl. rewrite !lookup_insert_ne by done.
  assert (columns h3 !! c = Some (retained_rows relation birth_year s)) as Hc3'.
  { unfold h3, filter_rows, h2, set_col, h1, filter_rows; simpl.
    rewrite lookup_fmap, lookup_insert_ne by done.
    rewrite lookup_fmap, Hs. done. }
  unfold h5, h4. by do 2 apply default_zero_column_keeps.
Qed.

(** X9: the extractor fails exactly when the relationship column [a2001]
    or the birth-year column [a2005] is absent from the individual table,
    and then by [exit()]; it raises nothing else. *)
Theorem extract_heads_failure ind_df :
  (extract_heads ind_df = Raise SystemExit
   ↔ columns ind_df !! "a2001" = None ∨ columns ind_df !! "a2005" = None)
  ∧ ∀ e, extract_heads ind_df = Raise e → e = SystemExit.
Proof.
  destruct (columns ind_df !! "a2001") as [relation|] eqn:Hrel.
  - destruct (columns ind_df !! "a2005") as [birth_year|] eqn:Hbirth.
    + destruct (extract_heads_columns ind_df relation birth_year Hrel Hbirth)
        as (heads_df & log & -> & _).
      split; [|done]. split; [done|]. by intros [|].
    + assert (extract_heads ind_df = Raise SystemExit) as ->.
      { unfold extract_heads, head_relation_var. rewrite Hrel. cbv zeta.
        unfold filter_rows at 1; simpl. by rewrite lookup_fmap, Hbirth. }
      split; [|by intros e [= <-]]. split; [by right | done].
  - assert (extract_heads ind_df = Raise SystemExit) as ->.
    { unfold extract_heads, head_relation_var. by rewrite Hrel. }
    split; [|by intros e [= <-]]. split; [by left | done].
Qed.

(** X10: every column of the individual table that the extractor does not
    compute itself is carried over restricted to the same rows, those of
    the retained head proxies, so the attributes of a head stay aligned;
    and every retained row has relationship code 1. *)
Theorem retained_heads_aligned ind_df relation birth_year :
  columns ind_df !! "a2001" = Some relation →
  columns ind_df !! "a2005" = Some birth_year →
  ∃ heads_df log,
    extract_heads ind_df = Return (heads_df, log)
    ∧ (∀ c s, c ∉ head_computed_names →
         columns ind_df !! c = Some s →
         columns heads_df !! c = Some (retained_rows relation birth_year s))
    ∧ columns heads_df !! "a2001"
      = Some (retained_rows relation birth_year relation)
    ∧ Forall (λ c, c = Some (num 1)) (retained_rows relation birth_year relation).
Proof.
  intros Hrel Hbirth.
  destruct (extract_heads_columns ind_df relation birth_year Hrel Hbirth)
    as (heads_df & log & Hrun & Hcols).
  exists heads_df, log. split; [exact Hrun|]. split; [exact Hcols|].
  split.
  - apply Hcols; [|done]. unfold head_computed_names.
    rewrite !not_elem_of_cons. repeat split; try done. apply not_elem_of_nil.
  - apply Forall_forall. intros c Hc. unfold retained_rows in Hc.
    apply boolean_index_elem in Hc.
    rewrite (boolean_index_filter (cell_is (λ x, x = num 1))) in Hc.
    apply list_elem_of_filter in Hc as [Hone _].
    destruct c as [x|]; [|done]. simpl in Hone.
    apply bool_decide_unpack in Hone. by subst.
Qed.

Lemma retained_heads_aligned_witness :
  ∃ heads_df log,
    extract_heads ind_example = Return (heads_df, log)
    ∧ columns heads_df !! "a2001" = Some [Some (num 1); Some (num 1)].
Proof.
  destruct (retained_heads_aligned ind_example
              [Some (num 1); Some (num 1); Some (num 2); Some (num 1)]
              [Some (num 2010); Some (num 1985); Some (num 1960); Some (num 1950)])
    as (heads_df & log & Hrun & _ & Hrel & _).
  - reflexivity.
  - reflexivity.
  - exists heads_df, log. split; [exact Hrun|]. rewrite Hrel. f_equal.
Defined.


(** ** Head attributes: selection, de-duplication, left join *)

Lemma boolean_index_lookup {A} (mask : list bool) (l : list A) j x :
  boolean_index mask l !! j = Some x →
  ∃ i, mask !! i = Some true ∧ l !! i = Some x.
Proof.
  revert l j. induction mask as [|m mask IH]; intros [|y l] j; simpl; try done.
  destruct m.
  - destruct j as [|j]; simpl.
    + intros [= ->]. by exists 0.
    + intros (i & ? & ?)%IH. by exists (S i).
  - intros (i & ? & ?)%IH. by exists (S i).
Qed.

Lemma boolean_index_zip {A B} (mask : list bool) (l : list A) (k : list B) :
  boolean_index mask (zip l k) = zip (boolean_index mask l) (boolean_index mask k).
Proof.
  revert l k. induction mask as [|m mask IH]; intros [|x l] [|y k]; simpl;
    try done.
  - destruct m; simpl; [done|]. by destruct (boolean_index mask l).
  - destruct m; simpl; by rewrite IH.
Qed.

Lemma boolean_index_kept {A} (mask : list bool) (l : list A) i x :
  mask !! i = Some true → l !! i = Some x → x ∈ boolean_index mask l.
Proof.
  revert l i. induction mask as [|m mask IH]; intros [|y l] [|i]; simpl;
    try done.
  - intros [= ->] [= ->]. apply list_elem_of_here.
  - intros Hm Hl. destruct m; [apply list_elem_of_further|]; by eapply IH.
Qed.

Lemma length_first_occurrence seen keys :
  length (first_occurrence seen keys) = length keys.
Proof. revert seen. induction keys as [|k keys IH]; intros seen; simpl; auto. Qed.

Lemma first_occurrence_lookup seen keys i :
  first_occurrence seen keys !! i = Some true →
  ∃ k, keys !! i = Some k ∧ (k ∉ seen) ∧ (k ∉ take i keys).
Proof.
  revert seen i. induction keys as [|k keys IH]; intros seen [|i]; simpl;
    try done.
  - intros [= Hk]. apply bool_decide_eq_true in Hk. exists k. split_and!; [done..|].
    by intros ?%elem_of_nil.
  - intros (k' & Hk' & Hseen & Htake)%IH. exists k'. split_and!; [done| |].
    + intros Hin. apply Hseen. by apply list_elem_of_further.
    + intros [->|Hin]%elem_of_cons; [|done]. apply Hseen, list_elem_of_here.
Qed.

Lemma first_occurrence_NoDup seen keys :
  NoDup (boolean_index (first_occurrence seen keys) keys)
  ∧ ∀ k, k ∈ boolean_index (first_occurrence seen keys) keys → k ∉ seen.
Proof.
  revert seen. induction keys as [|k keys IH]; intros seen; simpl.
  - split; [constructor | by intros ? ?%elem_of_nil].
  - destruct (IH (k :: seen)) as [Hnd Hseen]. case_bool_decide as Hk.
    + split.
      * constructor; [|done]. intros Hin%Hseen. apply Hin, list_elem_of_here.
      * intros k' [->|Hin%Hseen]%elem_of_cons; [done|].
        intros ?. apply Hin. by apply list_elem_of_further.
    + split; [done|]. intros k' Hin%Hseen ?. apply Hin.
      by apply list_elem_of_further.
Qed.

Lemma first_occurrence_complete seen keys k :
  k ∈ keys → k ∈ seen ∨ k ∈ boolean_index (first_occurrence seen keys) keys.
Proof.
  revert seen. induction keys as [|k' keys IH]; intros seen; simpl.
  - by intros ?%elem_of_nil.
  - intros Hin. case_bool_decide as Hk.
    + apply elem_of_cons in Hin as [->|Hin]; [right; apply list_elem_of_here|].
      destruct (IH (k' :: seen) Hin) as [[->|?]%elem_of_cons|?].
      * right. apply list_elem_of_here.
      * by left.
      * right. by apply list_elem_of_further.
    + apply elem_of_cons in Hin as [->|Hin]; [by left|].
      destruct (IH (k' :: seen) Hin) as [[->|?]%elem_of_cons|?]; auto.
Qed.


Lemma first_rows_aligned (keys s : Series) j k x :
  boolean_index (first_occurrence [] keys) keys !! j = Some k →
  boolean_index (first_occurrence [] keys) s !! j = Some x →
  ∃ i, keys !! i = Some k ∧ (k ∉ take i keys) ∧ s !! i = Some x.
Proof.
  intros Hk Hx.
  assert (boolean_index (first_occurrence [] keys) (zip keys s) !! j
          = Some (k, x)) as Hz.
  { rewrite boolean_index_zip. apply lookup_zip_with_Some. eauto. }
  apply boolean_index_lookup in Hz as (i & Hm & Hi).
  apply lookup_zip_with_Some in Hi as (k' & x' & [= <- <-] & Hki & Hsi).
  apply first_occurrence_lookup in Hm as (k' & Hki' & _ & Htake).
  exists i. split_and!; [done| |done]. congruence.
Qed.

Lemma first_occurrence_keys (keys : Series) k :
  k ∈ boolean_index (first_occurrence [] keys) keys ↔ k ∈ keys.
Proof.
  split; [apply boolean_index_elem|].
  intros Hin. destruct (first_occurrence_complete [] keys k Hin) as [H0|H1];
    [by apply elem_of_nil in H0 | done].
Qed.

(** X11. [drop_duplicates(subset=[key], keep='first')] leaves one row per
    key value: the keys that remain are pairwise distinct, no key value is
    lost, and the row kept for a key is, in every column, the first row of
    the frame that carries this key. *)
Theorem drop_duplicates_keeps_first df subset keys :
  df_wf df →
  columns df !! subset = Some keys →
  ∃ out kept,
    drop_duplicates subset df = Return out
    ∧ columns out !! subset = Some kept
    ∧ NoDup kept
    ∧ (∀ k, k ∈ kept ↔ k ∈ keys)
    ∧ ∀ c s, columns df !! c = Some s →
        ∃ s', columns out !! c = Some s'
          ∧ length s' = length kept
          ∧ ∀ j k x, kept !! j = Some k → s' !! j = Some x →
              ∃ i, keys !! i = Some k ∧ (k ∉ take i keys) ∧ s !! i = Some x.
Proof.
  intros Hwf Hkeys. unfold drop_duplicates. rewrite Hkeys.
  set (mask := first_occurrence [] keys).
  exists (filter_rows mask df), (boolean_index mask keys).
  split; [done|]. split.
  { unfold filter_rows; simpl. by rewrite lookup_fmap, Hkeys. }
  split; [apply first_occurrence_NoDup|].
  split; [apply first_occurrence_keys|].
  intros c s Hc. exists (boolean_index mask s). split.
  { unfold filter_rows; simpl. by rewrite lookup_fmap, Hc. }
  split.
  { apply length_boolean_index. by rewrite (Hwf _ _ Hc), (Hwf _ _ Hkeys). }
  intros j k x. apply first_rows_aligned.
Qed.

Lemma drop_duplicates_keeps_first_witness :
  ∃ out kept,
    drop_duplicates "hhid" heads_example = Return out
    ∧ columns out !! "hhid" = Some kept
    ∧ NoDup kept.
Proof.
  destruct (drop_duplicates_keeps_first heads_example "hhid"
              [Some (num 101); Some (num 101); Some (num 102)])
    as (out & kept & Hrun & Hcol & Hnd & _).
  - apply df_wf_decidable. vm_compute. exact I.
  - reflexivity.
  - exists out, kept. exact (conj Hrun (conj Hcol Hnd)).
Defined.

Lemma select_rename_lookup cols_map df old new :
  NoDup cols_map.*2 → (old, new) ∈ cols_map →
  columns (select_rename cols_map df) !! new = columns df !! old.
Proof.
  unfold select_rename; simpl.
  induction cols_map as [|[o n] m IH]; [by intros _ ?%elem_of_nil|].
  rewrite fmap_cons, NoDup_cons. simpl. intros [Hn Hnd].
  assert (∀ c, c ∉ m.*2 →
    (list_to_map (omap (λ '(old, new), pair new <$> columns df !! old) m)
       : gmap string Series) !! c = None) as Hnone.
  { intros c Hc. apply not_elem_of_list_to_map_1. intros Hin. apply Hc.
    apply list_elem_of_fmap in Hin as ([c' s] & -> & Hin).
    apply list_elem_of_omap in Hin as ([o' n'] & Hin & Heq).
    destruct (columns df !! o'); [|done]. simpl in Heq.
    injection Heq as <- _. apply list_elem_of_fmap. by exists (o', n'). }
  intros [[= -> ->]|Hin]%elem_of_cons.
  - destruct (columns df !! o) as [s|]; simpl.
    + by rewrite lookup_insert_eq.
    + by apply Hnone.
  - assert (new ≠ n) as Hne.
    { intros ->. apply Hn. apply list_elem_of_fmap. by exists (old, n). }
    destruct (columns df !! o) as [s|]; simpl.
    + rewrite lookup_insert_ne; [|done]. by apply IH.
    + by apply IH.
Qed.

Lemma select_rename_other cols_map df c :
  c ∉ cols_map.*2 → columns (select_rename cols_map df) !! c = None.
Proof.
  intros Hc. unfold select_rename; simpl.
  apply not_elem_of_list_to_map_1. intros Hin. apply Hc.
  apply list_elem_of_fmap in Hin as ([c' s] & -> & Hin).
  apply list_elem_of_omap in Hin as ([o' n'] & Hin & Heq).
  destruct (columns df !! o'); [|done]. simpl in Heq.
  injection Heq as <- _. apply list_elem_of_fmap. by exists (o', n').
Qed.

Lemma head_control_names_NoDup : NoDup head_control_cols_map.*2.
Proof. apply (bool_decide_unpack _). vm_compute. exact I. Qed.

Lemma head_info_to_merge_spec heads_df keys :
  columns heads_df !! "hhid" = Some keys →
  head_info_to_merge heads_df
  = Return (filter_rows (first_occurrence [] keys)
              (select_rename head_control_cols_map heads_df)).
Proof.
  intros Hk. unfold head_info_to_merge, drop_duplicates.
  rewrite (select_rename_lookup _ _ "hhid" "hhid" head_control_names_NoDup).
  - by rewrite Hk.
  - apply list_elem_of_here.
Qed.

(** X12. The head attributes handed to the merge: when the heads have a
    household key, each renamed attribute holds the first-per-household
    rows of the column it is renamed from (and is absent when that column
    is), and no other column of the heads is carried along. *)
Theorem head_info_columns heads_df keys :
  columns heads_df !! "hhid" = Some keys →
  ∃ info,
    head_info_to_merge heads_df = Return info
    ∧ (∀ old new, (old, new) ∈ head_control_cols_map →
         columns info !! new
         = boolean_index (first_occurrence [] keys) <$> columns heads_df !! old)
    ∧ (∀ c, c ∉ head_control_cols_map.*2 → columns info !! c = None).
Proof.
  intros Hk. eexists. split; [by apply head_info_to_merge_spec|]. split.
  - intros old new Hin. unfold filter_rows. cbn [columns].
    rewrite lookup_fmap.
    by rewrite (select_rename_lookup _ _ old new head_control_names_NoDup Hin).
  - intros c Hc. unfold filter_rows. cbn [columns]. rewrite lookup_fmap.
    by rewrite (select_rename_other _ _ _ Hc).
Qed.

Lemma head_info_columns_witness :
  ∃ info,
    head_info_to_merge heads_example = Return info
    ∧ columns info !! "head_sex" = Some [Some (num 1); Some (num 2)]
    ∧ columns info !! "a2001" = None.
Proof.
  destruct (head_info_columns heads_example
              [Some (num 101); Some (num 101); Some (num 102)])
    as (info & Hrun & Hcols & Hother).
  - reflexivity.
  - exists info. split; [exact Hrun|]. split.
    + rewrite (Hcols "a2003" "head_sex").
      * vm_compute. reflexivity.
      * apply (bool_decide_unpack _). vm_compute. exact I.
    + apply Hother. apply (bool_decide_unpack _). vm_compute. exact I.
Defined.


Lemma length_matching_rows a right_keys (k : cell) :
  length (matching_rows a right_keys k)
  = length (filter (λ k', k' = k) right_keys).
Proof.
  revert a. induction right_keys as [|k' rk IH]; intros a; simpl; [done|].
  case_decide.
  - rewrite filter_cons_True by done. simpl. by rewrite IH.
  - rewrite filter_cons_False by done. apply IH.
Qed.

Lemma sum_list_cons x l : sum_list (x :: l) = x + sum_list l.
Proof. reflexivity. Qed.

Lemma length_left_join_rows a left_keys right_keys :
  length (left_join_rows a left_keys right_keys)
  = sum_list ((λ k, Nat.max 1 (length (filter (λ k', k' = k) right_keys)))
                <$> left_keys).
Proof.
  revert a. induction left_keys as [|k lk IH]; intros a; [done|].
  rewrite fmap_cons, sum_list_cons. cbn [left_join_rows].
  rewrite length_app, IH. f_equal.
  rewrite <- (length_matching_rows 0).
  destruct (matching_rows 0 right_keys k) as [|j js]; [done|].
  rewrite length_fmap. cbn [length]. lia.
Qed.

(** X13. The left join never loses a household row, and the row-count
    check after the merge fires exactly when some household key of the
    left table is carried by two or more rows of the right table. *)
Theorem row_count_warning_iff left_keys right_keys :
  (length left_keys ≤ length (left_join_rows 0 left_keys right_keys))%nat
  ∧ (row_count_changed left_keys right_keys = true
     ↔ ∃ k, k ∈ left_keys
           ∧ (2 ≤ length (filter (λ k', k' = k) right_keys))%nat).
Proof.
  unfold row_count_changed. rewrite bool_decide_eq_true.
  rewrite length_left_join_rows.
  induction left_keys as [|k lk [IHle IHiff]];
    rewrite ?fmap_cons, ?sum_list_cons; cbn [length].
  - split; [lia|]. split; [done|]. by intros (k & ?%elem_of_nil & _).
  - split; [lia|]. split.
    + intros Hne.
      destruct (decide (2 ≤ length (filter (λ k', k' = k) right_keys))%nat)
        as [Hk|Hk].
      * exists k. split; [apply list_elem_of_here | done].
      * destruct IHiff as [IH _]. destruct IH as (k' & Hin & Hk'); [lia|].
        exists k'. split; [by apply list_elem_of_further | done].
    + intros (k' & [->|Hin]%elem_of_cons & Hk'); [lia|].
      destruct IHiff as [_ IH]. specialize (IH (ex_intro _ k' (conj Hin Hk'))).
      lia.
Qed.

Lemma matching_rows_absent a right_keys (k : cell) :
  k ∉ right_keys → matching_rows a right_keys k = [].
Proof.
  revert a. induction right_keys as [|k' rk IH]; intros a Hk; simpl; [done|].
  apply not_elem_of_cons in Hk as [Hne Hk].
  rewrite decide_False by done. by apply IH.
Qed.

Lemma matching_rows_NoDup a right_keys (k : cell) :
  NoDup right_keys →
  (matching_rows a right_keys k = [] ∧ k ∉ right_keys)
  ∨ ∃ j, matching_rows a right_keys k = [a + j] ∧ right_keys !! j = Some k.
Proof.
  revert a. induction right_keys as [|k' rk IH]; intros a Hnd; simpl.
  - left. split; [done | by intros ?%elem_of_nil].
  - apply NoDup_cons in Hnd as [Hk' Hnd]. case_decide as Heq.
    + subst k'. right. exists 0. rewrite matching_rows_absent by done.
      by rewrite Nat.add_0_r.
    + destruct (IH (S a) Hnd) as [[-> Hk]|(j & -> & Hj)].
      * left. split; [done|]. by apply not_elem_of_cons.
      * right. exists (S j). split; [f_equal; lia | done].
Qed.

Lemma left_join_rows_unique a left_keys right_keys :
  NoDup right_keys →
  ∀ i k, left_keys !! i = Some k →
    ∃ oj, left_join_rows a left_keys right_keys !! i = Some (a + i, oj)
      ∧ match oj with
        | Some j => right_keys !! j = Some k
        | None => k ∉ right_keys
        end.
Proof.
  intros Hnd. revert a.
  induction left_keys as [|k' lk IH]; intros a i k; [done|].
  assert (∃ oj, (match matching_rows 0 right_keys k' with
                 | [] => [(a, None)]
                 | js => (λ j, (a, Some j)) <$> js
                 end) = [(a, oj)]
            ∧ match oj with
              | Some j => right_keys !! j = Some k'
              | None => k' ∉ right_keys
              end) as (oj & Hhead & Hoj).
  { destruct (matching_rows_NoDup 0 right_keys k' Hnd) as [[-> Hk]|(j & -> & Hj)].
    - by exists None.
    - by exists (Some j). }
  cbn [left_join_rows]. rewrite Hhead. destruct i as [|i]; simpl.
  - intros [= ->]. exists oj. by rewrite Nat.add_0_r.
  - intros Hi. destruct (IH (S a) i k Hi) as (oj' & Hrow & Hoj').
    exists oj'. split; [|done]. rewrite Hrow. do 2 f_equal. lia.
Qed.

(** X14. Merging the head attributes into the household table: the row
    count never changes, and in every merged attribute each household
    holds the value of the first head listed under its key, or a missing
    value when no head is. *)
Theorem merged_head_attributes heads_df head_keys hh_keys :
  df_wf heads_df →
  columns heads_df !! "hhid" = Some head_keys →
  ∃ info info_keys,
    head_info_to_merge heads_df = Return info
    ∧ columns info !! "hhid" = Some info_keys
    ∧ row_count_changed hh_keys info_keys = false
    ∧ ∀ old new s, (old, new) ∈ head_control_cols_map →
        columns heads_df !! old = Some s →
        ∃ s', columns info !! new = Some s'
          ∧ ∀ i k, hh_keys !! i = Some k →
              take_right (left_join_rows 0 hh_keys info_keys) s' !! i
              = Some (from_option (λ p, mjoin (s !! p.1)) NaN
                        (list_find (λ k', k' = k) head_keys)).
Proof.
  intros Hwf Hk.
  set (mask := first_occurrence [] head_keys).
  assert (∀ old new, (old, new) ∈ head_control_cols_map →
            columns (filter_rows mask (select_rename head_control_cols_map heads_df))
              !! new = boolean_index mask <$> columns heads_df !! old) as Hcols.
  { intros old new Hin. unfold filter_rows. cbn [columns]. rewrite lookup_fmap.
    by rewrite (select_rename_lookup _ _ old new head_control_names_NoDup Hin). }
  assert (NoDup (boolean_index mask head_keys)) as Hnd
    by apply first_occurrence_NoDup.
  exists (filter_rows mask (select_rename head_control_cols_map heads_df)),
    (boolean_index mask head_keys).
  split; [by apply head_info_to_merge_spec|]. split.
  { rewrite (Hcols "hhid" "hhid") by apply list_elem_of_here. by rewrite Hk. }
  split.
  { apply bool_decide_eq_false. intros Hne. apply Hne. clear Hne.
    rewrite length_left_join_rows.
    induction hh_keys as [|k lk IH]; [done|].
    rewrite fmap_cons, sum_list_cons. cbn [length]. rewrite IH.
    destruct (matching_rows_NoDup 0 (boolean_index mask head_keys) k Hnd)
      as [[Hm _]|(j & Hm & _)];
      rewrite <- (length_matching_rows 0), Hm; done. }
  intros old new s Hin Hs. exists (boolean_index mask s).
  split; [by rewrite (Hcols old new Hin), Hs|].
  intros i k Hi.
  destruct (left_join_rows_unique 0 hh_keys _ Hnd i k Hi) as (oj & Hrow & Hoj).
  unfold take_right. rewrite list_lookup_fmap, Hrow. simpl. f_equal.
  destruct oj as [j|]; simpl.
  - assert (is_Some (boolean_index mask s !! j)) as [x Hx].
    { apply lookup_lt_is_Some.
      rewrite (length_boolean_index mask s head_keys)
        by (by rewrite (Hwf _ _ Hs), (Hwf _ _ Hk)).
      by eapply lookup_lt_Some. }
    destruct (first_rows_aligned head_keys s j k x Hoj Hx) as (p & Hp & Hfirst & Hsp).
    assert (list_find (λ k', k' = k) head_keys = Some (p, k)) as ->.
    { apply list_find_Some. split_and!; [done..|].
      intros q y Hq Hlt ->. apply Hfirst.
      apply list_elem_of_lookup. exists q. by rewrite lookup_take_lt. }
    simpl. by rewrite Hx, Hsp.
  - assert (list_find (λ k', k' = k) head_keys = None) as ->; [|done].
    apply list_find_None. apply Forall_forall. intros y Hy ->.
    apply Hoj. by apply first_occurrence_keys.
Qed.

Lemma merged_head_attributes_witness :
  ∃ info info_keys,
    head_info_to_merge heads_example = Return info
    ∧ columns info !! "hhid" = Some info_keys
    ∧ row_count_changed hh_keys_example info_keys = false.
Proof.
  destruct (merged_head_attributes heads_example
              [Some (num 101); Some (num 101); Some (num 102)] hh_keys_example)
    as (info & info_keys & Hrun & Hkeys & Hcount & _).
  - apply df_wf_decidable. vm_compute. exact I.
  - reflexivity.
  - exists info, info_keys. exact (conj Hrun (conj Hkeys Hcount)).
Defined.


(** ** Control variables *)

Lemma length_indicator cond src : length (indicator cond src) = length src.
Proof.
  unfold indicator, loc_assign. rewrite length_zip_with, !length_fmap. lia.
Qed.

Lemma indicator_lookup cond (src : Series) r c :
  src !! r = Some c →
  indicator cond src !! r
  = Some (match c with
          | Some _ => Some (if cond c then num 1 else num 0)
          | None => NaN
          end).
Proof.
  intros Hc. unfold indicator, loc_assign.
  rewrite lookup_zip_with, !list_lookup_fmap, Hc. simpl.
  by destruct c.
Qed.

Lemma prepare_controls_eq hh_df :
  prepare_controls hh_df
  = (set_col
       (set_col
          (set_col
             (set_col hh_df "head_is_male"
                (indicator_or_missing hh_df "head_sex"
                   (cell_is (λ x, x = num 1))))
             "head_is_married"
             (indicator_or_missing hh_df "head_marital"
                (cell_is (λ x, x ∈ [num 2; num 3; num 7]))))
          "has_business"
          (indicator_or_missing hh_df "b2000b" (cell_is (λ x, x = num 1))))
       "num_houses"
       (match columns hh_df !! "c2002" with
        | Some c2002 => fillna (num 0) c2002
        | None => replicate (nrows hh_df) (Some (num 0))
        end),
     omap (λ p : string * control_warning,
             if has_col hh_df p.1 then None else Some p.2) control_sources).
Proof.
  unfold prepare_controls, indicator_or_missing, control_sources, has_col.
  cbn [omap list_omap fst snd].
  destruct (columns hh_df !! "head_sex") as [s1|] eqn:H1;
    unfold set_scalar, set_col; cbn [columns nrows];
    (rewrite lookup_insert_ne by done);
    destruct (columns hh_df !! "head_marital") as [s2|] eqn:H2;
    cbn [columns nrows];
    (rewrite !lookup_insert_ne by done);
    destruct (columns hh_df !! "b2000b") as [s3|] eqn:H3;
    cbn [columns nrows];
    (rewrite !lookup_insert_ne by done);
    destruct (columns hh_df !! "c2002") as [s4|] eqn:H4;
    reflexivity.
Qed.

Lemma indicator_or_missing_cell hh_df src cond r :
  df_wf hh_df → (r < nrows hh_df)%nat →
  indicator_or_missing hh_df src cond !! r
  = Some (match cell_at hh_df src r with
          | Some x => Some (if cond (Some x) then num 1 else num 0)
          | None => NaN
          end).
Proof.
  intros Hwf Hr. unfold indicator_or_missing, cell_at.
  destruct (columns hh_df !! src) as [s|] eqn:Hs; simpl.
  - destruct (lookup_lt_is_Some_2 s r) as [c Hc]; [by rewrite (Hwf _ _ Hs)|].
    rewrite (indicator_lookup _ _ _ _ Hc), Hc. simpl. by destruct c.
  - by rewrite lookup_replicate_2.
Qed.

(** X15. The three indicator controls.  For every household the indicator
    is missing exactly when its source answer is missing (or the source
    column is absent), is 1 exactly when the source answer is one of the
    codes counted (1 for a male head, 2, 3 or 7 for a married head, 1 for
    a business), and is 0 otherwise. *)
Theorem control_indicator_values hh_df src dst codes :
  df_wf hh_df →
  (src, dst, codes) ∈ indicator_sources →
  ∃ s, columns (prepare_controls hh_df).1 !! dst = Some s
    ∧ length s = nrows hh_df
    ∧ ∀ r, (r < nrows hh_df)%nat →
        s !! r
        = Some (match cell_at hh_df src r with
                | None => NaN
                | Some x => Some (if bool_decide (x ∈ codes) then num 1 else num 0)
                end).
Proof.
  intros Hwf Hin. rewrite prepare_controls_eq. cbn [fst].
  unfold set_col; cbn [columns nrows].
  assert (∀ src cond, length (indicator_or_missing hh_df src cond) = nrows hh_df)
    as Hlen.
  { intros src' cond. unfold indicator_or_missing.
    destruct (columns hh_df !! src') as [s|] eqn:Hs.
    - by rewrite length_indicator, (Hwf _ _ Hs).
    - by rewrite length_replicate. }
  unfold indicator_sources in Hin.
  apply elem_of_cons in Hin as [[= -> -> ->]|Hin];
    [|apply elem_of_cons in Hin as [[= -> -> ->]|Hin];
      [|apply elem_of_cons in Hin as [[= -> -> ->]|Hin];
        [|by apply elem_of_nil in Hin]]].
  - eexists. split.
    { rewrite !lookup_insert_ne by done. by rewrite lookup_insert_eq. }
    split; [apply Hlen|]. intros r Hr.
    rewrite indicator_or_missing_cell by done.
    destruct (cell_at hh_df "head_sex" r) as [x|]; [|done]. simpl.
    do 2 f_equal.
    rewrite (bool_decide_ext (x = num 1) (x ∈ [num 1])); [done|].
    split; [intros ->; apply list_elem_of_here|].
    by intros [->|?%elem_of_nil]%elem_of_cons.
  - eexists. split.
    { rewrite !lookup_insert_ne by done. by rewrite lookup_insert_eq. }
    split; [apply Hlen|]. intros r Hr.
    by rewrite indicator_or_missing_cell by done.
  - eexists. split.
    { rewrite !lookup_insert_ne by done. by rewrite lookup_insert_eq. }
    split; [apply Hlen|]. intros r Hr.
    rewrite indicator_or_missing_cell by done.
    destruct (cell_at hh_df "b2000b" r) as [x|]; [|done]. simpl.
    do 2 f_equal.
    rewrite (bool_decide_ext (x = num 1) (x ∈ [num 1])); [done|].
    split; [intros ->; apply list_elem_of_here|].
    by intros [->|?%elem_of_nil]%elem_of_cons.
Qed.

Lemma control_indicator_values_witness :
  ∃ s, columns (prepare_controls hh_controls_example).1 !! "head_is_male" = Some s
    ∧ s !! 2%nat = Some NaN.
Proof.
  destruct (control_indicator_values hh_controls_example
              "head_sex" "head_is_male" [num 1])
    as (s & Hs & _ & Hrows).
  - apply df_wf_decidable. vm_compute. exact I.
  - apply list_elem_of_here.
  - exists s. split; [exact Hs|]. rewrite (Hrows 2%nat); [reflexivity|].
    vm_compute. lia.
Defined.

(** X16. [num_houses] is never missing: it is the number of houses
    answered, and 0 where the answer is missing or the whole column is
    absent. *)
Theorem num_houses_never_missing hh_df :
  df_wf hh_df →
  ∃ s, columns (prepare_controls hh_df).1 !! "num_houses" = Some s
    ∧ length s = nrows hh_df
    ∧ ∀ r, (r < nrows hh_df)%nat →
        s !! r = Some (Some (default (num 0) (cell_at hh_df "c2002" r))).
Proof.
  intros Hwf. rewrite prepare_controls_eq. cbn [fst].
  unfold set_col; cbn [columns nrows]. eexists.
  split; [by rewrite lookup_insert_eq|].
  unfold cell_at. destruct (columns hh_df !! "c2002") as [s|] eqn:Hs; simpl.
  - split; [unfold fillna; by rewrite length_fmap, (Hwf _ _ Hs)|].
    intros r Hr.
    destruct (lookup_lt_is_Some_2 s r) as [c Hc]; [by rewrite (Hwf _ _ Hs)|].
    unfold fillna. by rewrite list_lookup_fmap, Hc.
  - split; [by rewrite length_replicate|]. intros r Hr.
    by rewrite lookup_replicate_2.
Qed.

Lemma num_houses_never_missing_witness :
  ∃ s, columns (prepare_controls hh_controls_example).1 !! "num_houses" = Some s
    ∧ s !! 1%nat = Some (Some (num 0)).
Proof.
  destruct (num_houses_never_missing hh_controls_example) as (s & Hs & _ & Hrows).
  - apply df_wf_decidable. vm_compute. exact I.
  - exists s. split; [exact Hs|]. rewrite (Hrows 1%nat); [reflexivity|].
    vm_compute. lia.
Defined.

(** X17. The control-variable step changes no column but the four it
    writes, keeps the table well formed, and warns once for each absent
    source column, in the order head sex, marital status, business flag,
    house count. *)
Theorem prepare_controls_frame hh_df :
  df_wf hh_df →
  df_wf (prepare_controls hh_df).1
  ∧ nrows (prepare_controls hh_df).1 = nrows hh_df
  ∧ (∀ c, c ∉ control_names →
       columns (prepare_controls hh_df).1 !! c = columns hh_df !! c)
  ∧ (prepare_controls hh_df).2
    = omap (λ p : string * control_warning,
              if has_col hh_df p.1 then None else Some p.2) control_sources.
Proof.
  intros Hwf. rewrite prepare_controls_eq. cbn [fst snd].
  assert (∀ src cond, length (indicator_or_missing hh_df src cond) = nrows hh_df)
    as Hlen.
  { intros src' cond. unfold indicator_or_missing.
    destruct (columns hh_df !! src') as [s|] eqn:Hs.
    - by rewrite length_indicator, (Hwf _ _ Hs).
    - by rewrite length_replicate. }
  split.
  { repeat apply set_col_wf; try done; try apply Hlen.
    cbn [set_col nrows].
    destruct (columns hh_df !! "c2002") as [s|] eqn:Hs.
    - unfold fillna. by rewrite length_fmap, (Hwf _ _ Hs).
    - by rewrite length_replicate. }
  split; [done|]. split; [|done].
  intros c Hc. unfold set_col; cbn [columns].
  unfold control_names in Hc.
  rewrite !not_elem_of_cons in Hc. destruct Hc as (? & ? & ? & ? & _).
  by rewrite !lookup_insert_ne by done.
Qed.

Lemma prepare_controls_frame_witness :
  (prepare_controls hh_controls_example).2 = [BusinessFlagMissing].
Proof.
  destruct (prepare_controls_frame hh_controls_example) as (_ & _ & _ & Hlog).
  - apply df_wf_decidable. vm_compute. exact I.
  - rewrite Hlog. vm_compute. reflexivity.
Defined.


(** ** Log transforms and the analysis table *)

Lemma length_debt_ratio_column (total_debt total_assets : Series) n :
  length total_debt = n → length total_assets = n →
  length (debt_ratio_column total_debt total_assets) = n.
Proof.
  intros Hd Ha. unfold debt_ratio_column, loc_assign. cbv zeta.
  rewrite !length_zip_with, !length_fmap. lia.
Qed.

Lemma length_total_assets_column df (raw : Series) :
  df_wf df → length raw = nrows df →
  length (total_assets_column df raw) = nrows df.
Proof.
  intros Hwf Hraw. unfold total_assets_column. cbv zeta. rewrite length_fmap.
  destruct (columns df !! vehicle_adj_val_col) as [adj|] eqn:Hadj.
  - unfold fillna. rewrite length_zip_with, length_fmap, (Hwf _ _ Hadj). lia.
  - by rewrite length_fmap.
Qed.

Lemma length_winsorized_column (s : Series) :
  length (winsorized_column (length s) s).1 = length s.
Proof.
  destruct (winsorized_column_cells s) as (lo & hi & _ & -> & _).
  by rewrite length_fmap.
Qed.

Lemma aggregate_wf hh_df dv av :
  df_wf hh_df → df_wf (aggregate hh_df dv av).1.
Proof.
  intros Hwf. unfold aggregate. cbv zeta.
  set (td := sum_axis1 (nrows hh_df) _).
  set (h1 := set_col hh_df "total_debt" td).
  set (raw := sum_axis1 (nrows h1) _).
  set (h2 := set_col h1 "total_assets_raw" raw).
  set (ta := total_assets_column h2 raw).
  set (h3 := set_col h2 "total_assets" ta).
  set (ratio := debt_ratio_column td ta).
  set (h4 := set_col h3 "debt_ratio" ratio).
  assert (df_wf h1) as Hwf1 by (apply set_col_wf; [done | apply length_sum_axis1]).
  assert (df_wf h2) as Hwf2 by (apply set_col_wf; [done | apply length_sum_axis1]).
  assert (length ta = nrows hh_df) as Hta.
  { apply (length_total_assets_column h2 raw Hwf2), length_sum_axis1. }
  assert (df_wf h3) as Hwf3 by by apply set_col_wf.
  assert (length ratio = nrows hh_df) as Hratio.
  { apply length_debt_ratio_column; [apply length_sum_axis1 | done]. }
  assert (df_wf h4) as Hwf4 by by apply set_col_wf.
  change (nrows h4) with (nrows hh_df). rewrite <- Hratio.
  pose proof (length_winsorized_column ratio) as Hw.
  destruct (winsorized_column (length ratio) ratio) as [w log]. simpl in *.
  apply set_col_wf; [done|]. by rewrite Hw.
Qed.

Lemma household_ratio hh_df :
  df_wf hh_df →
  ∃ out log total_debt total_assets,
    process_household hh_df = Return (out, log)
    ∧ df_wf out
    ∧ nrows out = nrows hh_df
    ∧ columns out !! "total_assets" = Some total_assets
    ∧ columns out !! "debt_ratio"
      = Some (debt_ratio_column total_debt total_assets)
    ∧ columns out !! "debt_ratio_winsorized"
      = Some (winsorized_column (nrows hh_df)
                (debt_ratio_column total_debt total_assets)).1
    ∧ ∀ r, (r < nrows hh_df)%nat →
        ∃ a, total_assets !! r = Some (Some a) ∧ (0 ≤ a)%Qc.
Proof.
  intros Hwf.
  destruct (process_household_spec hh_df Hwf)
    as (hh0 & hh3 & out & log' & _ & _ & _ & _ & Hwf3 & Hn3 & _ & _ & Hveh & Hagg
        & Hrun).
  destruct written_parts as (_ & _ & _ & Hother & Hveh_agg).
  destruct (aggregate_spec hh3 (val_name <$> debt_pairs.*1)
              (val_name <$> asset_pairs.*1) Hwf3 Hveh)
    as (out' & log'' & td & raw & ta & Hagg' & Hn & _ & _ & _ & Hta & Hratio & Hw
        & Hrows).
  { intros Hin. destruct (Hother "total_debt") as [_ Hno].
    - apply elem_of_app. by right.
    - apply Hno. apply list_elem_of_here. }
  pose proof (aggregate_wf hh3 (val_name <$> debt_pairs.*1)
                (val_name <$> asset_pairs.*1) Hwf3) as Hwfo.
  rewrite Hagg in Hagg'. injection Hagg' as <- <-.
  rewrite Hagg in Hwfo. cbn [fst] in Hwfo.
  eexists out, _, td, ta. split; [exact Hrun|]. clear Hrun Hagg.
  split; [exact Hwfo|]. split; [by rewrite Hn|]. split; [exact Hta|].
  split; [exact Hratio|]. split; [by rewrite <- Hn3|].
  intros r Hr. rewrite <- Hn3 in Hr. destruct (Hrows r Hr) as (_ & _ & Ha).
  eexists. split; [exact Ha|]. apply floor_at_0_nonneg.
Qed.

Lemma select_existing_lookup cols df c :
  columns (select_existing cols df) !! c
  = if bool_decide (c ∈ cols) then columns df !! c else None.
Proof.
  unfold select_existing; cbn [columns].
  induction cols as [|c0 cols IH]; [done|]. cbn [omap list_omap].
  destruct (decide (c = c0)) as [->|Hne].
  - rewrite (bool_decide_true (c0 ∈ c0 :: cols)) by apply list_elem_of_here.
    destruct (columns df !! c0) as [s|] eqn:Hc0;
      cbn [fmap option_fmap option_map].
    + cbn [list_to_map foldr uncurry fst snd]. by rewrite lookup_insert_eq.
    + rewrite IH. by destruct (bool_decide _).
  - rewrite (bool_decide_ext (c ∈ c0 :: cols) (c ∈ cols)).
    2:{ split; [by intros [?|?]%elem_of_cons | by apply list_elem_of_further]. }
    destruct (columns df !! c0) as [s|] eqn:Hc0;
      cbn [fmap option_fmap option_map].
    + cbn [list_to_map foldr uncurry fst snd].
      rewrite lookup_insert_ne by done. exact IH.
    + exact IH.
Qed.

Lemma prepare_controls_other hh_df c :
  c ∉ control_names →
  columns (prepare_controls hh_df).1 !! c = columns hh_df !! c.
Proof.
  intros Hc. rewrite prepare_controls_eq. cbn [fst].
  unfold set_col; cbn [columns]. unfold control_names in Hc.
  rewrite !not_elem_of_cons in Hc. destruct Hc as (? & ? & ? & ? & _).
  by rewrite !lookup_insert_ne by done.
Qed.

Lemma prepare_controls_wf hh_df :
  df_wf hh_df →
  df_wf (prepare_controls hh_df).1
  ∧ nrows (prepare_controls hh_df).1 = nrows hh_df.
Proof.
  intros Hwf. rewrite prepare_controls_eq. cbn [fst].
  assert (∀ src cond, length (indicator_or_missing hh_df src cond) = nrows hh_df)
    as Hlen.
  { intros src' cond. unfold indicator_or_missing.
    destruct (columns hh_df !! src') as [s|] eqn:Hs.
    - by rewrite length_indicator, (Hwf _ _ Hs).
    - by rewrite length_replicate. }
  split; [|done].
  repeat apply set_col_wf; try done; try apply Hlen.
  cbn [set_col nrows].
  destruct (columns hh_df !! "c2002") as [s|] eqn:Hs.
  - unfold fillna. by rewrite length_fmap, (Hwf _ _ Hs).
  - by rewrite length_replicate.
Qed.

Lemma select_existing_wf cols df : df_wf df → df_wf (select_existing cols df).
Proof.
  intros Hwf c s. rewrite select_existing_lookup.
  destruct (bool_decide (c ∈ cols)); [|done]. apply Hwf.
Qed.

Lemma log_transforms_spec ln hh_df (total_assets winsorized : Series) :
  columns hh_df !! "total_assets" = Some total_assets →
  columns hh_df !! "debt_ratio_winsorized" = Some winsorized →
  log_transforms ln hh_df
  = Return
      (set_col
         (set_col hh_df "log_total_assets"
            (np_log ln <$> ((λ a, cell_add a (Some 1%Qc)) <$> total_assets)))
         "log_debt_ratio_winsorized"
         (np_log ln
            <$> (where_positive
                   <$> ((λ c, cell_add c (Some small_constant_dv)) <$> winsorized))),
       []).
Proof.
  intros Hta Hw. unfold log_transforms. rewrite Hta. cbv zeta.
  unfold set_col at 1. cbn [columns].
  rewrite lookup_insert_ne by done. by rewrite Hw.
Qed.

Lemma analysis_table_spec ln hh_df :
  df_wf hh_df →
  ∃ out log total_debt total_assets final,
    process_household hh_df = Return (out, log)
    ∧ columns out !! "debt_ratio"
      = Some (debt_ratio_column total_debt total_assets)
    ∧ length (debt_ratio_column total_debt total_assets) = nrows hh_df
    ∧ (∀ r, (r < nrows hh_df)%nat →
         ∃ a, total_assets !! r = Some (Some a) ∧ (0 ≤ a)%Qc)
    ∧ analysis_table ln hh_df = Return final
    ∧ nrows final = nrows hh_df
    ∧ df_wf final
    ∧ columns final !! "total_assets" = Some total_assets
    ∧ columns final !! "log_total_assets"
      = Some (np_log ln <$> ((λ a, cell_add a (Some 1%Qc)) <$> total_assets))
    ∧ columns final !! "debt_ratio_winsorized"
      = Some (winsorized_column (nrows hh_df)
                (debt_ratio_column total_debt total_assets)).1
    ∧ columns final !! "log_debt_ratio_winsorized"
      = Some (np_log ln
                <$> (where_positive
                       <$> ((λ c, cell_add c (Some small_constant_dv))
                              <$> (winsorized_column (nrows hh_df)
                                     (debt_ratio_column total_debt total_assets)).1))).
Proof.
  intros Hwf.
  destruct (household_ratio hh_df Hwf)
    as (out & log & td & ta & Hrun & Hwfo & Hn & Hta & Hratio & Hw & Hrows).
  set (ratio := debt_ratio_column td ta) in *.
  set (w := (winsorized_column (nrows hh_df) ratio).1) in *.
  assert (length ratio = nrows hh_df) as Hlen.
  { rewrite <- Hn. exact (Hwfo _ _ Hratio). }
  set (c := (prepare_controls out).1).
  assert (columns c !! "total_assets" = Some ta) as Hta'.
  { unfold c. rewrite prepare_controls_other; [exact Hta|].
    apply (bool_decide_unpack _). vm_compute. exact I. }
  assert (columns c !! "debt_ratio_winsorized" = Some w) as Hw'.
  { unfold c. rewrite prepare_controls_other; [exact Hw|].
    apply (bool_decide_unpack _). vm_compute. exact I. }
  destruct (prepare_controls_wf out Hwfo) as [Hwfc Hn']. fold c in Hwfc, Hn'.
  rewrite Hn in Hn'.
  assert (length w = nrows hh_df) as Hlenw.
  { unfold w. rewrite <- Hlen. apply length_winsorized_column. }
  pose proof (log_transforms_spec ln c ta w Hta' Hw') as Hlog.
  exists out, log, td, ta,
    (final_df
       (set_col
          (set_col c "log_total_assets"
             (np_log ln <$> ((λ a, cell_add a (Some 1%Qc)) <$> ta)))
          "log_debt_ratio_winsorized"
          (np_log ln
             <$> (where_positive
                    <$> ((λ c, cell_add c (Some small_constant_dv)) <$> w))))).
  split; [exact Hrun|].
  split; [exact Hratio|]. split; [exact Hlen|]. split; [exact Hrows|].
  split.
  { unfold analysis_table. rewrite Hrun. cbn [mbind result_bind].
    clear Hrun. rewrite (surjective_pairing (prepare_controls out)).
    fold c. rewrite Hlog. reflexivity. }
  clear Hrun Hlog. clearbody c.
  split; [exact Hn'|].
  split.
  { apply select_existing_wf. apply set_col_wf; [apply set_col_wf|].
    - exact Hwfc.
    - rewrite !length_fmap, Hn'. rewrite <- Hn. exact (Hwfo _ _ Hta).
    - cbn [set_col nrows]. by rewrite !length_fmap, Hn'. }
  unfold final_df. rewrite !select_existing_lookup.
  unfold set_col; cbn [columns].
  split.
  { rewrite bool_decide_true by (apply (bool_decide_unpack _); vm_compute; exact I).
    rewrite !lookup_insert_ne by done. exact Hta'. }
  split.
  { rewrite bool_decide_true by (apply (bool_decide_unpack _); vm_compute; exact I).
    rewrite lookup_insert_ne by done. by rewrite lookup_insert_eq. }
  split.
  { rewrite bool_decide_true by (apply (bool_decide_unpack _); vm_compute; exact I).
    rewrite !lookup_insert_ne by done. exact Hw'. }
  rewrite bool_decide_true by (apply (bool_decide_unpack _); vm_compute; exact I).
  by rewrite lookup_insert_eq.
Qed.

(** X18. In the analysis table the logarithm of total assets is defined
    for every household: total assets are never missing and never
    negative, so the argument [total_assets + 1] is at least 1. *)
Theorem log_total_assets_defined ln hh_df :
  df_wf hh_df →
  ∃ final (total_assets log_total_assets : Series),
    analysis_table ln hh_df = Return final
    ∧ columns final !! "total_assets" = Some total_assets
    ∧ columns final !! "log_total_assets" = Some log_total_assets
    ∧ ∀ r, (r < nrows hh_df)%nat →
        ∃ a, total_assets !! r = Some (Some a)
          ∧ (1 ≤ a + 1)%Qc
          ∧ log_total_assets !! r = Some (Some (ln (a + 1)%Qc)).
Proof.
  intros Hwf.
  destruct (analysis_table_spec ln hh_df Hwf)
    as (out & log & td & ta & final & _ & _ & _ & Hrows & Hrun & _ & _ & Hta & Hla
        & _).
  exists final, ta, (np_log ln <$> ((λ a, cell_add a (Some 1%Qc)) <$> ta)).
  split; [exact Hrun|]. split; [exact Hta|]. split; [exact Hla|].
  clear Hrun Hta Hla. intros r Hr. destruct (Hrows r Hr) as (a & Ha & Hpos).
  exists a. split; [exact Ha|].
  assert (1 ≤ a + 1)%Qc as Hge.
  { apply (Qcplus_le_mono_r 0 a 1) in Hpos. by rewrite Qcplus_0_l in Hpos. }
  split; [exact Hge|].
  rewrite !list_lookup_fmap, Ha. simpl. unfold np_log. simpl.
  rewrite decide_True; [done|]. by apply Qcplus_nonneg_pos.
Qed.

Lemma log_total_assets_defined_witness :
  ∃ final (log_total_assets : Series),
    analysis_table (λ x, x) hh_example = Return final
    ∧ columns final !! "log_total_assets" = Some log_total_assets.
Proof.
  destruct (log_total_assets_defined (λ x, x) hh_example)
    as (final & ta & la & Hrun & _ & Hla & _).
  - apply df_wf_decidable. vm_compute. exact I.
  - exists final, la. exact (conj Hrun Hla).
Defined.

Lemma log_cell_defined ln q :
  (0 ≤ q)%Qc →
  np_log ln (where_positive (cell_add (Some q) (Some small_constant_dv)))
  = Some (ln (q + small_constant_dv)%Qc).
Proof.
  intros Hq.
  assert (0 < small_constant_dv)%Qc as Hsmall by done.
  assert (0 < q + small_constant_dv)%Qc as Hsum.
  { rewrite Qcplus_comm. by apply Qcplus_pos_nonneg. }
  simpl. unfold where_positive, cell_is. rewrite bool_decide_true by exact Hsum.
  unfold np_log. simpl. by rewrite decide_True by exact Hsum.
Qed.

Lemma analysis_table_nonneg ln hh_df :
  df_wf hh_df →
  no_negative_debt hh_df →
  ∃ final (winsorized : Series),
    analysis_table ln hh_df = Return final
    ∧ nrows final = nrows hh_df
    ∧ df_wf final
    ∧ columns final !! "debt_ratio_winsorized" = Some winsorized
    ∧ columns final !! "log_debt_ratio_winsorized"
      = Some (np_log ln
                <$> (where_positive
                       <$> ((λ c, cell_add c (Some small_constant_dv))
                              <$> winsorized)))
    ∧ ∀ r, (r < nrows hh_df)%nat →
        ∃ c, winsorized !! r = Some c ∧ ∀ q, c = Some q → (0 ≤ q)%Qc.
Proof.
  intros Hwf Hnn.
  destruct (analysis_table_spec ln hh_df Hwf)
    as (out & log & td & ta & final & Hrun & Hratio & Hlen & _ & Hfinal & Hn
        & Hwff & _ & _ & Hw & Hlw).
  destruct (household_debt_nonneg hh_df Hwf Hnn)
    as (out' & log' & td' & ratio' & Hrun' & _ & Hratio' & Hcells).
  rewrite Hrun in Hrun'. apply Return_pair_inj in Hrun' as [<- <-].
  rewrite Hratio in Hratio'. clear Hrun Hratio.
  set (ratio := debt_ratio_column td ta) in *.
  assert (ratio' = ratio) as -> by congruence. clear Hratio'.
  rewrite <- Hlen in Hw, Hlw.
  set (w := (winsorized_column (length ratio) ratio).1) in *.
  exists final, w. split; [exact Hfinal|]. split; [exact Hn|].
  split; [exact Hwff|]. split; [exact Hw|].
  split; [exact Hlw|]. clear Hfinal Hw Hlw Hwff.
  assert (∃ lo hi, (0 ≤ lo)%Qc ∧ (lo ≤ hi)%Qc
            ∧ w = fmap (M:=option) (clip lo hi) <$> ratio)
    as (lo & hi & Hlo & Hlh & Hclip).
  { destruct (dropna ratio) as [|p l] eqn:Hd.
    - destruct (winsorized_column_cells ratio) as (lo & hi & Hlh & Hc & _).
      exists 0%Qc, 0%Qc. split; [done|]. split; [done|].
      unfold w. rewrite Hc.
      rewrite (dropna_nil_all_missing _ Hd). by rewrite !fmap_replicate.
    - destruct (winsorized_column_bounds ratio) as (lo & hi & Hin & _ & Hlh & Hc).
      { by rewrite Hd. }
      exists lo, hi. split; [|done].
      apply list_elem_of_lookup in Hin as [r Hr].
      destruct (Hcells r) as (_ & c & Hc' & Hpos).
      { rewrite <- Hlen. by eapply lookup_lt_Some. }
      apply Hpos. congruence. }
  intros r Hr. destruct (Hcells r Hr) as (_ & c & Hc & Hpos).
  rewrite Hclip, list_lookup_fmap, Hc. simpl. eexists. split; [done|].
  destruct c as [x|]; simpl; [|done]. intros q [= <-].
  destruct (clip_cases lo hi x Hlh) as (Hge & _). by etrans.
Qed.

(** X19. When no exact debt field holds a negative amount, the guard
    [where(log_input > 0)] removes nothing: the winsorised debt ratio is
    missing or non-negative for every household, and its logarithm is
    missing exactly where the winsorised ratio is, and is the logarithm of
    the ratio plus 0.001 elsewhere. *)
Theorem log_ratio_defined_where_ratio_is ln hh_df :
  df_wf hh_df →
  no_negative_debt hh_df →
  ∃ final (winsorized log_winsorized : Series),
    analysis_table ln hh_df = Return final
    ∧ columns final !! "debt_ratio_winsorized" = Some winsorized
    ∧ columns final !! "log_debt_ratio_winsorized" = Some log_winsorized
    ∧ ∀ r, (r < nrows hh_df)%nat →
        (winsorized !! r = Some NaN ∧ log_winsorized !! r = Some NaN)
        ∨ ∃ q, winsorized !! r = Some (Some q)
            ∧ (0 ≤ q)%Qc
            ∧ log_winsorized !! r
              = Some (Some (ln (q + small_constant_dv)%Qc)).
Proof.
  intros Hwf Hnn.
  destruct (analysis_table_nonneg ln hh_df Hwf Hnn)
    as (final & w & Hrun & _ & _ & Hw & Hlw & Hcells).
  eexists final, w, _. split; [exact Hrun|]. split; [exact Hw|].
  split; [exact Hlw|]. clear Hrun Hw Hlw.
  intros r Hr. destruct (Hcells r Hr) as (c & Hc & Hpos).
  rewrite !list_lookup_fmap, Hc. cbn [fmap option_fmap option_map].
  destruct c as [q|]; [right | by left].
  exists q. split; [done|]. split; [by apply Hpos|].
  f_equal. apply log_cell_defined. by apply Hpos.
Qed.

Lemma log_ratio_defined_where_ratio_is_witness :
  ∃ final (log_winsorized : Series),
    analysis_table (λ x, x) hh_example = Return final
    ∧ columns final !! "log_debt_ratio_winsorized" = Some log_winsorized.
Proof.
  destruct (log_ratio_defined_where_ratio_is (λ x, x) hh_example)
    as (final & w & lw & Hrun & _ & Hlw & _).
  - apply df_wf_decidable. vm_compute. exact I.
  - apply no_negative_debt_decidable. vm_compute. reflexivity.
  - exists final, lw. exact (conj Hrun Hlw).
Defined.


(** ** Listwise deletion and the regression samples *)

Lemma boolean_index_all (mask : list bool) {A} (l : list A) :
  Forall (λ m, m = true) mask → (length l ≤ length mask)%nat →
  boolean_index mask l = l.
Proof.
  revert l. induction mask as [|m mask IH]; intros [|x l] Hall Hlen; simpl in *;
    try done; try lia.
  apply Forall_cons in Hall as [-> Hall]. f_equal. apply IH; [done | lia].
Qed.

Lemma complete_rows_lookup n (cols : list Series) r :
  (r < n)%nat →
  complete_rows n cols !! r
  = Some (forallb (λ s : Series, bool_decide (mjoin (s !! r) ≠ NaN)) cols).
Proof.
  intros Hr. unfold complete_rows.
  by rewrite list_lookup_fmap, lookup_seq_lt.
Qed.

Lemma length_complete_rows n cols : length (complete_rows n cols) = n.
Proof. unfold complete_rows. by rewrite length_fmap, length_seq. Qed.

Lemma select_columns_elem df cols c s :
  c ∈ cols → columns df !! c = Some s → s ∈ select_columns df cols.
Proof.
  intros Hc Hs. unfold select_columns. apply list_elem_of_omap. by exists c.
Qed.

Lemma dropna_subset_column subset df c :
  columns (dropna_subset subset df) !! c
  = boolean_index
      (complete_rows (nrows df)
         (select_columns df (filter (λ c, has_col df c) subset)))
    <$> columns df !! c.
Proof. unfold dropna_subset, filter_rows. cbn [columns]. apply lookup_fmap. Qed.

Lemma has_col_lookup df c s : columns df !! c = Some s → has_col df c.
Proof. intros Hs. unfold has_col. apply bool_decide_pack. by rewrite Hs. Qed.

Lemma dropna_subset_complete subset df c s :
  df_wf df → c ∈ subset → columns (dropna_subset subset df) !! c = Some s →
  Forall (λ v : cell, v ≠ NaN) s.
Proof.
  intros Hwf Hc. rewrite dropna_subset_column.
  destruct (columns df !! c) as [s0|] eqn:Hs0; [|done]. intros [= <-].
  apply Forall_forall. intros v Hv.
  apply list_elem_of_lookup in Hv as [j Hj].
  apply boolean_index_lookup in Hj as (r & Hm & Hr).
  assert (r < nrows df)%nat as Hlt.
  { rewrite <- (Hwf _ _ Hs0). by eapply lookup_lt_Some. }
  rewrite complete_rows_lookup in Hm by done.
  injection Hm as Hm. rewrite forallb_forall in Hm.
  specialize (Hm s0). rewrite Hr in Hm. simpl in Hm.
  apply bool_decide_eq_true in Hm; [done|].
  apply list_elem_of_In. apply (select_columns_elem df _ c); [|done].
  apply list_elem_of_filter. split; [|done]. by eapply has_col_lookup.
Qed.

(** X20. Listwise deletion.  In the sample that [dropna(subset=...)]
    leaves, no cell of a column named in the subset is missing, and the
    rows of the sample are rows of the table, taken whole (the same rows
    in every column) and in their original order. *)
Theorem listwise_deletion_complete subset df :
  df_wf df →
  df_wf (dropna_subset subset df)
  ∧ (nrows (dropna_subset subset df) ≤ nrows df)%nat
  ∧ (∀ c s, c ∈ subset → columns (dropna_subset subset df) !! c = Some s →
       Forall (λ v : cell, v ≠ NaN) s)
  ∧ ∃ kept : list nat,
      StronglySorted lt kept
      ∧ length kept = nrows (dropna_subset subset df)
      ∧ ∀ c s, columns df !! c = Some s →
          columns (dropna_subset subset df) !! c
          = Some ((λ r, mjoin (s !! r)) <$> kept).
Proof.
  intros Hwf.
  set (cols := select_columns df (filter (λ c, has_col df c) subset)).
  set (mask := complete_rows (nrows df) cols).
  split; [by apply filter_rows_wf|]. split.
  { unfold dropna_subset, filter_rows. cbn [nrows]. fold cols mask.
    clearbody mask. generalize (nrows df). generalize 0%nat. clear.
    intros a k. revert a mask.
    induction k as [|k IH]; intros a [|m mask]; simpl; try lia.
    specialize (IH (S a) mask). destruct m; simpl; lia. }
  split.
  { intros c s Hc Hs. exact (dropna_subset_complete subset df c s Hwf Hc Hs). }
  exists (boolean_index mask (seq 0 (nrows df))). split.
  { clearbody mask. generalize (nrows df). generalize 0%nat. clear.
    intros a k. revert a mask.
    assert (∀ k a mask x, x ∈ boolean_index mask (seq a k) → (a ≤ x)%nat) as Hge.
    { intros k' a' mask' x Hx%boolean_index_elem. apply elem_of_seq in Hx. lia. }
    induction k as [|k IH]; intros a [|m mask]; simpl; try constructor.
    destruct m; [|apply IH]. constructor; [apply IH|].
    apply Forall_forall. intros x Hx%Hge. lia. }
  split; [done|].
  intros c s Hs. rewrite dropna_subset_column, Hs. fold cols mask. simpl.
  f_equal. rewrite <- (Hwf _ _ Hs). clearbody mask. clear.
  assert (∀ a (t : Series) mk,
            boolean_index mk t
            = (λ r, mjoin (t !! (r - a)%nat))
                <$> boolean_index mk (seq a (length t))) as Hgen.
  { intros a t. revert a. induction t as [|x t IH]; intros a [|m mk];
      try done.
    cbn [boolean_index length seq].
    assert ((λ r, mjoin (t !! (r - S a)%nat)) <$> boolean_index mk (seq (S a) (length t))
            = (λ r, mjoin ((x :: t) !! (r - a)%nat))
                <$> boolean_index mk (seq (S a) (length t))) as Heq.
    { apply list_fmap_ext. intros i r Hr.
      apply list_elem_of_lookup_2, boolean_index_elem, elem_of_seq in Hr.
      replace (r - a)%nat with (S (r - S a)) by lia. done. }
    destruct m.
    - rewrite fmap_cons, <- Heq, <- IH. by rewrite Nat.sub_diag.
    - by rewrite <- Heq, <- IH. }
  rewrite (Hgen 0%nat). apply list_fmap_ext. intros i r _.
  by rewrite Nat.sub_0_r.
Qed.

Lemma listwise_deletion_complete_witness :
  (nrows (dropna_subset ["head_sex"; "c2002"] hh_controls_example) ≤ 3)%nat.
Proof.
  destruct (listwise_deletion_complete ["head_sex"; "c2002"] hh_controls_example)
    as (_ & Hle & _).
  - apply df_wf_decidable. vm_compute. exact I.
  - exact Hle.
Defined.

Lemma length_filter_fmap {A B} (f : A → B) (P : B → Prop)
    `{∀ y, Decision (P y)} (l : list A) :
  length (filter P (f <$> l)) = length (filter (λ x, P (f x)) l).
Proof.
  induction l as [|x l IH]; [done|]. rewrite fmap_cons.
  destruct (decide (P (f x))).
  - rewrite !filter_cons_True by done. simpl. by rewrite IH.
  - by rewrite !filter_cons_False by done.
Qed.

Lemma series_by_rows (s : Series) :
  (λ r, mjoin (s !! r)) <$> seq 0 (length s) = s.
Proof.
  apply list_eq. intros i. rewrite list_lookup_fmap.
  destruct (decide (i < length s)%nat) as [Hlt|Hge].
  - rewrite lookup_seq_lt by done. simpl.
    destruct (lookup_lt_is_Some_2 s i Hlt) as [c ->]. done.
  - rewrite lookup_seq_ge by lia. simpl. symmetry. apply lookup_ge_None_2. lia.
Qed.

Lemma isnull_sum_rows (s : Series) :
  isnull_sum s
  = length (filter (λ r, mjoin (s !! r) = NaN) (seq 0 (length s))).
Proof.
  unfold isnull_sum. rewrite <- (series_by_rows s) at 1.
  apply (length_filter_fmap (λ r, mjoin (s !! r)) (λ c : cell, c = NaN)).
Qed.

Lemma missing_per_row (cols : list Series) r (l : list nat) :
  (sum_list ((λ s : Series, length (filter (λ r, mjoin (s !! r) = NaN) l)) <$> cols)
   + (if forallb (λ s : Series, bool_decide (mjoin (s !! r) ≠ NaN)) cols
      then 0 else 1)
   ≤ sum_list ((λ s : Series, length (filter (λ r, mjoin (s !! r) = NaN) (r :: l)))
                 <$> cols))%nat.
Proof.
  induction cols as [|s cols IH]; [simpl; lia|].
  rewrite !fmap_cons, !sum_list_cons. cbn [forallb].
  destruct (decide (mjoin (s !! r) = NaN)) as [Hm|Hm].
  - rewrite filter_cons_True by done.
    rewrite (bool_decide_false (mjoin (s !! r) ≠ NaN)) by (by intros ?).
    cbn [andb length].
    destruct (forallb _ cols); lia.
  - rewrite filter_cons_False by (by intros ?).
    rewrite (bool_decide_true (mjoin (s !! r) ≠ NaN)) by done.
    cbn [andb]. lia.
Qed.

Lemma listwise_loss_rows (cols : list Series) (l : list nat) :
  (length l
   ≤ length (filter (λ r, forallb (λ s : Series, bool_decide (mjoin (s !! r) ≠ NaN))
                            cols) l)
     + sum_list ((λ s : Series, length (filter (λ r, mjoin (s !! r) = NaN) l))
                   <$> cols))%nat.
Proof.
  induction l as [|r l IH]; [simpl; lia|].
  pose proof (missing_per_row cols r l) as Hrow.
  destruct (forallb (λ s : Series, bool_decide (mjoin (s !! r) ≠ NaN)) cols) eqn:Hc.
  - rewrite filter_cons_True by (by apply Is_true_true). cbn [length]. lia.
  - rewrite filter_cons_False by (by apply Is_true_false). cbn [length]. lia.
Qed.

Lemma nrows_dropna_subset subset df :
  nrows (dropna_subset subset df)
  = length (filter (λ r, forallb (λ s : Series, bool_decide (mjoin (s !! r) ≠ NaN))
                           (select_columns df (filter (λ c, has_col df c) subset)))
              (seq 0 (nrows df))).
Proof.
  unfold dropna_subset, filter_rows, complete_rows. cbn [nrows].
  by rewrite boolean_index_filter.
Qed.

(** X21. The households lost by listwise deletion are at most as many as
    the missing cells counted, column by column, in the columns of the
    subset; and no household is lost exactly when none of these columns
    has a missing cell. *)
Theorem listwise_deletion_loss subset df :
  df_wf df →
  let cols := select_columns df (filter (λ c, has_col df c) subset) in
  (nrows df - nrows (dropna_subset subset df)
   ≤ sum_list (isnull_sum <$> cols))%nat
  ∧ (nrows (dropna_subset subset df) = nrows df
     ↔ Forall (λ s, isnull_sum s = 0%nat) cols).
Proof.
  intros Hwf cols.
  assert (Forall (λ s : Series, length s = nrows df) cols) as Hlens.
  { apply Forall_forall. intros s Hs. unfold cols, select_columns in Hs.
    apply list_elem_of_omap in Hs as (c & _ & Hc). exact (Hwf _ _ Hc). }
  assert ((λ s : Series,
             length (filter (λ r, mjoin (s !! r) = NaN) (seq 0 (nrows df))))
            <$> cols = isnull_sum <$> cols) as Hsum.
  { apply Forall_fmap_ext. eapply Forall_impl; [exact Hlens|].
    intros s Hs. simpl. by rewrite isnull_sum_rows, Hs. }
  pose proof (listwise_loss_rows cols (seq 0 (nrows df))) as Hloss.
  pose proof (nrows_dropna_subset subset df) as Hn. fold cols in Hn.
  rewrite Hsum, length_seq, <- Hn in Hloss.
  split; [lia|]. split.
  - intros Hsame. apply Forall_forall. intros s Hs.
    rewrite Forall_forall in Hlens. specialize (Hlens s Hs).
    rewrite Hn in Hsame.
    rewrite isnull_sum_rows, Hlens. clear Hloss Hsum.
    destruct (filter (λ r, mjoin (s !! r) = NaN) (seq 0 (nrows df)))
      as [|r l] eqn:Hf; [done|]. exfalso.
    assert (r ∈ filter (λ r, mjoin (s !! r) = NaN) (seq 0 (nrows df))) as Hr.
    { rewrite Hf. apply list_elem_of_here. }
    apply list_elem_of_filter in Hr as [Hmiss Hin].
    pose proof (length_filter_lt
                  (λ r, forallb (λ s : Series, bool_decide (mjoin (s !! r) ≠ NaN))
                          cols)
                  (seq 0 (nrows df)) r Hin) as Hlt.
    rewrite length_seq in Hlt. cut (nrows df < nrows df)%nat; [lia|].
    rewrite <- Hsame at 1. apply Hlt.
    intros Hc. apply forallb_True in Hc. rewrite Forall_forall in Hc.
    specialize (Hc s Hs). by apply bool_decide_unpack in Hc.
  - intros Hnone.
    assert (sum_list (isnull_sum <$> cols) = 0%nat) as Hzero.
    { clear - Hnone. induction Hnone as [|s cols Hs _ IH]; [done|].
      rewrite fmap_cons, sum_list_cons. lia. }
    pose proof (length_filter
                  (λ r, forallb (λ s : Series, bool_decide (mjoin (s !! r) ≠ NaN))
                          cols)
                  (seq 0 (nrows df))) as Hle.
    rewrite length_seq, <- Hn in Hle. lia.
Qed.

Lemma listwise_deletion_loss_witness :
  (nrows hh_controls_example
   - nrows (dropna_subset ["head_sex"; "c2002"] hh_controls_example)
   ≤ sum_list (isnull_sum
                 <$> select_columns hh_controls_example
                       (filter (λ c, has_col hh_controls_example c)
                          ["head_sex"; "c2002"])))%nat.
Proof.
  destruct (listwise_deletion_loss ["head_sex"; "c2002"] hh_controls_example)
    as [Hle _].
  - apply df_wf_decidable. vm_compute. exact I.
  - exact Hle.
Defined.

Lemma filter_rows_all mask df :
  df_wf df → Forall (λ m, m = true) mask → length mask = nrows df →
  filter_rows mask df = df.
Proof.
  intros Hwf Hall Hlen. destruct df as [n cols]. unfold filter_rows.
  cbn [nrows columns] in *. f_equal.
  - rewrite boolean_index_all; [by rewrite length_seq | done |].
    rewrite length_seq. lia.
  - apply map_eq. intros c. rewrite lookup_fmap.
    destruct (cols !! c) as [s|] eqn:Hs; [|done]. simpl. f_equal.
    apply boolean_index_all; [done|]. rewrite (Hwf c s Hs). simpl. lia.
Qed.

(** X22. When no exact debt field holds a negative amount, the sample of
    the model with the logarithmic dependent variable is the sample of
    the model with the winsorised debt ratio: both listwise deletions keep
    the same households, and the finiteness filter removes none. *)
Theorem regression_samples_coincide ln hh_df :
  df_wf hh_df →
  no_negative_debt hh_df →
  ∃ final,
    analysis_table ln hh_df = Return final
    ∧ final_df_model2 final = final_df_model1 final.
Proof.
  intros Hwf Hnn.
  destruct (analysis_table_nonneg ln hh_df Hwf Hnn)
    as (final & w & Hrun & Hn & Hwff & Hw & Hlw & Hcells).
  exists final. split; [exact Hrun|]. clear Hrun Hnn Hwf.
  set (lw := np_log ln
               <$> (where_positive
                      <$> ((λ c, cell_add c (Some small_constant_dv)) <$> w))) in *.
  set (R := reg_independent_vars final).
  set (Rc := select_columns final (filter (λ c, has_col final c) R)).
  assert (length lw = nrows final) as Hlenlw by exact (Hwff _ _ Hlw).
  assert (∀ r, (r < nrows final)%nat →
            bool_decide (mjoin (lw !! r) ≠ NaN)
            = bool_decide (mjoin (w !! r) ≠ NaN)) as Hsame.
  { intros r Hr. rewrite Hn in Hr. destruct (Hcells r Hr) as (c & Hc & Hpos).
    unfold lw. rewrite !list_lookup_fmap, Hc. cbn [fmap option_fmap option_map mjoin option_join].
    destruct c as [q|]; [|done].
    rewrite log_cell_defined by (by apply Hpos). done. }
  assert (complete_rows (nrows final)
            (select_columns final
               (filter (λ c, has_col final c) (key_reg_vars_model2 final)))
          = complete_rows (nrows final)
              (select_columns final
                 (filter (λ c, has_col final c) (key_reg_vars_model1 final))))
    as Hmask.
  { unfold key_reg_vars_model1, key_reg_vars_model2. fold R.
    cbn [app]. rewrite !filter_cons_True by (by eapply has_col_lookup).
    unfold select_columns. cbn [omap list_omap]. rewrite Hw, Hlw.
    fold (select_columns final (filter (λ c, has_col final c) R)). fold Rc.
    unfold complete_rows. apply list_fmap_ext. intros i r Hr.
    apply list_elem_of_lookup_2, elem_of_seq in Hr. cbn [forallb].
    rewrite Hsame by lia. done. }
  unfold final_df_model2, final_df_model1. cbv zeta.
  assert (dropna_subset (key_reg_vars_model2 final) final
          = dropna_subset (key_reg_vars_model1 final) final) as Hdrop.
  { unfold dropna_subset. by rewrite Hmask. }
  destruct (columns (dropna_subset (key_reg_vars_model2 final) final)
              !! "log_debt_ratio_winsorized") as [log_dv|] eqn:Hdv;
    [|exact Hdrop].
  rewrite <- Hdrop. apply filter_rows_all.
  - by apply filter_rows_wf.
  - apply Forall_fmap.
    eapply Forall_impl;
      [exact (dropna_subset_complete _ final _ log_dv Hwff
                (list_elem_of_here _ _) Hdv)|].
    intros c Hc. simpl. by apply bool_decide_eq_true.
  - rewrite length_fmap.
    exact (filter_rows_wf _ final Hwff _ _ Hdv).
Qed.

Lemma regression_samples_coincide_witness :
  ∃ final,
    analysis_table (λ x, x) hh_example = Return final
    ∧ final_df_model2 final = final_df_model1 final.
Proof.
  apply (regression_samples_coincide (λ x, x) hh_example).
  - apply df_wf_decidable. vm_compute. exact I.
  - apply no_negative_debt_decidable. vm_compute. reflexivity.
Defined.
